(** * StatCoach Volleyball: the research-based analysis module

    A shallow embedding of [analysis.js].  JavaScript numbers are IEEE 754
    binary64 values, modelled by Rocq's primitive floats, whose operations
    are specified by [SpecFloat]; objects with string keys are association
    lists kept in insertion order, which is the order [for ... in] and
    [Object.entries] enumerate them in. *)

From Stdlib Require Import ZArith Zpower List String Ascii Bool Lia DecimalString.
From Stdlib Require Import Permutation Sorted.
From Stdlib Require Import QArith Qround Qpower Qabs Lqa.
From Stdlib Require Import Floats.
Import ListNotations.

Set Warnings "-inexact-float".

Local Close Scope Q_scope.
Local Open Scope list_scope.
Local Open Scope string_scope.

(** ** JavaScript values used by the module *)

Module JS.

  (** An object with string keys: the properties in insertion order. *)
Definition obj (A : Type) : Type := list (string * A).

  (** [o[k]]: [None] stands for [undefined]. *)
Fixpoint get {A} (k : string) (o : obj A) : option A :=
    match o with
    | [] => None
    | (k', v) :: o' => if String.eqb k k' then Some v else get k o'
    end.

  (** [o[k] = v]: an existing property keeps its place, a new one goes last. *)
Fixpoint set {A} (k : string) (v : A) (o : obj A) : obj A :=
    match o with
    | [] => [(k, v)]
    | (k', v') :: o' =>
        if String.eqb k k' then (k', v) :: o' else (k', v') :: set k v o'
    end.

Definition keys {A} (o : obj A) : list string := map fst o.
Definition values {A} (o : obj A) : list A := map snd o.
Definition entries {A} (o : obj A) : list (string * A) := o.

  (** ToNumber of a property that may be missing: [undefined] reads as NaN. *)
Definition num (x : option float) : float :=
    match x with
    | Some v => v
    | None => nan
    end.

  (** ToBoolean on a number: [+0], [-0] and NaN are falsy. *)
Definition truthy (x : float) : bool :=
    negb (x =? 0)%float && negb (is_nan x).

  (** [x || d] where [x] is a number or missing. *)
Definition or_else (x : option float) (d : float) : float :=
    match x with
    | Some v => if truthy v then v else d
    | None => d
    end.

  (** [x > y] and [x >= y] are [y < x] and [y <= x]. *)
Definition gtb (x y : float) : bool := (y <? x)%float.
Definition geb (x y : float) : bool := (y <=? x)%float.

  (** [Array.prototype.sort]: a stable sort driven by the sign of
      [comparefn a b]; a positive result places [a] after [b], a NaN result
      counts as [+0].  Insertion from the right end keeps equal elements in
      their original order.  ECMAScript fixes the result for a consistent
      comparator only; otherwise the order is implementation-defined, and
      engines differ.  This is one such order: what is stated of the order
      below is stated where the comparator is consistent, or holds of every
      permutation. *)
Section Sort.
Context {A : Type} (comparefn : A -> A -> float).

Fixpoint insert (x : A) (l : list A) : list A :=
      match l with
      | [] => [x]
      | y :: l' => if gtb (comparefn x y) 0 then y :: insert x l' else x :: l
      end.

Definition sort (l : list A) : list A := fold_right insert [] l.
End Sort.

  (** [Array.prototype.slice(0, n)]. *)
Definition slice0 {A} (n : nat) (l : list A) : list A := firstn n l.

  (** [String.prototype.includes]. *)
Fixpoint includes (needle s : string) : bool :=
    String.prefix needle s ||
    match s with
    | EmptyString => false
    | String _ s' => includes needle s'
    end.

  (** [String.prototype.toLowerCase] on the ASCII letters. *)
Definition lower_ascii (c : ascii) : ascii :=
    let n := nat_of_ascii c in
    if (65 <=? n)%nat && (n <=? 90)%nat then ascii_of_nat (n + 32) else c.

Fixpoint toLowerCase (s : string) : string :=
    match s with
    | EmptyString => EmptyString
    | String c s' => String (lower_ascii c) (toLowerCase s')
    end.

  (** [Array.prototype.join]. *)
Definition join (sep : string) (l : list string) : string :=
    String.concat sep l.

  (** The line feed of ['\n']. *)
Definition nl : string := String (ascii_of_nat 10) EmptyString.

End JS.

(** ** The research tables *)

Record Benchmarks := {
  win : JS.obj float;
  loss : JS.obj float
}.

Definition RESEARCH_BENCHMARKS : Benchmarks := {|
  win := [ ("kills", 46.9%float);
           ("errors", 14.3%float);
           ("attempts", 96.2%float);
           ("serviceAces", 6.45%float);
           ("serviceErrors", 16.0%float);
           ("receptionErrors", 3.71%float);
           ("digs", 31.1%float);
           ("soloBlocks", 1.94%float);
           ("blockAssists", 13.9%float);
           ("blockErrors", 1.24%float) ];
  loss := [ ("kills", 42.8%float);
            ("errors", 19.3%float);
            ("attempts", 103.0%float);
            ("serviceAces", 3.93%float);
            ("serviceErrors", 15.5%float);
            ("receptionErrors", 6.17%float);
            ("digs", 29.5%float);
            ("soloBlocks", 1.58%float);
            ("blockAssists", 10.4%float);
            ("blockErrors", 1.44%float) ]
|}.

Definition ODDS_RATIOS : JS.obj float :=
  [ ("kills", 1.255%float);
    ("errors", 0.921%float);
    ("attempts", 0.881%float);
    ("serviceAces", 1.338%float);
    ("serviceErrors", 0.992%float);
    ("receptionErrors", 0.757%float);
    ("digs", 1.152%float);
    ("soloBlocks", 1.257%float);
    ("blockAssists", 1.126%float);
    ("blockErrors", 0.867%float) ].

(** ** Raw statistics *)

(** The box-score counts of one match.  A count the caller leaves out reads
    as [undefined], which every use below (a product, a quotient or a
    comparison with 0) treats as NaN; [totalSets] is kept optional because
    [analyzeGame] tests it for presence. *)
Record RawStats := {
  totalKills : float;
  killAttempts : float;
  attackErrors : float;
  serviceAces : float;
  serviceErrors : float;
  receptionErrors : float;
  digs : float;
  soloBlocks : float;
  blockAssists : float;
  totalSets : option float
}.

(** ** normalizeStats *)

(** [function normalizeStats(stats, sets = 3)]: a missing second argument
    takes the default. *)
Definition normalizeStats (stats : RawStats) (sets : option float)
  : JS.obj float :=
  let sets := match sets with Some s => s | None => 3%float end in
  let normalizationFactor := (3.5 / sets)%float in
  [ ("kills", (totalKills stats * normalizationFactor)%float);
    ("errors", (attackErrors stats * normalizationFactor)%float);
    ("attempts", (killAttempts stats * normalizationFactor)%float);
    ("serviceAces", (serviceAces stats * normalizationFactor)%float);
    ("serviceErrors", (serviceErrors stats * normalizationFactor)%float);
    ("receptionErrors", (receptionErrors stats * normalizationFactor)%float);
    ("digs", (digs stats * normalizationFactor)%float);
    ("soloBlocks", (soloBlocks stats * normalizationFactor)%float);
    ("blockAssists", (blockAssists stats * normalizationFactor)%float) ].

(** ** calculateImpacts *)

Module Impact.
Record t := {
    value : float;
    benchmark : float;
    deviation : float;
    impact : float;
    oddsRatio : float
  }.
End Impact.

Section Impacts.

  (** [Math.log] is implementation-approximated in ECMAScript; the module is
      generic in it. *)
Variable Math_log : float -> float.

  (** The body of the loop of [calculateImpacts] for one key of
      [ODDS_RATIOS]. *)
Definition impactStep (normalizedStats : JS.obj float)
      (impacts : JS.obj Impact.t) (metric : string) : JS.obj Impact.t :=
    let midpoint := win RESEARCH_BENCHMARKS in
    match JS.get metric normalizedStats, JS.get metric midpoint with
    | Some v, Some b =>
        let deviation := (v - b)%float in
        let logOddsChange :=
          (deviation * Math_log (JS.num (JS.get metric ODDS_RATIOS)))%float in
        let percentageImpact :=
          (logOddsChange * 100 / Math_log 2)%float in
        JS.set metric
          {| Impact.value := v;
             Impact.benchmark := b;
             Impact.deviation := deviation;
             Impact.impact := percentageImpact;
             Impact.oddsRatio := JS.num (JS.get metric ODDS_RATIOS) |}
          impacts
    | _, _ => impacts
    end.

Definition calculateImpacts (normalizedStats : JS.obj float)
    : JS.obj Impact.t :=
    fold_left (impactStep normalizedStats) (JS.keys ODDS_RATIOS) [].

End Impacts.

(** ** getPerformanceLevel *)

Definition lowerIsBetter : list string :=
  ["errors"; "attempts"; "serviceErrors"; "receptionErrors"; "blockErrors"].

(** [Array.prototype.includes] on an array of strings. *)
Definition includes_str (l : list string) (s : string) : bool :=
  existsb (String.eqb s) l.

Definition getPerformanceLevel (value : float) (metric : string) : string :=
  let winBench := JS.num (JS.get metric (win RESEARCH_BENCHMARKS)) in
  let lossBench := JS.num (JS.get metric (loss RESEARCH_BENCHMARKS)) in
  if includes_str lowerIsBetter metric then
    if (value <=? winBench)%float then "excellent"
    else if (value <=? lossBench)%float then "good"
    else "needs_improvement"
  else
    if JS.geb value winBench then "excellent"
    else if JS.geb value lossBench then "good"
    else "needs_improvement".

(** ** generateRecommendations *)

Module Weakness.
Record t := {
    metric : string;
    impact : float;
    value : float;
    benchmark : float;
    priority : float
  }.
End Weakness.

Module Strength.
Record t := {
    metric : string;
    impact : float;
    value : float;
    benchmark : float
  }.
End Strength.

Record Recommendations := {
  weaknesses : list Weakness.t;
  strengths : list Strength.t;
  allImpacts : list (string * Impact.t)
}.

(** [(a, b) => Math.abs(b[1].impact) - Math.abs(a[1].impact)] *)
Definition byAbsImpact (a b : string * Impact.t) : float :=
  (abs (Impact.impact (snd b)) - abs (Impact.impact (snd a)))%float.

(** [([_, data]) => data.impact < -1] and [([_, data]) => data.impact > 1] *)
Definition isWeakness (e : string * Impact.t) : bool :=
  (Impact.impact (snd e) <? -1)%float.

Definition isStrength (e : string * Impact.t) : bool :=
  JS.gtb (Impact.impact (snd e)) 1.

Definition toWeakness (e : string * Impact.t) : Weakness.t :=
  let '(metric, data) := e in
  {| Weakness.metric := metric;
     Weakness.impact := Impact.impact data;
     Weakness.value := Impact.value data;
     Weakness.benchmark := Impact.benchmark data;
     Weakness.priority := abs (Impact.impact data) |}.

Definition toStrength (e : string * Impact.t) : Strength.t :=
  let '(metric, data) := e in
  {| Strength.metric := metric;
     Strength.impact := Impact.impact data;
     Strength.value := Impact.value data;
     Strength.benchmark := Impact.benchmark data |}.

Definition generateRecommendations (impacts : JS.obj Impact.t)
  : Recommendations :=
  let sortedImpacts := JS.sort byAbsImpact (JS.entries impacts) in
  let weaknesses := JS.slice0 3 (filter isWeakness sortedImpacts) in
  let strengths := JS.slice0 2 (filter isStrength sortedImpacts) in
  {| weaknesses := map toWeakness weaknesses;
     strengths := map toStrength strengths;
     allImpacts := sortedImpacts |}.

(** ** formatMetricName *)

Definition metricNames : JS.obj string :=
  [ ("kills", "Kills");
    ("errors", "Attack Errors");
    ("attempts", "Attack Attempts");
    ("serviceAces", "Service Aces");
    ("serviceErrors", "Service Errors");
    ("receptionErrors", "Reception Errors");
    ("digs", "Digs");
    ("soloBlocks", "Solo Blocks");
    ("blockAssists", "Block Assists");
    ("blockErrors", "Block Errors") ].

(** [names[metric] || metric]: every name in the table is a non-empty string,
    hence truthy. *)
Definition formatMetricName (metric : string) : string :=
  match JS.get metric metricNames with
  | Some name => name
  | None => metric
  end.

(** ** generateInsightsText *)

(** The source file stores its pictographs as mis-decoded text; the strings
    below carry the UTF-8 bytes of that text as they stand in the file. *)
Definition glyph (bytes : list nat) : string :=
  string_of_list_ascii (map ascii_of_nat bytes).

Definition glyphTarget : string := glyph [195; 176; 197; 184; 197; 189; 194; 175].
Definition glyphCheck : string := glyph [195; 162; 197; 147; 226; 128; 166].
Definition glyphChart : string := glyph [195; 176; 197; 184; 226; 128; 156; 197; 160].
Definition glyphBall : string := glyph [195; 176; 197; 184].
Definition bullet : string := glyph [195; 162; 226; 130; 172; 194; 162].

Definition analysisHeader : string :=
  "**Performance Analysis Based on NCAA Research**" ++ JS.nl.

Definition practiceFocusHeader : string :=
  "**" ++ glyphBall ++ " Recommended Practice Focus**" ++ JS.nl.

(** The six bullet templates, in the order of the [if] chain. *)
Definition receptionDrills : list string :=
  [ bullet ++ " Serve-receive drills with pressure situations";
    bullet ++ " Individual passing technique work";
    bullet ++ " Communication and coverage patterns" ].

Definition servingDrills : list string :=
  [ bullet ++ " Aggressive serving practice with target zones";
    bullet ++ " Risk/reward analysis for different serve types";
    bullet ++ " Situational serving strategy" ].

Definition attemptsDrills : list string :=
  [ bullet ++ " Shot selection and decision-making drills";
    bullet ++ " High-percentage attack patterns";
    bullet ++ " Reading defense and picking spots" ].

Definition errorsDrills : list string :=
  [ bullet ++ " Ball control and technique refinement";
    bullet ++ " Reduce unforced errors through focused repetition";
    bullet ++ " Mental approach to minimize mistakes" ].

Definition digsDrills : list string :=
  [ bullet ++ " Defensive positioning and reading hitters";
    bullet ++ " Platform control and emergency digs";
    bullet ++ " Transition from defense to offense" ].

Definition blockDrills : list string :=
  [ bullet ++ " Blocking footwork and timing";
    bullet ++ " Reading opponent tendencies";
    bullet ++ " Team blocking coordination" ].

Definition allDrills : list string :=
  (receptionDrills ++ servingDrills ++ attemptsDrills ++ errorsDrills
   ++ digsDrills ++ blockDrills)%list.

(** What the [if] chain on [topWeakness.metric] pushes. *)
Definition drillsFor (metric : string) : list string :=
  if String.eqb metric "receptionErrors" then receptionDrills
  else if String.eqb metric "serviceAces" then servingDrills
  else if String.eqb metric "attempts" then attemptsDrills
  else if String.eqb metric "errors" then errorsDrills
  else if String.eqb metric "digs" then digsDrills
  else if JS.includes "Block" metric then blockDrills
  else [].

Definition string_of_nat (n : nat) : string :=
  DecimalString.NilZero.string_of_uint (Nat.to_uint n).

Section Narrative.

  (** [Number.prototype.toFixed], a built-in the module is generic in. *)
Variable toFixed : float -> nat -> string.

Definition summaryLine (impacts : JS.obj Impact.t) : string :=
    let totalImpact :=
      fold_left (fun sum i => (sum + Impact.impact i)%float)
                (JS.values impacts) 0%float in
    if JS.gtb totalImpact 5 then
      "Your statistics profile suggests strong performance aligned with winning teams from NCAA Division I research." ++ JS.nl
    else if (totalImpact <? -5)%float then
      "Your statistics profile shows several areas below winning benchmarks. Focus on the priorities below for maximum improvement." ++ JS.nl
    else
      "Your statistics show a mixed profile with both strengths and areas for improvement." ++ JS.nl.

  (** The four lines pushed for the weakness at position [index]. *)
Definition priorityLines (index : nat) (weakness : Weakness.t)
    : list string :=
    let metricName := formatMetricName (Weakness.metric weakness) in
    let impactPercent := toFixed (abs (Weakness.impact weakness)) 1 in
    let orValue := JS.num (JS.get (Weakness.metric weakness) ODDS_RATIOS) in
    let orPercent := toFixed (abs ((1 - orValue) * 100)%float) 1 in
    [ "**Priority " ++ string_of_nat (index + 1) ++ ": " ++ metricName ++ "**";
      "Your " ++ toFixed (Weakness.value weakness) 1
        ++ " vs winning average of " ++ toFixed (Weakness.benchmark weakness) 1;
      "Impact: " ++ impactPercent ++ "% reduction in win probability";
      "Research shows each " ++ JS.toLowerCase metricName
        ++ " changes win odds by " ++ orPercent ++ "%" ++ JS.nl ].

  (** [forEach((weakness, index) => ...)] from position [index] on. *)
Fixpoint prioritiesFrom (index : nat) (ws : list Weakness.t) : list string :=
    match ws with
    | [] => []
    | w :: ws' => (priorityLines index w ++ prioritiesFrom (S index) ws')%list
    end.

Definition prioritiesBlock (ws : list Weakness.t) : list string :=
    match ws with
    | [] => []
    | _ :: _ =>
        ("**" ++ glyphTarget ++ " Top Practice Priorities**" ++ JS.nl)
          :: prioritiesFrom 0 ws
    end.

Definition strengthLines (strength : Strength.t) : list string :=
    let metricName := formatMetricName (Strength.metric strength) in
    let impactPercent := toFixed (Strength.impact strength) 1 in
    [ "**" ++ metricName ++ ":** " ++ toFixed (Strength.value strength) 1
        ++ " (winning avg: " ++ toFixed (Strength.benchmark strength) 1 ++ ")";
      "Contributing +" ++ impactPercent ++ "% to win probability" ++ JS.nl ].

Definition strengthsBlock (ss : list Strength.t) : list string :=
    match ss with
    | [] => []
    | _ :: _ =>
        ("**" ++ glyphCheck ++ " Areas of Strength**" ++ JS.nl)
          :: flat_map strengthLines ss
    end.

Definition findingsBlock : list string :=
    [ "**" ++ glyphChart ++ " Key Research Findings**" ++ JS.nl;
      bullet ++ " Service aces have the strongest positive impact (+33.8% per ace)";
      bullet ++ " Reception errors have the strongest negative impact (-24.3% per error)";
      bullet ++ " More attack attempts actually hurt performance - efficiency over volume";
      bullet ++ " Both solo blocks and block assists significantly improve win probability" ++ JS.nl ].

  (** The bullets that follow the practice-focus header. *)
Definition practiceFocusBullets (ws : list Weakness.t) : list string :=
    match ws with
    | [] => []
    | topWeakness :: _ => drillsFor (Weakness.metric topWeakness)
    end.

  (** The array [insights] at the end of [generateInsightsText]. *)
Definition insightsLines (stats : RawStats) (impacts : JS.obj Impact.t)
      (recommendations : Recommendations) : list string :=
    ([ analysisHeader ]
     ++ [ summaryLine impacts ]
     ++ prioritiesBlock (weaknesses recommendations)
     ++ strengthsBlock (strengths recommendations)
     ++ findingsBlock
     ++ [ practiceFocusHeader ]
     ++ practiceFocusBullets (weaknesses recommendations))%list.

Definition generateInsightsText (stats : RawStats)
      (impacts : JS.obj Impact.t) (recommendations : Recommendations)
    : string :=
    JS.join JS.nl (insightsLines stats impacts recommendations).

End Narrative.

(** ** analyzeGame *)

Record Metrics := {
  killEfficiency : float;
  acesPerSet : float;
  blocksPerSet : float;
  digsPerSet : float;
  receptionErrorRate : float;
  attackErrorRate : float
}.

Record AnalysisResult := {
  normalized : JS.obj float;
  impacts : JS.obj Impact.t;
  recommendations : Recommendations;
  insightsText : string;
  metrics : Metrics
}.

Section Orchestrator.

Variable Math_log : float -> float.
Variable toFixed : float -> nat -> string.

  (** [stats.totalSets || 3] *)
Definition setsUsed (stats : RawStats) : float :=
    JS.or_else (totalSets stats) 3.

Definition displayMetrics (stats : RawStats) : Metrics :=
    let sets := JS.num (totalSets stats) in
    {| killEfficiency :=
         if JS.gtb (killAttempts stats) 0
         then (totalKills stats / killAttempts stats * 100)%float else 0%float;
       acesPerSet :=
         if JS.gtb sets 0 then (serviceAces stats / sets)%float else 0%float;
       blocksPerSet :=
         if JS.gtb sets 0
         then ((soloBlocks stats + blockAssists stats) / sets)%float
         else 0%float;
       digsPerSet :=
         if JS.gtb sets 0 then (digs stats / sets)%float else 0%float;
       receptionErrorRate :=
         if JS.gtb sets 0 then (receptionErrors stats / sets)%float
         else 0%float;
       attackErrorRate :=
         if JS.gtb sets 0 then (attackErrors stats / sets)%float
         else 0%float |}.

Definition analyzeGame (stats : RawStats) : AnalysisResult :=
    let normalized := normalizeStats stats (Some (setsUsed stats)) in
    let impacts := calculateImpacts Math_log normalized in
    let recommendations := generateRecommendations impacts in
    let insightsText :=
      generateInsightsText toFixed stats impacts recommendations in
    {| normalized := normalized;
       impacts := impacts;
       recommendations := recommendations;
       insightsText := insightsText;
       metrics := displayMetrics stats |}.

End Orchestrator.

(** ** Reference instances of the built-ins *)

(** The binary64 value nearest to the natural logarithm at each of the
    eleven points where the module calls [Math.log]: the ten odds ratios
    and 2.  ECMAScript leaves [Math.log] implementation-approximated, and
    an engine may return a neighbour of one of these values: what is
    proved of every engine is stated for every [Math_log], and this
    instance serves the examples. *)
Definition lnTable : list (float * float) :=
  [ (1.255%float, 0.22713557258374711%float);
    (0.921%float, (-0.08229524272683016)%float);
    (0.881%float, (-0.12669765304595754)%float);
    (1.338%float, 0.29117596170603677%float);
    (0.992%float, (-0.008032171697264267)%float);
    (0.757%float, (-0.2783920255446883)%float);
    (1.152%float, 0.14149956227369942%float);
    (1.257%float, 0.22872792960811028%float);
    (1.126%float, 0.11867152971749854%float);
    (0.867%float, (-0.1427163022015952)%float);
    (2%float, 0.6931471805599453%float) ].

Definition Math_log_ref (x : float) : float :=
  match find (fun p => (fst p =? x)%float) lnTable with
  | Some p => snd p
  | None => nan
  end.

(** [toFixed] for magnitudes below 1e21: the decimal digits of the integer
    nearest to [x * 10^f], the larger one on a tie, with the point [f]
    digits from the right.  (From 1e21 on JavaScript switches to exponent
    notation; this instance keeps printing plain digits there.) *)
Definition digitsOf (n : Z) : string :=
  NilZero.string_of_uint (N.to_uint (Z.to_N n)).

Fixpoint zeros (k : nat) : string :=
  match k with
  | O => EmptyString
  | S k' => String "0" (zeros k')
  end.

Definition withPoint (f : nat) (m : string) : string :=
  match f with
  | O => m
  | S _ =>
      let m := zeros (S f - String.length m) ++ m in
      let k := String.length m in
      substring 0 (k - f) m ++ "." ++ substring (k - f) f m
  end.

Definition Number_toFixed (x : float) (f : nat) : string :=
  match Prim2SF x with
  | S754_nan => "NaN"
  | S754_infinity s => if s then "-Infinity" else "Infinity"
  | S754_zero _ => withPoint f "0"
  | S754_finite s m e =>
      let scaled := (Zpos m * 10 ^ Z.of_nat f)%Z in
      let n := if (0 <=? e)%Z then (scaled * 2 ^ e)%Z
               else ((2 * scaled + 2 ^ (- e)) / 2 ^ (1 - e))%Z in
      (if s then "-" else EmptyString) ++ withPoint f (digitsOf n)
  end.

(** ** Vocabulary of the statements *)

(** The keys [normalizeStats] writes, in its order. *)
Definition normalizedKeys : list string :=
  [ "kills"; "errors"; "attempts"; "serviceAces"; "serviceErrors";
    "receptionErrors"; "digs"; "soloBlocks"; "blockAssists" ].

(** The raw field each normalized key is computed from. *)
Definition rawOf (metric : string) (stats : RawStats) : float :=
  JS.num (JS.get metric
    [ ("kills", totalKills stats);
      ("errors", attackErrors stats);
      ("attempts", killAttempts stats);
      ("serviceAces", serviceAces stats);
      ("serviceErrors", serviceErrors stats);
      ("receptionErrors", receptionErrors stats);
      ("digs", digs stats);
      ("soloBlocks", soloBlocks stats);
      ("blockAssists", blockAssists stats) ]).

(** The keys whose odds ratio is above 1, and those where it is below 1. *)
Definition raisingKeys : list string :=
  [ "kills"; "serviceAces"; "digs"; "soloBlocks"; "blockAssists" ].

Definition loweringKeys : list string :=
  [ "errors"; "attempts"; "serviceErrors"; "receptionErrors" ].

(** A whole number as a JavaScript number. *)
Definition countOf (n : Z) : float := of_uint63 (Uint63.of_Z n).

(** The impact [calculateImpacts] assigns to a key, as a function of the raw
    count and the set count. *)
Definition impactFormula (Math_log : float -> float) (metric : string)
    (raw sets : float) : float :=
  ((raw * (3.5 / sets) - JS.num (JS.get metric (win RESEARCH_BENCHMARKS)))
   * Math_log (JS.num (JS.get metric ODDS_RATIOS)) * 100 / Math_log 2)%float.

(** What the loop of [calculateImpacts] writes under a key, if anything. *)
Definition writtenEntry (Math_log : float -> float)
    (normalizedStats : JS.obj float) (metric : string) : option Impact.t :=
  match JS.get metric normalizedStats,
        JS.get metric (win RESEARCH_BENCHMARKS) with
  | Some v, Some b =>
      Some {| Impact.value := v;
              Impact.benchmark := b;
              Impact.deviation := (v - b)%float;
              Impact.impact :=
                ((v - b) * Math_log (JS.num (JS.get metric ODDS_RATIOS))
                 * 100 / Math_log 2)%float;
              Impact.oddsRatio := JS.num (JS.get metric ODDS_RATIOS) |}
  | _, _ => None
  end.

(** The impact recorded for a key, NaN when the key is absent. *)
Definition impactAt (metric : string) (impacts : JS.obj Impact.t) : float :=
  JS.num (option_map Impact.impact (JS.get metric impacts)).

(** The value lies strictly between two benchmarks, whichever is larger. *)
Definition strictlyBetween (value b1 b2 : float) : Prop :=
  ((b1 <? value)%float = true /\ (value <? b2)%float = true)
  \/ ((b2 <? value)%float = true /\ (value <? b1)%float = true).

(** Entries in descending order of absolute impact. *)
Definition descAbs (a b : string * Impact.t) : Prop :=
  (abs (Impact.impact (snd b)) <=? abs (Impact.impact (snd a)))%float = true.

Definition numericImpact (e : string * Impact.t) : Prop :=
  is_nan (Impact.impact (snd e)) = false.

(** A line that starts with the bullet glyph, and one that does not. *)
Definition isBulletLine (line : string) : bool := String.prefix bullet line.

Definition plainLine (line : string) : Prop := isBulletLine line = false.

(** A rank that orders the numbers among the specification floats: the
    class first, then exponent and mantissa. *)
Definition rank (x : spec_float) : Z * Z * Z :=
  match x with
  | S754_nan => (0, 0, 0)
  | S754_zero _ => (0, 0, 0)
  | S754_infinity false => (2, 0, 0)
  | S754_infinity true => (-2, 0, 0)
  | S754_finite false m e => (1, e, Zpos m)
  | S754_finite true m e => (-1, - e, Zneg m)
  end%Z.

Definition rank_lt (a b : Z * Z * Z) : Prop :=
  let '(a1, a2, a3) := a in
  let '(b1, b2, b3) := b in
  (a1 < b1 \/ (a1 = b1 /\ (a2 < b2 \/ (a2 = b2 /\ a3 < b3))))%Z.

Definition is_number (x : spec_float) : Prop := x <> S754_nan.

(** The worked example of the specification. *)
Definition exampleStats : RawStats := {|
  totalKills := 50; killAttempts := 100; attackErrors := 10;
  serviceAces := 8; serviceErrors := 12; receptionErrors := 2;
  digs := 35; soloBlocks := 3; blockAssists := 15;
  totalSets := Some 3%float
|}.

(** A match that sits on every winning average: with 3.5 sets the
    normalization factor is 1. *)
Definition benchmarkStats : RawStats := {|
  totalKills := 46.9; killAttempts := 96.2; attackErrors := 14.3;
  serviceAces := 6.45; serviceErrors := 16.0; receptionErrors := 3.71;
  digs := 31.1; soloBlocks := 1.94; blockAssists := 13.9;
  totalSets := Some 3.5%float
|}.

(** A tally over 32 sets, in whole counts, close to every winning average:
    each impact lies strictly between -1 and 1. *)
Definition tallyStats : RawStats := {|
  totalKills := 429; killAttempts := 880; attackErrors := 130;
  serviceAces := 59; serviceErrors := 139; receptionErrors := 34;
  digs := 284; soloBlocks := 18; blockAssists := 127;
  totalSets := Some 32%float
|}.

(** A match with another set count, and with another kill count. *)
Definition withSets (sets : option float) (stats : RawStats) : RawStats := {|
  totalKills := totalKills stats; killAttempts := killAttempts stats;
  attackErrors := attackErrors stats; serviceAces := serviceAces stats;
  serviceErrors := serviceErrors stats;
  receptionErrors := receptionErrors stats; digs := digs stats;
  soloBlocks := soloBlocks stats; blockAssists := blockAssists stats;
  totalSets := sets
|}.

(** A match whose only weakness is its service errors. *)
Definition serviceErrorStats : RawStats := {|
  totalKills := 50; killAttempts := 80; attackErrors := 10;
  serviceAces := 8; serviceErrors := 30; receptionErrors := 2;
  digs := 35; soloBlocks := 3; blockAssists := 15;
  totalSets := Some 3%float
|}.

Definition withKills (kills : float) (stats : RawStats) : RawStats := {|
  totalKills := kills; killAttempts := killAttempts stats;
  attackErrors := attackErrors stats; serviceAces := serviceAces stats;
  serviceErrors := serviceErrors stats;
  receptionErrors := receptionErrors stats; digs := digs stats;
  soloBlocks := soloBlocks stats; blockAssists := blockAssists stats;
  totalSets := totalSets stats
|}.

(** The sign of a number, if it has one: zeros fit both signs. *)
Definition signed (s : bool) (x : spec_float) : Prop :=
  match x with
  | S754_zero _ => True
  | S754_infinity s' => s' = s
  | S754_finite s' _ _ => s' = s
  | S754_nan => False
  end.

(** [k in o]. *)
Definition present {A} (k : string) (o : JS.obj A) : bool :=
  match JS.get k o with Some _ => true | None => false end.

(** What the module needs of [Math.log]: finite values, positive above 1
    and negative below 1, at the points where it is called. *)
Definition soundLog (Math_log : float -> float) : Prop :=
  (forall r, In r (JS.values ODDS_RATIOS) ->
     is_finite (Math_log r) = true
     /\ ((1 <? r)%float = true -> (0 <? Math_log r)%float = true)
     /\ ((r <? 1)%float = true -> (Math_log r <? 0)%float = true))
  /\ is_finite (Math_log 2%float) = true
  /\ (0 <? Math_log 2)%float = true.

(** Every raw count is a finite number. *)
Definition finiteCounts (stats : RawStats) : Prop :=
  forall metric, In metric normalizedKeys ->
                 is_finite (rawOf metric stats) = true.

(** The summary sentence of a mixed profile. *)
Definition mixedSummary : string :=
  "Your statistics show a mixed profile with both strengths and areas for improvement." ++ JS.nl.

(** The statistics of the HTTP layer carry [totalBlocks] but neither
    [attackErrors] nor [soloBlocks] nor [blockAssists]: these three read as
    [undefined], NaN in arithmetic. *)
Definition httpStats : RawStats := {|
  totalKills := 50; killAttempts := 100; attackErrors := nan;
  serviceAces := 8; serviceErrors := 12; receptionErrors := 2;
  digs := 35; soloBlocks := nan; blockAssists := nan;
  totalSets := Some 3%float
|}.

(** Weaknesses in descending priority. *)
Definition descPriority (w w' : Weakness.t) : Prop :=
  (Weakness.priority w' <=? Weakness.priority w)%float = true.

(** Strengths in descending impact. *)
Definition descImpact (s s' : Strength.t) : Prop :=
  (Strength.impact s' <=? Strength.impact s)%float = true.

(** The entries whose absolute impact equals [c]. *)
Definition sameMagnitude (c : float) (e : string * Impact.t) : bool :=
  (abs (Impact.impact (snd e)) =? c)%float.

(** The three labels, from worst to best. *)
Definition levelRank (label : string) : nat :=
  if String.eqb label "excellent" then 2
  else if String.eqb label "good" then 1
  else 0.

(** Every raw count is at least zero. *)
Definition nonNegativeCounts (stats : RawStats) : Prop :=
  forall metric, In metric normalizedKeys ->
                 (0 <=? rawOf metric stats)%float = true.

(** A tally over 32 sets that falls short in block assists only. *)
Definition blockAssistStats : RawStats := {|
  totalKills := 429; killAttempts := 880; attackErrors := 130;
  serviceAces := 59; serviceErrors := 139; receptionErrors := 34;
  digs := 284; soloBlocks := 18; blockAssists := 40;
  totalSets := Some 32%float
|}.

(** ** Binary64 values as rationals *)

Local Open Scope Z_scope.

(** Powers of two among the rationals. *)
Definition bpow (e : Z) : Q := Qpower 2 e.

(** The rational [x] lies at location [l] of the interval [m, m + 1). *)
Definition inbetween (m : Z) (x : Q) (l : location) : Prop :=
  match l with
  | loc_Exact => x == inject_Z m
  | loc_Inexact Lt => inject_Z m < x /\ x < inject_Z m + (1 # 2)
  | loc_Inexact Eq => x == inject_Z m + (1 # 2)
  | loc_Inexact Gt => inject_Z m + (1 # 2) < x /\ x < inject_Z m + 1
  end%Q.

Definition located (r : shr_record) (x : Q) : Prop :=
  (0 <= shr_m r)%Z /\ inbetween (shr_m r) x (loc_of_shr_record r).

(** What [binary_round_aux] makes of the rounded mantissa [N] at exponent
    [E]. *)
Definition pack (s : bool) (N E : Z) : spec_float :=
  match N with
  | Z0 => S754_zero s
  | Zpos n =>
      if N =? 2 ^ prec then
        if E + 1 <=? emax - prec
        then S754_finite s (Z.to_pos (2 ^ (prec - 1))) (E + 1)
        else S754_infinity s
      else if E <=? emax - prec then S754_finite s n E
           else S754_infinity s
  | Zneg _ => S754_nan
  end.

(** The mantissa [m] at exponent [e] with location [l] stands for the
    positive rational [rho], whose magnitude is at most [g]; it is fine
    enough for rounding at [fexp g]. *)
Definition rounds (m e : Z) (l : location) (rho : Q) (g : Z) : Prop :=
  (0 <= m)%Z
  /\ inbetween m (rho * bpow (- e)) l
  /\ (e <= fexp prec emax g)%Z
  /\ fexp prec emax (Zdigits2 m + e) = fexp prec emax g
  /\ (rho < bpow g)%Q
  /\ ((emin < fexp prec emax g)%Z -> (bpow (g - 1) <= rho)%Q).

(** The value of a specification float; zero for what has none. *)
Definition SF2Q (x : spec_float) : Q :=
  match x with
  | S754_finite s m e =>
      (if s then - inject_Z (Zpos m) else inject_Z (Zpos m)) * bpow e
  | _ => 0
  end%Q.

(** Zero or finite. *)
Definition SFfinite (x : spec_float) : Prop :=
  match x with
  | S754_zero _ | S754_finite _ _ _ => True
  | _ => False
  end.

(** The float [z] is the rational [v] rounded to the nearest, ties to
    even: a zero for 0, and else what [binary_round_aux] makes, with the
    sign of [v], of a mantissa that stands for [|v|]. *)
Definition rounds_to (v : Q) (z : spec_float) : Prop :=
  ((v == 0)%Q -> exists s, z = S754_zero s)
  /\ ((0 < v)%Q -> exists m e l g,
        rounds m e l v g /\ z = binary_round_aux prec emax false m e l)
  /\ ((v < 0)%Q -> exists m e l g,
        rounds m e l (- v)%Q g /\ z = binary_round_aux prec emax true m e l).

(** The value of a float. *)
Definition B2Q (x : float) : Q := SF2Q (Prim2SF x).

(** The unit roundoff and the smallest error of binary64. *)
Definition u64 : Q := bpow (- prec).

Definition eta64 : Q := bpow (emin - 1).

(** [z] is finite and within the rounding error of [v]. *)
Definition near (v : Q) (z : spec_float) : Prop :=
  SFfinite z
  /\ (SF2Q z - v <= Qabs v * u64 + eta64)%Q
  /\ (v - SF2Q z <= Qabs v * u64 + eta64)%Q.

(** Two finite floats of magnitude at most [V], for some [V] between [a]
    and [b], the second above the first by [kappa * V] at least. *)
Definition apart (a b kappa : Q) (x x' : float) : Prop :=
  exists V : Q,
    (a <= V /\ V <= b
     /\ - V <= B2Q x /\ B2Q x <= V
     /\ - V <= B2Q x' /\ B2Q x' <= V
     /\ kappa * V <= B2Q x' - B2Q x)%Q
    /\ is_finite x = true /\ is_finite x' = true.

(** Bounds that keep every product away from overflow. *)
Definition big : Q := 1267650600228229401496703205376.

(** The logarithm has a magnitude between 2^-10 and 2^10. *)
Definition inBand (l : float) : bool :=
  ((0.0009765625 <=? l) && (l <=? 1024)
   || (-1024 <=? l) && (l <=? -0.0009765625))%float.

(** What strictness needs of [Math.log] besides [soundLog]: at the odds
    ratios and at 2 its values are neither tiny nor huge.  (The logarithms
    themselves lie between 0.008 and 0.7 in magnitude.) *)
Definition boundedLog (Math_log : float -> float) : Prop :=
  forall r, In r (2%float :: JS.values ODDS_RATIOS) ->
            inBand (Math_log r) = true.

Local Close Scope Z_scope.

(** * Facts about binary64 arithmetic

    Derived from the specification of the primitive operations. *)

Local Open Scope Z_scope.

(** *** Order *)

Lemma compare_cont_Eq (m1 m2 : positive) :
  Pos.compare_cont Eq m1 m2 = Pos.compare m1 m2.
Proof. reflexivity. Qed.

Lemma compare_rank (x y : spec_float) :
  is_number x -> is_number y ->
  match SFcompare x y with
  | Some Lt => rank_lt (rank x) (rank y)
  | Some Eq => rank x = rank y
  | Some Gt => rank_lt (rank y) (rank x)
  | None => False
  end.
Proof.
  unfold is_number.
  destruct x as [sx|sx| |sx mx ex], y as [sy|sy| |sy my ey];
    try congruence; intros _ _; simpl;
    repeat match goal with s : bool |- _ => destruct s end;
    simpl; try lia; try reflexivity.
  - rewrite compare_cont_Eq.
    destruct (Z.compare_spec ex ey), (Pos.compare_spec mx my);
      simpl; subst; try reflexivity; lia.
  - rewrite compare_cont_Eq.
    destruct (Z.compare_spec ex ey), (Pos.compare_spec mx my);
      simpl; subst; try reflexivity; lia.
Qed.

Lemma compare_nan_l (y : spec_float) : SFcompare S754_nan y = None.
Proof. reflexivity. Qed.

Lemma compare_nan_r (x : spec_float) : SFcompare x S754_nan = None.
Proof. destruct x as [ | | |[]]; reflexivity. Qed.

Lemma number_dec (x : spec_float) : {is_number x} + {x = S754_nan}.
Proof. destruct x; (left; discriminate) || (right; reflexivity). Defined.

Ltac by_rank x y :=
  let K := fresh "K" in
  destruct (number_dec x) as [? | ->];
  [ destruct (number_dec y) as [? | ->];
    [ assert (K := compare_rank x y ltac:(assumption) ltac:(assumption));
      destruct (SFcompare x y) as [[]|]; [ | | | contradiction];
      unfold rank_lt in *;
      destruct (rank x) as [[? ?] ?]; destruct (rank y) as [[? ?] ?]
    | rewrite compare_nan_r ]
  | rewrite compare_nan_l ].

Lemma SFltb_iff (x y : spec_float) :
  SFltb x y = true <-> is_number x /\ is_number y /\ rank_lt (rank x) (rank y).
Proof.
  unfold SFltb. by_rank x y; unfold is_number;
    try (intuition (congruence || lia)).
  all: split; [discriminate|]; intros (_ & _ & K'); inversion K; lia.
Qed.

Lemma SFleb_iff (x y : spec_float) :
  SFleb x y = true <->
  is_number x /\ is_number y /\ (rank_lt (rank x) (rank y) \/ rank x = rank y).
Proof.
  unfold SFleb. by_rank x y; unfold is_number;
    try (intuition (congruence || lia)).
  all: split; [discriminate|]; intros (_ & _ & [K'|K']); [lia|inversion K'; lia].
Qed.

Lemma SFeqb_iff (x y : spec_float) :
  SFeqb x y = true <-> is_number x /\ is_number y /\ rank x = rank y.
Proof.
  unfold SFeqb. by_rank x y; unfold is_number;
    try (intuition (congruence || lia)).
  all: split; [discriminate|]; intros (_ & _ & K'); inversion K'; lia.
Qed.

Lemma is_nan_false (x : float) :
  is_nan x = false <-> is_number (Prim2SF x).
Proof.
  unfold is_nan. rewrite negb_false_iff, eqb_spec, SFeqb_iff. tauto.
Qed.

(** Turns the hypotheses and the goal into statements about ranks. *)
Ltac to_ranks :=
  repeat match goal with
  | H : _ = false |- _ => apply not_true_iff_false in H
  | |- _ = false => apply not_true_iff_false
  end;
  rewrite ?ltb_spec, ?leb_spec, ?eqb_spec, ?SFltb_iff, ?SFleb_iff, ?SFeqb_iff in *;
  unfold rank_lt in *;
  repeat match goal with
  | |- context [rank (Prim2SF ?x)] =>
      is_var x; let a := fresh "a" in let b := fresh "b" in let c := fresh "c" in
      destruct (rank (Prim2SF x)) as [[a b] c]
  | H : context [rank (Prim2SF ?x)] |- _ =>
      is_var x; let a := fresh "a" in let b := fresh "b" in let c := fresh "c" in
      destruct (rank (Prim2SF x)) as [[a b] c]
  end.

Ltac rank_eqs :=
  repeat match goal with
  | H : (_, _, _) = (_, _, _) |- _ => inversion H; clear H; subst
  end.

Lemma ltb_trans (x y z : float) :
  (x <? y)%float = true -> (y <? z)%float = true -> (x <? z)%float = true.
Proof. intros H1 H2. to_ranks. intuition lia. Qed.

Lemma leb_trans (x y z : float) :
  (x <=? y)%float = true -> (y <=? z)%float = true -> (x <=? z)%float = true.
Proof.
  intros H1 H2. to_ranks.
  destruct H1 as (? & ? & [?|E1]), H2 as (? & ? & [?|E2]); rank_eqs;
    repeat split; auto; left; lia.
Qed.

Lemma ltb_leb (x y : float) :
  (x <? y)%float = true -> (x <=? y)%float = true.
Proof. intros H. to_ranks. tauto. Qed.

Lemma ltb_antisym (x y : float) :
  (x <? y)%float = true -> (y <=? x)%float = false.
Proof.
  intros H. to_ranks. destruct H as (_ & _ & K).
  intros (_ & _ & [?|E]); rank_eqs; lia.
Qed.

Lemma ltb_false_leb (x y : float) :
  is_nan x = false -> is_nan y = false ->
  (x <? y)%float = false -> (y <=? x)%float = true.
Proof.
  rewrite !is_nan_false. intros Hx Hy H. to_ranks.
  repeat split; auto.
  match goal with
  | |- (?a1 < ?b1 \/ _ /\ (?a2 < ?b2 \/ _ /\ ?a3 < ?b3)) \/ _ =>
    assert (D : (a1 < b1 \/ (a1 = b1 /\ (a2 < b2 \/ (a2 = b2 /\ a3 < b3))))
                \/ (b1 < a1 \/ (b1 = a1 /\ (b2 < a2 \/ (b2 = a2 /\ b3 < a3))))
                \/ (a1 = b1 /\ a2 = b2 /\ a3 = b3)) by lia
  end.
  destruct D as [D|[D|(-> & -> & ->)]]; [auto|exfalso; apply H|]; auto.
Qed.

Lemma eqb_leb (x y : float) :
  (x =? y)%float = true -> (x <=? y)%float = true /\ (y <=? x)%float = true.
Proof. intros H. to_ranks. destruct H as (? & ? & E). rank_eqs. tauto. Qed.

Lemma eqb_ltb_r (x y z : float) :
  (x =? y)%float = true -> (z <? y)%float = true -> (z <? x)%float = true.
Proof.
  intros H1 H2. to_ranks. destruct H1 as (? & ? & E). rank_eqs. tauto.
Qed.

Lemma eqb_ltb_l (x y z : float) :
  (x =? y)%float = true -> (y <? z)%float = true -> (x <? z)%float = true.
Proof.
  intros H1 H2. to_ranks. destruct H1 as (? & ? & E). rank_eqs. tauto.
Qed.

Lemma abs_is_nan (x : float) : is_nan (abs x) = false <-> is_nan x = false.
Proof.
  rewrite !is_nan_false, abs_spec. unfold is_number.
  destruct (Prim2SF x); simpl; intuition congruence.
Qed.

(** *** Rounding *)

Lemma digits2_bounds (m : positive) :
  2 ^ (Zpos (digits2_pos m) - 1) <= Zpos m < 2 ^ Zpos (digits2_pos m).
Proof.
  induction m as [p IH|p IH|]; simpl digits2_pos.
  - rewrite Pos2Z.inj_succ.
    replace (Z.succ (Zpos (digits2_pos p)) - 1) with (Z.succ (Zpos (digits2_pos p) - 1)) by lia.
    rewrite !Z.pow_succ_r by lia. lia.
  - rewrite Pos2Z.inj_succ.
    replace (Z.succ (Zpos (digits2_pos p)) - 1) with (Z.succ (Zpos (digits2_pos p) - 1)) by lia.
    rewrite !Z.pow_succ_r by lia. lia.
  - simpl. lia.
Qed.

Lemma iter_xO (d m : positive) :
  Zpos (Pos.iter xO m d) = Zpos m * 2 ^ Zpos d.
Proof.
  change (Pos.iter xO m d) with (shift_pos d m).
  rewrite shift_pos_correct. change (Z.pow_pos 2 d) with (2 ^ Zpos d). lia.
Qed.

(** Aligning a mantissa to a smaller exponent multiplies it by a power of
    two. *)
Lemma shl_align_le (m : positive) (e e' : Z) :
  e' <= e ->
  Zpos (fst (shl_align m e e')) = Zpos m * 2 ^ (e - e').
Proof.
  intros He. unfold shl_align.
  destruct (e' - e) as [|d|d] eqn:Hd; try lia; simpl fst.
  - replace (e - e') with 0 by lia. lia.
  - rewrite iter_xO. f_equal. f_equal. lia.
Qed.

Lemma shr_1_m (r : shr_record) :
  0 <= shr_m r -> shr_m (shr_1 r) = shr_m r / 2.
Proof.
  destruct r as [m rb sb]. simpl. intros Hm.
  destruct m as [|[p|p|]|p]; cbn [shr_1 shr_m]; try reflexivity; try lia.
  - apply Z.div_unique with 1; lia.
  - apply Z.div_unique with 0; lia.
Qed.

Lemma iter_shr_1_m (p : positive) (r : shr_record) :
  0 <= shr_m r ->
  shr_m (iter_pos shr_1 p r) = shr_m r / 2 ^ Zpos p.
Proof.
  revert r. induction p as [p IH|p IH|]; intros r Hr; simpl iter_pos.
  - assert (H1 : 0 <= shr_m (shr_1 r)) by (rewrite shr_1_m by lia; apply Z.div_pos; lia).
    assert (H2 : 0 <= shr_m (iter_pos shr_1 p (shr_1 r)))
      by (rewrite IH by lia; apply Z.div_pos; [lia|apply Z.pow_pos_nonneg; lia]).
    rewrite IH, IH, shr_1_m by lia.
    rewrite !Z.div_div by (try apply Z.pow_pos_nonneg; lia).
    f_equal. rewrite (Pos2Z.inj_xI p).
    replace (2 * Zpos p + 1) with (1 + Zpos p + Zpos p) by lia.
    rewrite !Z.pow_add_r by lia. lia.
  - assert (H2 : 0 <= shr_m (iter_pos shr_1 p r))
      by (rewrite IH by lia; apply Z.div_pos; [lia|apply Z.pow_pos_nonneg; lia]).
    rewrite IH, IH by lia.
    rewrite !Z.div_div by (try apply Z.pow_pos_nonneg; lia).
    f_equal. rewrite (Pos2Z.inj_xO p).
    replace (2 * Zpos p) with (Zpos p + Zpos p) by lia.
    rewrite !Z.pow_add_r by lia. lia.
  - rewrite shr_1_m by lia. reflexivity.
Qed.

Lemma shr_record_of_loc_m (m : Z) (l : location) :
  shr_m (shr_record_of_loc m l) = m.
Proof. destruct l as [|[]]; reflexivity. Qed.

(** Shifting a positive mantissa down to its canonical exponent leaves it
    positive, as long as the exponent is not below [emin]. *)
Lemma shr_fexp_pos (m : positive) (e : Z) (l : location) :
  emin <= e ->
  0 < shr_m (fst (shr_fexp prec emax (Zpos m) e l))
  /\ emin <= snd (shr_fexp prec emax (Zpos m) e l).
Proof.
  intros He. unfold shr_fexp, shr, Zdigits2.
  destruct (fexp prec emax (Zpos (digits2_pos m) + e) - e) as [|n|n] eqn:Hn;
    simpl fst; simpl snd.
  - rewrite shr_record_of_loc_m. lia.
  - split; [|lia].
    rewrite iter_shr_1_m by (rewrite shr_record_of_loc_m; lia).
    rewrite shr_record_of_loc_m.
    assert (Hd := digits2_bounds m).
    apply Z.div_str_pos. split; [apply Z.pow_pos_nonneg; lia|].
    apply Z.le_trans with (2 ^ (Zpos (digits2_pos m) - 1)); [|lia].
    apply Z.pow_le_mono_r; [lia|].
    revert Hn He. unfold fexp, SpecFloat.emin, prec, emax. lia.
  - rewrite shr_record_of_loc_m. lia.
Qed.

Lemma round_nearest_even_pos (m : Z) (l : location) :
  0 < m -> 0 < round_nearest_even m l.
Proof.
  intros Hm. destruct l as [|[]]; simpl; try lia.
  destruct (Z.even m); lia.
Qed.

(** Rounding a positive mantissa never flushes to zero: the result is a
    finite number or an infinity of the given sign. *)
Lemma binary_round_aux_sign (s : bool) (m : positive) (e : Z) (l : location) :
  emin <= e ->
  (exists m' e', binary_round_aux prec emax s (Zpos m) e l = S754_finite s m' e')
  \/ binary_round_aux prec emax s (Zpos m) e l = S754_infinity s.
Proof.
  intros He. unfold binary_round_aux.
  destruct (shr_fexp_pos m e l He) as [H1 H1'].
  destruct (shr_fexp prec emax (Zpos m) e l) as [mrs' e'].
  simpl fst in H1; simpl snd in H1'.
  assert (H2 := round_nearest_even_pos _ (loc_of_shr_record mrs') H1).
  destruct (round_nearest_even (shr_m mrs') (loc_of_shr_record mrs')) as [|m2|m2]; try lia.
  destruct (shr_fexp_pos m2 e' loc_Exact H1') as [H3 _].
  destruct (shr_fexp prec emax (Zpos m2) e' loc_Exact) as [mrs'' e''].
  simpl fst in H3.
  destruct (shr_m mrs'') as [|m3|m3]; try lia.
  destruct (e'' <=? emax - prec); [left; eauto|right; reflexivity].
Qed.

Lemma binary_round_sign (s : bool) (m : positive) (e : Z) :
  emin <= e ->
  (exists m' e', binary_round prec emax s m e = S754_finite s m' e')
  \/ binary_round prec emax s m e = S754_infinity s.
Proof.
  intros He. unfold binary_round.
  destruct (shl_align m e (fexp prec emax (Zpos (digits2_pos m) + e))) as [mz ez] eqn:Hs.
  apply binary_round_aux_sign.
  revert Hs. unfold shl_align.
  destruct (fexp prec emax (Zpos (digits2_pos m) + e) - e) eqn:Hd; intros Hs;
    inversion Hs; subst; try lia.
  unfold fexp. lia.
Qed.

(** What validity says about a finite number. *)
Lemma bounded_inv (m : positive) (e : Z) :
  bounded prec emax m e = true ->
  emin <= e /\ Zpos (digits2_pos m) <= prec
  /\ (emin < e -> Zpos (digits2_pos m) = prec).
Proof.
  unfold bounded, canonical_mantissa, fexp. intros H.
  apply andb_true_iff in H. destruct H as [H _].
  apply Z.eqb_eq in H. lia.
Qed.

(** Two canonical mantissas aligned to the smaller exponent compare like
    the pairs (exponent, mantissa). *)
Lemma aligned_lt (mx my : positive) (ex ey : Z) :
  bounded prec emax mx ex = true ->
  bounded prec emax my ey = true ->
  ex < ey ->
  Zpos mx * 2 ^ (ex - Z.min ex ey) < Zpos my * 2 ^ (ey - Z.min ex ey).
Proof.
  intros Hx Hy Hlt.
  apply bounded_inv in Hx. apply bounded_inv in Hy.
  destruct Hx as (Hx1 & Hx2 & _), Hy as (_ & _ & Hy3).
  rewrite Z.min_l by lia. rewrite Z.sub_diag. simpl (2 ^ 0). rewrite Z.mul_1_r.
  assert (Hdx := digits2_bounds mx). assert (Hdy := digits2_bounds my).
  rewrite Hy3 in Hdy by lia.
  assert (2 ^ Zpos (digits2_pos mx) <= 2 ^ prec) by (apply Z.pow_le_mono_r; lia).
  assert (2 ^ 1 <= 2 ^ (ey - ex)) by (apply Z.pow_le_mono_r; lia).
  change (2 ^ prec) with (2 * 2 ^ (prec - 1)) in *.
  change (2 ^ 1) with 2 in *. nia.
Qed.


(** *** Subtraction of magnitudes *)

Lemma normalize_sign (D e : Z) :
  emin <= e ->
  SFltb (S754_zero false) (binary_normalize prec emax D e false) = (0 <? D).
Proof.
  intros He. destruct D as [|d|d]; simpl binary_normalize.
  - reflexivity.
  - destruct (binary_round_sign false d e He) as [(m' & e' & ->)| ->]; reflexivity.
  - destruct (binary_round_sign true d e He) as [(m' & e' & ->)| ->]; reflexivity.
Qed.

Lemma sub_abs_sign (x y : spec_float) :
  valid_binary x = true -> valid_binary y = true ->
  is_number x -> is_number y ->
  SFltb (S754_zero false) (SF64sub (SFabs y) (SFabs x)) = SFltb (SFabs x) (SFabs y).
Proof.
  unfold is_number.
  destruct x as [sx|sx| |sx mx ex], y as [sy|sy| |sy my ey];
    try congruence; intros Vx Vy _ _; try reflexivity.
  simpl in Vx, Vy. simpl SFabs.
  unfold SF64sub, SFsub, cond_Zopp.
  destruct (bounded_inv _ _ Vx) as (Hx & _), (bounded_inv _ _ Vy) as (Hy & _).
  rewrite normalize_sign by lia.
  rewrite !shl_align_le by lia.
  unfold SFltb, SFcompare. rewrite compare_cont_Eq.
  destruct (Z.compare_spec ex ey) as [E|E|E].
  - subst ey. rewrite Z.min_id, Z.sub_diag. simpl (2 ^ 0).
    destruct (Pos.compare_spec mx my); subst; lia.
  - assert (A := aligned_lt mx my ex ey Vx Vy E).
    rewrite (Z.min_comm ey ex). lia.
  - assert (A := aligned_lt my mx ey ex Vy Vx E). lia.
Qed.

(** *** Multiplication by one *)

Lemma digits2_xO52 (m : positive) :
  Zpos (digits2_pos (m * 4503599627370496)) = Zpos (digits2_pos m) + 52.
Proof.
  rewrite Pos.mul_comm. cbn [Pos.mul digits2_pos].
  rewrite !Pos2Z.inj_succ. lia.
Qed.

Lemma shr_52 (m : positive) :
  iter_pos shr_1 52 (Build_shr_record (Zpos (m * 4503599627370496)) false false)
  = Build_shr_record (Zpos m) false false.
Proof. rewrite Pos.mul_comm. reflexivity. Qed.

(** Multiplying by 1 is exact. *)
Lemma SFmul_one (x : spec_float) :
  valid_binary x = true -> SF64mul x (Prim2SF 1) = x.
Proof.
  change (Prim2SF 1) with (S754_finite false 4503599627370496 (-52)).
  destruct x as [s|s| |s m e]; intros V; simpl in V |- *;
    try reflexivity; try (destruct s; reflexivity).
  destruct (bounded_inv _ _ V) as (He & Hd & Hn).
  apply andb_true_iff in V. destruct V as [Hc Hb].
  unfold canonical_mantissa in Hc. apply Z.eqb_eq in Hc.
  unfold binary_round_aux, shr_fexp, Zdigits2.
  rewrite digits2_xO52.
  replace (Zpos (digits2_pos m) + 52 + (e + -52)) with (Zpos (digits2_pos m) + e) by lia.
  rewrite Hc.
  replace (e - (e + -52)) with 52 by lia.
  cbn [shr_record_of_loc shr]. rewrite shr_52.
  cbn [shr_m loc_of_shr_record round_nearest_even].
  replace (e + -52 + 52) with e by lia.
  rewrite Hc, Z.sub_diag. cbn [shr shr_m shr_record_of_loc].
  rewrite Hb. destruct s; reflexivity.
Qed.

Theorem mul_1_r (x : float) : (x * 1)%float = x.
Proof.
  apply Prim2SF_inj. rewrite mul_spec. apply SFmul_one, Prim2SF_valid.
Qed.

(** The sign of a difference of two magnitudes tells which is larger. *)
Theorem abs_sub_pos (a b : float) :
  is_nan a = false -> is_nan b = false ->
  (0 <? abs b - abs a)%float = (abs a <? abs b)%float.
Proof.
  rewrite !is_nan_false. intros Ha Hb.
  rewrite !ltb_spec, sub_spec, !abs_spec.
  change (Prim2SF 0) with (S754_zero false).
  apply sub_abs_sign; auto using Prim2SF_valid.
Qed.

Local Close Scope Z_scope.

(** *** Zero *)

Lemma eqb_zero_iff (z : float) :
  (z =? 0)%float = true <-> exists s, Prim2SF z = S754_zero s.
Proof.
  rewrite eqb_spec. change (Prim2SF 0) with (S754_zero false).
  destruct (Prim2SF z) as [s|s| |s m e]; simpl; split;
    try discriminate; try (intros [? ?]; discriminate); eauto;
    destruct s; discriminate.
Qed.

Lemma is_finite_inv (x : float) :
  is_finite x = true ->
  (exists s, Prim2SF x = S754_zero s)
  \/ (exists s m e, Prim2SF x = S754_finite s m e).
Proof.
  unfold is_finite, is_nan, is_infinity.
  rewrite negb_true_iff, orb_false_iff, negb_false_iff.
  rewrite !eqb_spec, abs_spec. change (Prim2SF infinity) with (S754_infinity false).
  destruct (Prim2SF x) as [s|s| |s m e]; simpl; intros [H1 H2];
    try discriminate; eauto.
Qed.

Lemma mul_zero_l (z l : float) :
  (z =? 0)%float = true -> is_finite l = true -> (z * l =? 0)%float = true.
Proof.
  rewrite !eqb_zero_iff, mul_spec. intros [s ->] Hl.
  destruct (is_finite_inv l Hl) as [[s' ->]|(s' & m & e & ->)]; simpl; eauto.
Qed.

Lemma div_zero_l (z d : float) :
  (z =? 0)%float = true -> is_nan d = false -> (d =? 0)%float = false ->
  (z / d =? 0)%float = true.
Proof.
  rewrite is_nan_false. intros Hz Hn Hd.
  apply not_true_iff_false in Hd. rewrite eqb_zero_iff in Hd, Hz |- *.
  rewrite div_spec. destruct Hz as [s ->]. unfold is_number in Hn.
  destruct (Prim2SF d) as [s'|s'| |s' m e]; simpl; eauto.
  - exfalso. eauto.
  - congruence.
Qed.

Lemma rank_finite_inj (x : spec_float) (s : bool) (m : positive) (e : Z) :
  is_number x -> rank x = rank (S754_finite s m e) -> x = S754_finite s m e.
Proof.
  unfold is_number.
  destruct x as [sx|sx| |sx mx ex]; try congruence;
    destruct s; try destruct sx; simpl; intros _ E; inversion E; subst;
    try reflexivity.
  f_equal. lia.
Qed.

Lemma sub_eqb_zero (x y : float) :
  (x =? y)%float = true -> is_finite y = true -> (x - y =? 0)%float = true.
Proof.
  intros E Hy. rewrite eqb_zero_iff, sub_spec.
  rewrite eqb_spec, SFeqb_iff in E. destruct E as (Nx & _ & E).
  destruct (is_finite_inv y Hy) as [[s Ey]|(s & m & e & Ey)]; rewrite Ey in *.
  - destruct (Prim2SF x) as [sx|sx| |sx mx ex]; try congruence;
      try (destruct sx; discriminate).
    destruct sx, s; simpl; eauto.
  - rewrite (rank_finite_inj _ _ _ _ Nx E).
    unfold SF64sub, SFsub. rewrite Z.sub_diag. simpl. eauto.
Qed.

(** A truthy number that is not negative is positive. *)
Lemma truthy_not_neg (x : float) :
  JS.truthy x = true -> (x <? 0)%float = false -> (0 <? x)%float = true.
Proof.
  unfold JS.truthy. rewrite andb_true_iff, !negb_true_iff, is_nan_false.
  intros [Hz Hn] Hneg.
  apply not_true_iff_false in Hz. rewrite eqb_zero_iff in Hz.
  rewrite ltb_spec in *. change (Prim2SF 0) with (S754_zero false) in *.
  unfold is_number in Hn.
  destruct (Prim2SF x) as [s|s| |s m e]; try congruence.
  - exfalso. eauto.
  - destruct s; [discriminate Hneg|reflexivity].
  - destruct s; [discriminate Hneg|reflexivity].
Qed.

Lemma truthy_nonzero (x : float) :
  JS.truthy x = true -> (x =? 0)%float = false /\ is_nan x = false.
Proof.
  unfold JS.truthy. rewrite andb_true_iff, !negb_true_iff. tauto.
Qed.

(** * Objects *)

Lemma get_set_same {A} (k : string) (v : A) (o : JS.obj A) :
  JS.get k (JS.set k v o) = Some v.
Proof.
  induction o as [|[k' v'] o IH]; simpl.
  - now rewrite String.eqb_refl.
  - destruct (String.eqb k k') eqn:E; simpl; rewrite E; auto.
Qed.

Lemma get_set_other {A} (k k' : string) (v : A) (o : JS.obj A) :
  k <> k' -> JS.get k (JS.set k' v o) = JS.get k o.
Proof.
  intros N. induction o as [|[k0 v0] o IH]; simpl.
  - apply String.eqb_neq in N. now rewrite N.
  - destruct (String.eqb k' k0) eqn:E; simpl.
    + apply String.eqb_eq in E. subst k0.
      apply String.eqb_neq in N. now rewrite N.
    + now rewrite IH.
Qed.

Lemma get_Some_In {A} (k : string) (v : A) (o : JS.obj A) :
  JS.get k o = Some v -> In (k, v) o.
Proof.
  induction o as [|[k' v'] o IH]; simpl; [discriminate|].
  destruct (String.eqb_spec k k') as [->|N].
  - intros [= ->]. now left.
  - auto.
Qed.

Lemma In_keys_get {A} (k : string) (o : JS.obj A) :
  In k (JS.keys o) <-> exists v, JS.get k o = Some v.
Proof.
  induction o as [|[k' v'] o IH]; simpl.
  - split; [tauto|intros [? ?]; discriminate].
  - destruct (String.eqb_spec k k') as [->|N].
    + split; eauto.
    + rewrite <- IH. split; [intros [?|?]; congruence || auto|auto].
Qed.

(** In an object, a key has one value. *)
Lemma NoDup_keys_unique {A} (o : JS.obj A) (k : string) (v v' : A) :
  NoDup (JS.keys o) -> In (k, v) o -> In (k, v') o -> v = v'.
Proof.
  induction o as [|[k0 v0] o IH]; simpl; [tauto|].
  intros ND. inversion ND as [|? ? Hk ND']; subst.
  assert (F : forall w, In (k0, w) o -> False).
  { intros w Hw. apply Hk. change k0 with (fst (k0, w)). now apply in_map. }
  intros [E1|H1] [E2|H2]; try (inversion E1; subst); try (inversion E2; subst);
    auto; exfalso; eauto.
Qed.

(** * calculateImpacts *)

Section ImpactFacts.

Variable Math_log : float -> float.
Variable normalizedStats : JS.obj float.

Lemma impactStep_get (acc : JS.obj Impact.t) (metric k : string) :
  JS.get k (impactStep Math_log normalizedStats acc metric) =
  if String.eqb k metric then
    match writtenEntry Math_log normalizedStats metric with
    | Some e => Some e
    | None => JS.get k acc
    end
  else JS.get k acc.
Proof.
  unfold impactStep, writtenEntry.
  destruct (String.eqb_spec k metric) as [->|N];
    destruct (JS.get metric normalizedStats);
    destruct (JS.get metric (win RESEARCH_BENCHMARKS)); auto.
  - apply get_set_same.
  - now apply get_set_other.
Qed.

Lemma fold_impactStep_get (ks : list string) (acc : JS.obj Impact.t)
    (k : string) :
  JS.get k (fold_left (impactStep Math_log normalizedStats) ks acc) =
  if existsb (String.eqb k) ks then
    match writtenEntry Math_log normalizedStats k with
    | Some e => Some e
    | None => JS.get k acc
    end
  else JS.get k acc.
Proof.
  revert acc. induction ks as [|m ks IH]; intros acc; simpl; [reflexivity|].
  rewrite IH, impactStep_get.
  destruct (String.eqb_spec k m) as [->|N]; simpl;
    destruct (existsb (String.eqb _) ks); try reflexivity;
    destruct (writtenEntry Math_log normalizedStats m); reflexivity.
Qed.

Lemma calculateImpacts_get (k : string) :
  JS.get k (calculateImpacts Math_log normalizedStats) =
  if existsb (String.eqb k) (JS.keys ODDS_RATIOS)
  then writtenEntry Math_log normalizedStats k else None.
Proof.
  unfold calculateImpacts. rewrite fold_impactStep_get.
  destruct (existsb _ _);
    [destruct (writtenEntry Math_log normalizedStats k)|]; reflexivity.
Qed.

(** The keys of the result are keys of the argument and of [ODDS_RATIOS]. *)
Lemma calculateImpacts_keys (k : string) :
  In k (JS.keys (calculateImpacts Math_log normalizedStats)) ->
  In k (JS.keys normalizedStats) /\ In k (JS.keys ODDS_RATIOS).
Proof.
  rewrite !In_keys_get, calculateImpacts_get. intros [e He].
  destruct (existsb (String.eqb k) (JS.keys ODDS_RATIOS)) eqn:Ex;
    [|discriminate].
  split.
  - unfold writtenEntry in He.
    destruct (JS.get k normalizedStats); [eauto|discriminate].
  - apply In_keys_get. apply existsb_exists in Ex. destruct Ex as (k' & Hk' & E).
    apply String.eqb_eq in E. now subst.
Qed.

End ImpactFacts.

Lemma odds_key_inv (metric : string) (r : float) :
  JS.get metric ODDS_RATIOS = Some r ->
  existsb (String.eqb metric) (JS.keys ODDS_RATIOS) = true
  /\ In r (JS.values ODDS_RATIOS)
  /\ exists b, JS.get metric (win RESEARCH_BENCHMARKS) = Some b
               /\ is_finite b = true.
Proof.
  intros H. assert (Hin := get_Some_In _ _ _ H).
  split; [|split].
  - apply existsb_exists. exists metric. split; [|apply String.eqb_refl].
    apply In_keys_get. eauto.
  - change r with (snd (metric, r)). now apply in_map.
  - unfold ODDS_RATIOS in Hin. simpl in Hin.
    repeat (destruct Hin as [Hin|Hin];
            [inversion Hin; subst; eexists; split; reflexivity|]).
    contradiction.
Qed.

(** C1: for a key present in the normalized statistics and in the table of
    odds ratios, [calculateImpacts] records the value, the winning average,
    their difference as deviation and
    [deviation * ln(oddsRatio) * 100 / ln 2] as impact; when the value
    equals the winning average the impact equals 0 (for a [Math.log] that
    returns finite numbers on the odds ratios and a non-zero number on 2). *)
Theorem calculateImpacts_entry (Math_log : float -> float)
    (normalizedStats : JS.obj float) (metric : string) (v r : float) :
  JS.get metric normalizedStats = Some v ->
  JS.get metric ODDS_RATIOS = Some r ->
  exists b e,
    JS.get metric (win RESEARCH_BENCHMARKS) = Some b
    /\ JS.get metric (calculateImpacts Math_log normalizedStats) = Some e
    /\ Impact.value e = v
    /\ Impact.benchmark e = b
    /\ Impact.oddsRatio e = r
    /\ Impact.deviation e = (v - b)%float
    /\ Impact.impact e
       = (Impact.deviation e * Math_log r * 100 / Math_log 2)%float
    /\ ((forall r', In r' (JS.values ODDS_RATIOS) ->
                    is_finite (Math_log r') = true) ->
        is_nan (Math_log 2%float) = false ->
        (Math_log 2 =? 0)%float = false ->
        (v =? b)%float = true ->
        (Impact.impact e =? 0)%float = true).
Proof.
  intros Hv Hr.
  destruct (odds_key_inv metric r Hr) as (Hk & Hin & b & Hb & Fb).
  exists b. eexists. split; [exact Hb|].
  rewrite calculateImpacts_get, Hk. unfold writtenEntry.
  rewrite Hv, Hb, Hr. simpl JS.num.
  split; [reflexivity|]. simpl.
  repeat (split; [reflexivity|]).
  intros Hfin Hnan Hnz Heq.
  apply div_zero_l; auto.
  apply mul_zero_l; [|reflexivity].
  apply mul_zero_l; [|auto].
  now apply sub_eqb_zero.
Qed.

Lemma calculateImpacts_entry_witness :
  exists e,
    JS.get "kills" (calculateImpacts Math_log_ref
                      (normalizeStats benchmarkStats (Some 3.5%float)))
    = Some e
    /\ (Impact.impact e =? 0)%float = true.
Proof.
  destruct (calculateImpacts_entry Math_log_ref
              (normalizeStats benchmarkStats (Some 3.5%float))
              "kills" 46.9%float 1.255%float eq_refl eq_refl)
    as (b & e & Hb & He & _ & _ & _ & _ & _ & Hz).
  exists e. split; [exact He|].
  injection Hb as <-.
  apply Hz; try reflexivity.
  intros r' Hr'. simpl in Hr'.
  repeat (destruct Hr' as [<-|Hr']; [reflexivity|]). contradiction.
Defined.

(** * normalizeStats *)

(** C2: every field of [normalizeStats stats s] is the raw field times
    [3.5 / s], unclamped; with [s = 3.5] every field is the raw field. *)
Theorem normalizeStats_scale (stats : RawStats) (s : float) :
  normalizeStats stats (Some s) =
    [ ("kills", (totalKills stats * (3.5 / s))%float);
      ("errors", (attackErrors stats * (3.5 / s))%float);
      ("attempts", (killAttempts stats * (3.5 / s))%float);
      ("serviceAces", (serviceAces stats * (3.5 / s))%float);
      ("serviceErrors", (serviceErrors stats * (3.5 / s))%float);
      ("receptionErrors", (receptionErrors stats * (3.5 / s))%float);
      ("digs", (digs stats * (3.5 / s))%float);
      ("soloBlocks", (soloBlocks stats * (3.5 / s))%float);
      ("blockAssists", (blockAssists stats * (3.5 / s))%float) ]
  /\ normalizeStats stats (Some 3.5%float) =
    [ ("kills", totalKills stats);
      ("errors", attackErrors stats);
      ("attempts", killAttempts stats);
      ("serviceAces", serviceAces stats);
      ("serviceErrors", serviceErrors stats);
      ("receptionErrors", receptionErrors stats);
      ("digs", digs stats);
      ("soloBlocks", soloBlocks stats);
      ("blockAssists", blockAssists stats) ].
Proof.
  split; [reflexivity|].
  unfold normalizeStats.
  change (3.5 / 3.5)%float with 1%float.
  now rewrite !mul_1_r.
Qed.

(** * The keys of the impacts *)

(** C9: [normalizeStats] writes exactly nine keys, [calculateImpacts] keeps
    only keys of its argument, so the impacts of [analyzeGame] have exactly
    those nine keys and never [blockErrors], a key of both tables. *)
Theorem impacts_keys (Math_log : float -> float)
    (toFixed : float -> nat -> string) (stats : RawStats) :
  (forall sets, JS.keys (normalizeStats stats sets) = normalizedKeys)
  /\ (forall n k, In k (JS.keys (calculateImpacts Math_log n)) ->
                  In k (JS.keys n))
  /\ JS.keys (impacts (analyzeGame Math_log toFixed stats)) = normalizedKeys
  /\ JS.get "blockErrors" (impacts (analyzeGame Math_log toFixed stats)) = None
  /\ ~ In "blockErrors" (JS.keys (impacts (analyzeGame Math_log toFixed stats)))
  /\ In "blockErrors" (JS.keys ODDS_RATIOS)
  /\ In "blockErrors" (JS.keys (win RESEARCH_BENCHMARKS)).
Proof.
  split; [reflexivity|].
  split; [intros n k H; now apply calculateImpacts_keys in H|].
  split; [reflexivity|].
  split; [reflexivity|].
  split.
  - change (JS.keys (impacts (analyzeGame Math_log toFixed stats)))
      with normalizedKeys.
    unfold normalizedKeys. simpl. intuition discriminate.
  - split; simpl; tauto.
Qed.

(** * The set count *)

(** Where [stats.totalSets || 3] takes the default: for a missing, zero or
    NaN set count; the set count used is never zero nor NaN. *)
Lemma setsUsed_default (stats : RawStats) :
  (totalSets stats = None -> setsUsed stats = 3%float)
  /\ (forall x, totalSets stats = Some x ->
                (x =? 0)%float = true \/ is_nan x = true ->
                setsUsed stats = 3%float)
  /\ (setsUsed stats =? 0)%float = false
  /\ is_nan (setsUsed stats) = false.
Proof.
  unfold setsUsed, JS.or_else.
  split; [intros ->; reflexivity|].
  split.
  { intros x -> H. unfold JS.truthy. destruct H as [-> | ->]; simpl;
      try reflexivity. now rewrite andb_false_r. }
  destruct (totalSets stats) as [x|]; [|repeat split; reflexivity].
  destruct (JS.truthy x) eqn:T; [|repeat split; reflexivity].
  destruct (truthy_nonzero x T) as [Hz Hn].
  repeat split; auto.
Qed.

Lemma negative_truthy (x : float) :
  (x <? 0)%float = true -> JS.truthy x = true.
Proof.
  intros H. unfold JS.truthy.
  assert (N : is_nan x = false).
  { apply is_nan_false. unfold is_number. intros E.
    rewrite ltb_spec, E in H. discriminate. }
  rewrite N, andb_true_r. apply negb_true_iff, not_true_iff_false.
  rewrite eqb_zero_iff. intros [s E]. rewrite ltb_spec, E in H.
  destruct s; discriminate.
Qed.

Lemma negative_not_positive (x : float) :
  (x <? 0)%float = true -> (0 <? x)%float = false.
Proof.
  rewrite !ltb_spec. change (Prim2SF 0) with (S754_zero false).
  destruct (Prim2SF x) as [s|s| |s m e]; try destruct s;
    intros H; try discriminate H; reflexivity.
Qed.

(** C7 fails for a negative set count: [stats.totalSets || 3] tests
    truthiness, not sign, so the negative value is kept where the default 3
    was to be substituted; the set count used is not positive, and the
    normalization runs on it, while the display metrics of the same
    function test [stats.totalSets > 0] and report 0 for every per-set
    rate. *)
Theorem negative_sets_kept (Math_log : float -> float)
    (toFixed : float -> nat -> string) (stats : RawStats) (x : float) :
  totalSets stats = Some x ->
  (x <? 0)%float = true ->
  let r := analyzeGame Math_log toFixed stats in
  setsUsed stats = x
  /\ (0 <? setsUsed stats)%float = false
  /\ normalized r = normalizeStats stats (Some x)
  /\ JS.get "kills" (normalized r)
     = Some (totalKills stats * (3.5 / x))%float
  /\ acesPerSet (metrics r) = 0%float
  /\ blocksPerSet (metrics r) = 0%float
  /\ digsPerSet (metrics r) = 0%float
  /\ receptionErrorRate (metrics r) = 0%float
  /\ attackErrorRate (metrics r) = 0%float.
Proof.
  intros Hx Hneg r.
  assert (Hs : setsUsed stats = x).
  { unfold setsUsed, JS.or_else. rewrite Hx.
    now rewrite (negative_truthy x Hneg). }
  assert (Hp : (0 <? x)%float = false) by now apply negative_not_positive.
  split; [exact Hs|].
  split; [now rewrite Hs|].
  unfold r, analyzeGame; cbn [normalized metrics].
  rewrite Hs. split; [reflexivity|]. split; [reflexivity|].
  unfold displayMetrics, JS.gtb.
  cbn [acesPerSet blocksPerSet digsPerSet receptionErrorRate attackErrorRate].
  rewrite Hx. cbn [JS.num]. rewrite Hp. repeat split.
Qed.

Lemma negative_sets_kept_witness :
  let stats := withSets (Some (-1)%float) exampleStats in
  let r := analyzeGame Math_log_ref Number_toFixed stats in
  setsUsed stats = (-1)%float
  /\ JS.get "kills" (normalized r) = Some (-175)%float
  /\ acesPerSet (metrics r) = 0%float.
Proof.
  intros stats r.
  destruct (negative_sets_kept Math_log_ref Number_toFixed stats (-1)%float)
    as (Hs & _ & _ & Hk & Ha & _); [reflexivity|reflexivity|].
  split; [exact Hs|]. split; [exact Hk|exact Ha].
Defined.

(** * getPerformanceLevel *)

Lemma benchmark_key_inv (metric : string) (w l : float) :
  JS.get metric (win RESEARCH_BENCHMARKS) = Some w ->
  JS.get metric (loss RESEARCH_BENCHMARKS) = Some l ->
  In (metric, (w, l))
     (map (fun k => (k, (JS.num (JS.get k (win RESEARCH_BENCHMARKS)),
                         JS.num (JS.get k (loss RESEARCH_BENCHMARKS)))))
          (JS.keys (win RESEARCH_BENCHMARKS))).
Proof.
  intros Hw Hl.
  apply in_map_iff. exists metric. rewrite Hw, Hl. split; [reflexivity|].
  apply In_keys_get. eauto.
Qed.

Ltac level_facts :=
  repeat match goal with
  | H : (?v =? ?c)%float = true |- _ =>
      let H1 := fresh in let H2 := fresh in
      destruct (eqb_leb _ _ H) as [H1 H2];
      try rewrite H1; try rewrite H2;
      repeat match goal with
      | |- context [(v <=? ?w)%float] =>
          first [ rewrite (ltb_antisym w v (eqb_ltb_r v c w H eq_refl))
                | rewrite (ltb_leb v w (eqb_ltb_l v c w H eq_refl)) ]
      | |- context [(?w <=? v)%float] =>
          first [ rewrite (ltb_antisym v w (eqb_ltb_l v c w H eq_refl))
                | rewrite (ltb_leb w v (eqb_ltb_r v c w H eq_refl)) ]
      end; clear H
  | H : (?a <? ?b)%float = true |- _ =>
      try rewrite (ltb_antisym _ _ H); try rewrite (ltb_leb _ _ H);
      revert H
  end; intros.

(** C6, as the code has it: the label is one of three; a lower-is-better
    metric is excellent up to the winning average and good up to the losing
    average, a higher-is-better one the other way round; a value equal to
    the winning average is excellent; for every metric but [serviceErrors]
    a value equal to the losing average, or strictly between the two, is
    good.  For [serviceErrors] the winning average (16.0) lies above the
    losing one (15.5), so every value up to 16.0 is excellent. *)
Theorem getPerformanceLevel_bands (value : float) (metric : string)
    (w l : float) :
  JS.get metric (win RESEARCH_BENCHMARKS) = Some w ->
  JS.get metric (loss RESEARCH_BENCHMARKS) = Some l ->
  In (getPerformanceLevel value metric)
     ["excellent"; "good"; "needs_improvement"]
  /\ (In metric lowerIsBetter ->
      getPerformanceLevel value metric =
        if (value <=? w)%float then "excellent"
        else if (value <=? l)%float then "good" else "needs_improvement")
  /\ (~ In metric lowerIsBetter ->
      getPerformanceLevel value metric =
        if (w <=? value)%float then "excellent"
        else if (l <=? value)%float then "good" else "needs_improvement")
  /\ ((value =? w)%float = true ->
      getPerformanceLevel value metric = "excellent")
  /\ (metric <> "serviceErrors" ->
      (value =? l)%float = true \/ strictlyBetween value l w ->
      getPerformanceLevel value metric = "good")
  /\ (metric = "serviceErrors" ->
      (value =? l)%float = true \/ strictlyBetween value l w ->
      getPerformanceLevel value metric = "excellent").
Proof.
  intros Hw Hl.
  assert (H := benchmark_key_inv metric w l Hw Hl). clear Hw Hl.
  simpl in H.
  repeat (destruct H as [H|H]; [inversion H; subst; clear H|]);
    try contradiction.
  all: unfold getPerformanceLevel, JS.geb; simpl.
  all: split; [destruct (_ <=? _)%float; [|destruct (_ <=? _)%float];
               simpl; tauto|].
  all: split; [intros Hin; try reflexivity; exfalso; revert Hin;
               simpl; intuition discriminate|].
  all: split; [intros Hin; try reflexivity; exfalso; apply Hin;
               simpl; tauto|].
  all: split; [intros E; level_facts; reflexivity|].
  all: split; intros Hm; try congruence;
       (intros [E|[[B1 B2]|[B1 B2]]];
        [ level_facts; reflexivity
        | try (level_facts; reflexivity);
          exfalso; assert (F := ltb_trans _ _ _ B1 B2); discriminate F
        | try (level_facts; reflexivity);
          exfalso; assert (F := ltb_trans _ _ _ B1 B2); discriminate F ]).
Qed.

Lemma getPerformanceLevel_bands_witness :
  getPerformanceLevel 6.17%float "receptionErrors" = "good"
  /\ getPerformanceLevel 3.71%float "receptionErrors" = "excellent".
Proof.
  destruct (getPerformanceLevel_bands 6.17%float "receptionErrors"
              3.71%float 6.17%float eq_refl eq_refl)
    as (_ & _ & _ & _ & Hgood & _).
  destruct (getPerformanceLevel_bands 3.71%float "receptionErrors"
              3.71%float 6.17%float eq_refl eq_refl)
    as (_ & _ & _ & Hwin & _).
  split.
  - apply Hgood; [discriminate|left; reflexivity].
  - apply Hwin. reflexivity.
Defined.

(** At the losing average of [serviceErrors], and between it and the
    winning average, the label is excellent, not good. *)
Lemma getPerformanceLevel_serviceErrors :
  JS.get "serviceErrors" (loss RESEARCH_BENCHMARKS) = Some 15.5%float
  /\ JS.get "serviceErrors" (win RESEARCH_BENCHMARKS) = Some 16.0%float
  /\ In "serviceErrors" lowerIsBetter
  /\ getPerformanceLevel 15.5%float "serviceErrors" = "excellent"
  /\ getPerformanceLevel 15.5%float "serviceErrors" <> "good"
  /\ strictlyBetween 15.75%float 15.5%float 16.0%float
  /\ getPerformanceLevel 15.75%float "serviceErrors" <> "good".
Proof.
  repeat split; try discriminate.
  - simpl. tauto.
  - left. split; reflexivity.
Qed.

(** * Sorting by absolute impact *)

Lemma insert_perm {A} (cmp : A -> A -> float) (x : A) (l : list A) :
  Permutation (x :: l) (JS.insert cmp x l).
Proof.
  induction l as [|y l IH]; simpl; [reflexivity|].
  destruct (JS.gtb (cmp x y) 0); [|reflexivity].
  rewrite perm_swap. now constructor.
Qed.

Lemma sort_perm {A} (cmp : A -> A -> float) (l : list A) :
  Permutation l (JS.sort cmp l).
Proof.
  induction l as [|x l IH]; simpl; [reflexivity|].
  rewrite <- insert_perm. now constructor.
Qed.

(** On numeric impacts the comparator is positive exactly when its first
    argument has the smaller magnitude. *)
Lemma byAbsImpact_pos (a b : string * Impact.t) :
  numericImpact a -> numericImpact b ->
  JS.gtb (byAbsImpact a b) 0
  = (abs (Impact.impact (snd a)) <? abs (Impact.impact (snd b)))%float.
Proof. intros Ha Hb. unfold JS.gtb, byAbsImpact. now apply abs_sub_pos. Qed.

Lemma descAbs_trans (a b c : string * Impact.t) :
  descAbs a b -> descAbs b c -> descAbs a c.
Proof. unfold descAbs. intros H1 H2. eapply leb_trans; eauto. Qed.

Lemma insert_sorted (x : string * Impact.t) (l : list (string * Impact.t)) :
  numericImpact x -> Forall numericImpact l ->
  StronglySorted descAbs l ->
  StronglySorted descAbs (JS.insert byAbsImpact x l).
Proof.
  intros Hx Hl Hs. induction Hs as [|y l Hs IH Hy]; simpl.
  - repeat constructor.
  - inversion Hl as [|? ? Ny Nl]; subst.
    rewrite byAbsImpact_pos by assumption.
    destruct (abs (Impact.impact (snd x)) <? abs (Impact.impact (snd y)))%float
      eqn:E.
    + constructor; [auto|].
      eapply Permutation_Forall; [apply insert_perm|].
      constructor; [|assumption].
      now apply ltb_leb.
    + assert (Hxy : descAbs x y).
      { apply ltb_false_leb; auto; now apply abs_is_nan. }
      constructor; [now constructor|].
      constructor; [assumption|].
      eapply Forall_impl; [|exact Hy].
      intros z Hz. eapply descAbs_trans; eauto.
Qed.

Lemma sort_sorted (l : list (string * Impact.t)) :
  Forall numericImpact l -> StronglySorted descAbs (JS.sort byAbsImpact l).
Proof.
  induction 1 as [|x l Hx Hl IH]; simpl; [constructor|].
  apply insert_sorted; auto.
  eapply Permutation_Forall; [apply sort_perm|assumption].
Qed.

Lemma In_firstn {A} (n : nat) (l : list A) (x : A) :
  In x (firstn n l) -> In x l.
Proof.
  revert l. induction n as [|n IH]; intros [|y l]; simpl; try tauto.
  intros [?|?]; auto.
Qed.

(** * generateRecommendations *)

Lemma weakness_not_strength (x : float) :
  (x <? -1)%float = true -> (1 <? x)%float = true -> False.
Proof. intros H1 H2. assert (F := ltb_trans _ _ _ H2 H1). discriminate F. Qed.

Lemma weakness_source (impacts : JS.obj Impact.t) (m : string) :
  In m (map Weakness.metric (weaknesses (generateRecommendations impacts))) ->
  exists d, In (m, d) impacts /\ isWeakness (m, d) = true.
Proof.
  unfold generateRecommendations, JS.slice0; cbn [weaknesses strengths].
  rewrite map_map.
  intros H. apply in_map_iff in H. destruct H as ([k d] & <- & H).
  apply In_firstn, filter_In in H. destruct H as [H W].
  exists d. split; [|exact W].
  eapply Permutation_in; [symmetry; apply sort_perm|exact H].
Qed.

Lemma strength_source (impacts : JS.obj Impact.t) (m : string) :
  In m (map Strength.metric (strengths (generateRecommendations impacts))) ->
  exists d, In (m, d) impacts /\ isStrength (m, d) = true.
Proof.
  unfold generateRecommendations, JS.slice0; cbn [weaknesses strengths].
  rewrite map_map.
  intros H. apply in_map_iff in H. destruct H as ([k d] & <- & H).
  apply In_firstn, filter_In in H. destruct H as [H W].
  exists d. split; [|exact W].
  eapply Permutation_in; [symmetry; apply sort_perm|exact H].
Qed.

Lemma firstn_In_or_full {A} (n : nat) (l : list A) (x : A) :
  In x l -> In x (firstn n l) \/ List.length (firstn n l) = n.
Proof.
  intros H. rewrite <- (firstn_skipn n l) in H. apply in_app_or in H.
  destruct H as [H|H]; [now left|right].
  apply firstn_length_le.
  destruct (Nat.le_gt_cases n (List.length l)) as [L|L]; [exact L|].
  rewrite skipn_all2 in H by lia. contradiction.
Qed.

(** In a sorted list any two entries are related one way or the other. *)
Lemma StronglySorted_related {A} (R : A -> A -> Prop) (l : list A) (x y : A) :
  StronglySorted R l -> In x l -> In y l -> x = y \/ R x y \/ R y x.
Proof.
  induction 1 as [|a l Hs IH Ha]; intros Hx Hy; [contradiction|].
  rewrite Forall_forall in Ha.
  destruct Hx as [<-|Hx], Hy as [<-|Hy]; auto.
Qed.

(** C3, as the code has it: the full list is a permutation of the entries,
    in descending absolute impact whenever no impact is NaN; the weaknesses
    are the first 3 at most of its entries with impact below -1, the
    strengths the first 2 at most with impact above 1: every listed entry
    passes its threshold, an entry that passes it is left out only when the
    list is full; hence at most 3 and 2 of them, and no metric in both. *)
Theorem generateRecommendations_ranking (impacts : JS.obj Impact.t) :
  NoDup (JS.keys impacts) ->
  let r := generateRecommendations impacts in
  let below (e : string * Impact.t) := (Impact.impact (snd e) <? -1)%float in
  let above (e : string * Impact.t) := (1 <? Impact.impact (snd e))%float in
  Permutation (JS.entries impacts) (allImpacts r)
  /\ (Forall numericImpact impacts -> StronglySorted descAbs (allImpacts r))
  /\ weaknesses r = map toWeakness (firstn 3 (filter below (allImpacts r)))
  /\ strengths r = map toStrength (firstn 2 (filter above (allImpacts r)))
  /\ (forall w, In w (weaknesses r) ->
        (Weakness.impact w <? -1)%float = true)
  /\ (forall s, In s (strengths r) ->
        (1 <? Strength.impact s)%float = true)
  /\ (forall e, In e (JS.entries impacts) -> below e = true ->
        In (toWeakness e) (weaknesses r)
        \/ List.length (weaknesses r) = 3%nat)
  /\ (forall e, In e (JS.entries impacts) -> above e = true ->
        In (toStrength e) (strengths r)
        \/ List.length (strengths r) = 2%nat)
  /\ List.length (weaknesses r) <= 3
  /\ List.length (strengths r) <= 2
  /\ (forall m, In m (map Weakness.metric (weaknesses r)) ->
                In m (map Strength.metric (strengths r)) -> False).
Proof.
  intros ND r below above.
  split; [apply sort_perm|].
  split; [apply sort_sorted|].
  split; [reflexivity|].
  split; [reflexivity|].
  split.
  { unfold r, generateRecommendations, JS.slice0; cbn [weaknesses].
    intros w Hw. apply in_map_iff in Hw. destruct Hw as ([m d] & <- & Hw).
    apply In_firstn, filter_In in Hw. exact (proj2 Hw). }
  split.
  { unfold r, generateRecommendations, JS.slice0; cbn [strengths].
    intros s Hs. apply in_map_iff in Hs. destruct Hs as ([m d] & <- & Hs).
    apply In_firstn, filter_In in Hs. exact (proj2 Hs). }
  split.
  { unfold r, generateRecommendations, JS.slice0; cbn [weaknesses].
    intros e He Hb. rewrite length_map.
    destruct (firstn_In_or_full 3
                (filter isWeakness (JS.sort byAbsImpact (JS.entries impacts)))
                e) as [H|H]; [|left; now apply in_map|now right].
    apply filter_In. split; [|exact Hb].
    eapply Permutation_in; [apply sort_perm|exact He]. }
  split.
  { unfold r, generateRecommendations, JS.slice0; cbn [strengths].
    intros e He Ha. rewrite length_map.
    destruct (firstn_In_or_full 2
                (filter isStrength (JS.sort byAbsImpact (JS.entries impacts)))
                e) as [H|H]; [|left; now apply in_map|now right].
    apply filter_In. split; [|exact Ha].
    eapply Permutation_in; [apply sort_perm|exact He]. }
  split; [unfold r, generateRecommendations, JS.slice0; cbn [weaknesses strengths];
          rewrite length_map; apply firstn_le_length|].
  split; [unfold r, generateRecommendations, JS.slice0; cbn [weaknesses strengths];
          rewrite length_map; apply firstn_le_length|].
  intros m Hw Hs.
  apply weakness_source in Hw. destruct Hw as (d & Hd & W).
  apply strength_source in Hs. destruct Hs as (d' & Hd' & S).
  assert (d = d') by (eapply NoDup_keys_unique; eauto). subst d'.
  eapply weakness_not_strength; [exact W|exact S].
Qed.

Lemma normalizedKeys_NoDup : NoDup normalizedKeys.
Proof.
  unfold normalizedKeys.
  repeat (constructor; [simpl; intuition discriminate|]). constructor.
Qed.

Lemma generateRecommendations_ranking_witness :
  let impacts :=
    impacts (analyzeGame Math_log_ref Number_toFixed exampleStats) in
  let r := generateRecommendations impacts in
  NoDup (JS.keys impacts)
  /\ StronglySorted descAbs (allImpacts r)
  /\ map Weakness.metric (weaknesses r) = ["attempts"]
  /\ map Strength.metric (strengths r) = ["kills"; "digs"]
  /\ Forall (fun w => (Weakness.impact w <? -1)%float = true) (weaknesses r)
  /\ Forall (fun s => (1 <? Strength.impact s)%float = true) (strengths r).
Proof.
  intros impacts r.
  assert (ND : NoDup (JS.keys impacts)) by exact normalizedKeys_NoDup.
  destruct (generateRecommendations_ranking impacts ND)
    as (_ & Hsorted & _ & _ & Hw & Hs & _).
  split; [exact ND|].
  split; [apply Hsorted; repeat constructor|].
  split; [reflexivity|].
  split; [reflexivity|].
  split; apply Forall_forall; assumption.
Defined.

(** With a NaN impact the comparator answers NaN, which counts as a tie:
    the list is left as it stands, the entry with impact 9 after the one
    with impact 2, and the first two entries above 1 are taken as
    strengths although the entry left out has the larger impact.  No order of
    these entries descends in absolute impact, whatever the sort does. *)
Lemma ranking_with_nan :
  let entry i := {| Impact.value := 0; Impact.benchmark := 0;
                    Impact.deviation := 0; Impact.impact := i;
                    Impact.oddsRatio := 1 |} in
  let impacts :=
    [("kills", entry 2%float); ("errors", entry nan);
     ("digs", entry 9%float); ("soloBlocks", entry 7%float)] in
  let r := generateRecommendations impacts in
  NoDup (JS.keys impacts)
  /\ map fst (allImpacts r) = ["kills"; "errors"; "digs"; "soloBlocks"]
  /\ ~ StronglySorted descAbs (allImpacts r)
  /\ map Strength.metric (strengths r) = ["kills"; "digs"]
  /\ (forall l, Permutation (JS.entries impacts) l ->
                ~ StronglySorted descAbs l).
Proof.
  intros entry impacts r.
  assert (G : forall l, Permutation (JS.entries impacts) l ->
                        ~ StronglySorted descAbs l).
  { intros l Hp Hs.
    destruct (StronglySorted_related descAbs l
                ("kills", entry 2%float) ("errors", entry nan) Hs)
      as [H|[H|H]]; try discriminate H.
    - eapply Permutation_in; [exact Hp|]. simpl. tauto.
    - eapply Permutation_in; [exact Hp|]. simpl. tauto. }
  split; [repeat (constructor; [simpl; intuition discriminate|]);
          constructor|].
  split; [reflexivity|].
  split; [apply G, sort_perm|].
  split; [reflexivity|exact G].
Qed.

(** * generateInsightsText *)

Section NarrativeFacts.

Variable toFixed : float -> nat -> string.

Lemma priorityLines_plain (index : nat) (w : Weakness.t) :
  Forall plainLine (priorityLines toFixed index w).
Proof. repeat constructor. Qed.

Lemma prioritiesFrom_plain (index : nat) (ws : list Weakness.t) :
  Forall plainLine (prioritiesFrom toFixed index ws).
Proof.
  revert index. induction ws as [|w ws IH]; intros index; cbn [prioritiesFrom].
  - constructor.
  - apply Forall_app. split; [apply priorityLines_plain|apply IH].
Qed.

Lemma prioritiesBlock_plain (ws : list Weakness.t) :
  Forall plainLine (prioritiesBlock toFixed ws).
Proof.
  destruct ws as [|w ws]; cbn [prioritiesBlock]; constructor.
  - reflexivity.
  - apply (prioritiesFrom_plain 0 (w :: ws)).
Qed.

Lemma strengthsBlock_plain (ss : list Strength.t) :
  Forall plainLine (strengthsBlock toFixed ss).
Proof.
  destruct ss as [|s ss]; [constructor|].
  unfold strengthsBlock. constructor; [reflexivity|].
  induction (s :: ss) as [|s' ss' IH]; cbn [flat_map]; [constructor|].
  apply Forall_app. split; [repeat constructor|exact IH].
Qed.

Lemma summaryLine_plain (impacts : JS.obj Impact.t) :
  plainLine (summaryLine impacts).
Proof.
  unfold summaryLine.
  destruct (JS.gtb _ 5); [reflexivity|].
  destruct (_ <? -5)%float; reflexivity.
Qed.

(** The bullet lines of the narrative are the research findings and what
    the practice-focus block pushes after its header. *)
Lemma insightsLines_bullets (stats : RawStats) (impacts : JS.obj Impact.t)
    (recs : Recommendations) (line : string) :
  In line (insightsLines toFixed stats impacts recs) ->
  isBulletLine line = true ->
  In line findingsBlock \/ In line (practiceFocusBullets (weaknesses recs)).
Proof.
  unfold insightsLines. intros H B.
  assert (P : forall l, Forall plainLine l -> In line l -> False).
  { intros l F Hl. rewrite Forall_forall in F. specialize (F _ Hl).
    unfold plainLine in F. congruence. }
  repeat (apply in_app_or in H; destruct H as [H|H]); auto.
  - exfalso. apply (P [analysisHeader]); [repeat constructor|exact H].
  - exfalso. apply (P [summaryLine impacts]); [|exact H].
    constructor; [apply summaryLine_plain|constructor].
  - exfalso. exact (P _ (prioritiesBlock_plain _) H).
  - exfalso. exact (P _ (strengthsBlock_plain _) H).
  - exfalso. apply (P [practiceFocusHeader]); [repeat constructor|exact H].
Qed.

(** The header of the practice-focus block is pushed on every path. *)
Lemma practiceFocusHeader_pushed (stats : RawStats)
    (impacts : JS.obj Impact.t) (recs : Recommendations) :
  exists before,
    before <> []
    /\ insightsLines toFixed stats impacts recs
       = (before ++ [practiceFocusHeader]
          ++ practiceFocusBullets (weaknesses recs))%list.
Proof.
  unfold insightsLines.
  exists ([analysisHeader] ++ [summaryLine impacts]
          ++ prioritiesBlock toFixed (weaknesses recs)
          ++ strengthsBlock toFixed (strengths recs) ++ findingsBlock)%list.
  split; [discriminate|].
  now rewrite <- !app_assoc.
Qed.

End NarrativeFacts.

Lemma drills_are_bullets (d : string) :
  In d allDrills -> isBulletLine d = true /\ ~ In d findingsBlock.
Proof.
  intros H.
  assert (C : forallb (fun d => isBulletLine d
                                && negb (existsb (String.eqb d) findingsBlock))
                      allDrills = true) by reflexivity.
  rewrite forallb_forall in C. specialize (C d H).
  apply andb_true_iff in C. destruct C as [C1 C2]. split; [exact C1|].
  intros Hin. apply negb_true_iff in C2.
  assert (E : existsb (String.eqb d) findingsBlock = true).
  { apply existsb_exists. exists d. split; [exact Hin|apply String.eqb_refl]. }
  congruence.
Qed.

Lemma append_assoc (a b c : string) : (a ++ b) ++ c = a ++ (b ++ c).
Proof. induction a as [|ch a IH]; simpl; [reflexivity|now rewrite IH]. Qed.

Lemma join_last (sep : string) (l : list string) (x : string) :
  l <> [] -> JS.join sep (l ++ [x]) = JS.join sep l ++ sep ++ x.
Proof.
  unfold JS.join. induction l as [|a l IH]; [congruence|]. intros _.
  destruct l as [|b l]; [reflexivity|].
  change (String.concat sep ((a :: b :: l) ++ [x]))
    with (a ++ sep ++ String.concat sep ((b :: l) ++ [x])).
  rewrite IH by discriminate.
  change (String.concat sep (a :: b :: l))
    with (a ++ sep ++ String.concat sep (b :: l)).
  now rewrite !append_assoc.
Qed.

(** C10: when the top-ranked weakness is [kills] or [serviceErrors], none of
    the six branches pushes anything: the narrative ends with the
    practice-focus header and none of the drill bullets is among its
    lines. *)
Theorem practiceFocus_unmatched (Math_log : float -> float)
    (toFixed : float -> nat -> string) (stats : RawStats)
    (w : Weakness.t) (ws : list Weakness.t) :
  let r := analyzeGame Math_log toFixed stats in
  let lines :=
    insightsLines toFixed stats (impacts r) (recommendations r) in
  weaknesses (recommendations r) = w :: ws ->
  Weakness.metric w = "kills" \/ Weakness.metric w = "serviceErrors" ->
  insightsText r = JS.join JS.nl lines
  /\ drillsFor (Weakness.metric w) = []
  /\ In practiceFocusHeader lines
  /\ (exists before, lines = (before ++ [practiceFocusHeader])%list)
  /\ (exists text, insightsText r = text ++ JS.nl ++ practiceFocusHeader)
  /\ (forall d, In d allDrills -> ~ In d lines).
Proof.
  intros r lines Hw Hm.
  assert (Hd : drillsFor (Weakness.metric w) = [])
    by (destruct Hm as [-> | ->]; reflexivity).
  assert (Hb : practiceFocusBullets (weaknesses (recommendations r)) = [])
    by (rewrite Hw; exact Hd).
  destruct (practiceFocusHeader_pushed toFixed stats (impacts r)
              (recommendations r)) as (before & Hne & Hl).
  fold lines in Hl. rewrite Hb in Hl.
  split; [reflexivity|]. split; [exact Hd|].
  split; [rewrite Hl; apply in_or_app; right; now left|].
  split; [now exists before|].
  split.
  - exists (JS.join JS.nl before).
    change (insightsText r) with (JS.join JS.nl lines).
    rewrite Hl. now apply join_last.
  - intros d Hdrill Hin.
    destruct (drills_are_bullets d Hdrill) as [B NF].
    destruct (insightsLines_bullets toFixed stats _ _ d Hin B) as [F|F].
    + contradiction.
    + rewrite Hb in F. contradiction.
Qed.

Lemma practiceFocus_unmatched_witness :
  (exists text,
     insightsText (analyzeGame Math_log_ref Number_toFixed
                     (withKills 20 exampleStats))
     = text ++ JS.nl ++ practiceFocusHeader)
  /\ (exists text,
        insightsText (analyzeGame Math_log_ref Number_toFixed
                        serviceErrorStats)
        = text ++ JS.nl ++ practiceFocusHeader).
Proof.
  split.
  - edestruct (practiceFocus_unmatched Math_log_ref Number_toFixed
                 (withKills 20 exampleStats)) as (_ & _ & _ & _ & H & _);
      [reflexivity|left; reflexivity|exact H].
  - edestruct (practiceFocus_unmatched Math_log_ref Number_toFixed
                 serviceErrorStats) as (_ & _ & _ & _ & H & _);
      [reflexivity|right; reflexivity|exact H].
Defined.

(** C4, evaluated: on a tally whose impacts all lie strictly between -1
    and 1 there is no weakness, yet the narrative still carries the
    practice-focus header, as its last line. *)
Theorem emptyWeakness_keeps_header :
  let r := analyzeGame Math_log_ref Number_toFixed tallyStats in
  Forall (fun e => (-1 <? Impact.impact (snd e))%float = true
                   /\ (Impact.impact (snd e) <? 1)%float = true)
         (impacts r)
  /\ weaknesses (recommendations r) = []
  /\ In practiceFocusHeader
        (insightsLines Number_toFixed tallyStats (impacts r)
           (recommendations r))
  /\ JS.includes "Recommended Practice Focus" (insightsText r) = true
  /\ (exists text, insightsText r = text ++ JS.nl ++ practiceFocusHeader).
Proof.
  intros r.
  split; [repeat constructor|].
  split; [reflexivity|].
  destruct (practiceFocusHeader_pushed Number_toFixed tallyStats
              (impacts r) (recommendations r)) as (before & Hne & Hl).
  change (practiceFocusBullets (weaknesses (recommendations r)))
    with (@nil string) in Hl.
  split; [rewrite Hl; apply in_or_app; right; now left|].
  split; [vm_compute; reflexivity|].
  exists (JS.join JS.nl before).
  change (insightsText r)
    with (JS.join JS.nl (insightsLines Number_toFixed tallyStats
                           (impacts r) (recommendations r))).
  rewrite Hl. now apply join_last.
Qed.

(** * The worked example *)

(** C5, as the code has it: on the example input the kill efficiency is 50,
    the normalized service aces are [8 * (3.5 / 3)], their impact is
    positive and passes the strength filter, but the strengths keep only the
    two entries of largest impact, kills and digs: service aces rank third
    among the entries above +1 and are not in the list. *)
Theorem example_analysis (toFixed : float -> nat -> string) :
  let r := analyzeGame Math_log_ref toFixed exampleStats in
  killEfficiency (metrics r) = 50%float
  /\ JS.get "serviceAces" (normalized r) = Some (8 * (3.5 / 3))%float
  /\ (0 <? impactAt "serviceAces" (impacts r))%float = true
  /\ (1 <? impactAt "serviceAces" (impacts r))%float = true
  /\ map fst (filter isStrength (allImpacts (recommendations r)))
     = [ "kills"; "digs"; "serviceAces"; "blockAssists"; "receptionErrors";
         "soloBlocks"; "errors"; "serviceErrors" ]
  /\ map Strength.metric (strengths (recommendations r)) = ["kills"; "digs"]
  /\ map Weakness.metric (weaknesses (recommendations r)) = ["attempts"].
Proof. intros r. repeat split; vm_compute; reflexivity. Qed.

(** On the example input [serviceAces] is not among the strengths. *)
Lemma example_serviceAces_not_strength :
  let r := analyzeGame Math_log_ref Number_toFixed exampleStats in
  (1 <? impactAt "serviceAces" (impacts r))%float = true
  /\ ~ In "serviceAces"
          (map Strength.metric (strengths (recommendations r))).
Proof.
  intros r. split; [reflexivity|].
  change (map Strength.metric (strengths (recommendations r)))
    with ["kills"; "digs"].
  simpl. intuition discriminate.
Qed.

(** * The impact as a formula *)

(** The impact of a key depends on its own raw count and the set count
    only. *)
Lemma impactAt_formula (Math_log : float -> float)
    (toFixed : float -> nat -> string) (stats : RawStats) (metric : string) :
  In metric normalizedKeys ->
  impactAt metric (impacts (analyzeGame Math_log toFixed stats))
  = impactFormula Math_log metric (rawOf metric stats) (setsUsed stats).
Proof.
  unfold normalizedKeys. simpl.
  intros H. repeat (destruct H as [<-|H]; [reflexivity|]). contradiction.
Qed.

(** * Signs and numbers

    What the sign of a product, a quotient and a difference is, and when
    an operation returns a number. *)

Local Open Scope Z_scope.

Lemma iter_shr_1_nonneg (p : positive) (r : shr_record) :
  0 <= shr_m r -> 0 <= shr_m (iter_pos shr_1 p r).
Proof.
  intros H. rewrite iter_shr_1_m by assumption.
  apply Z.div_pos; [assumption|apply Z.pow_pos_nonneg; lia].
Qed.

Lemma shr_fexp_nonneg (m e : Z) (l : location) :
  0 <= m -> 0 <= shr_m (fst (shr_fexp prec emax m e l)).
Proof.
  intros H. unfold shr_fexp, shr.
  destruct (fexp prec emax (Zdigits2 m + e) - e) as [|n|n]; simpl fst;
    try (rewrite shr_record_of_loc_m; assumption).
  apply iter_shr_1_nonneg. now rewrite shr_record_of_loc_m.
Qed.

Lemma round_nearest_even_nonneg (m : Z) (l : location) :
  0 <= m -> 0 <= round_nearest_even m l.
Proof.
  intros Hm. destruct l as [|[]]; simpl; try lia.
  destruct (Z.even m); lia.
Qed.

(** Rounding a mantissa that is not negative gives a number of the given
    sign. *)
Lemma binary_round_aux_signed (s : bool) (m e : Z) (l : location) :
  0 <= m -> signed s (binary_round_aux prec emax s m e l).
Proof.
  intros Hm. unfold binary_round_aux.
  assert (H1 := shr_fexp_nonneg m e l Hm).
  destruct (shr_fexp prec emax m e l) as [mrs' e']. simpl fst in H1.
  assert (H2 := round_nearest_even_nonneg _ (loc_of_shr_record mrs') H1).
  assert (H3 := shr_fexp_nonneg _ e' loc_Exact H2).
  destruct (shr_fexp prec emax _ e' loc_Exact) as [mrs'' e''].
  simpl fst in H3.
  destruct (shr_m mrs'') as [|m3|m3]; try lia; simpl; auto.
  destruct (e'' <=? _); simpl; auto.
Qed.

Lemma binary_round_signed (s : bool) (m : positive) (e : Z) :
  signed s (binary_round prec emax s m e).
Proof.
  unfold binary_round.
  destruct (shl_align m e _) as [mz ez].
  apply binary_round_aux_signed. lia.
Qed.

Lemma binary_normalize_signed (m e : Z) :
  (0 <= m -> signed false (binary_normalize prec emax m e false))
  /\ (m <= 0 -> signed true (binary_normalize prec emax m e false)).
Proof.
  destruct m as [|p|p]; simpl; split; intros H; try lia; auto;
    apply binary_round_signed.
Qed.

Lemma SFmul_signed (x y : spec_float) (sx sy : bool) (my : positive) (ey : Z) :
  y = S754_finite sy my ey -> signed sx x ->
  signed (xorb sx sy) (SF64mul x y).
Proof.
  intros -> Hx. destruct x as [s|s| |s m e]; simpl in Hx |- *;
    try contradiction; subst; auto.
  apply binary_round_aux_signed. lia.
Qed.

Lemma div_core_nonneg (m1 m2 : positive) (e1 e2 : Z) :
  0 <= fst (fst (SFdiv_core_binary prec emax (Zpos m1) e1 (Zpos m2) e2)).
Proof.
  unfold SFdiv_core_binary.
  set (s := _ - _ - _).
  set (m' := match s with Z0 => _ | Zpos _ => _ | Zneg _ => _ end).
  assert (Hm' : 0 <= m').
  { unfold m'. destruct s; try lia. apply Z.shiftl_nonneg. lia. }
  assert (H := Z.div_eucl_eq m' (Zpos m2) ltac:(lia)).
  assert (Hq : 0 <= m' / Zpos m2) by (apply Z.div_pos; lia).
  unfold Z.div in Hq.
  destruct (Z.div_eucl m' (Zpos m2)) as [q r]. simpl in *. exact Hq.
Qed.

Lemma SFdiv_signed (x y : spec_float) (sx sy : bool) (my : positive) (ey : Z) :
  y = S754_finite sy my ey -> signed sx x ->
  signed (xorb sx sy) (SF64div x y).
Proof.
  intros -> Hx. destruct x as [s|s| |s m e]; simpl in Hx |- *;
    try contradiction; subst; auto.
  assert (H := div_core_nonneg m my e ey).
  destruct (SFdiv_core_binary prec emax (Zpos m) e (Zpos my) ey) as [[mz ez] lz].
  simpl in H. now apply binary_round_aux_signed.
Qed.

Lemma aligned_le (m1 m2 : positive) (e1 e2 : Z) :
  bounded prec emax m1 e1 = true ->
  bounded prec emax m2 e2 = true ->
  e1 < e2 \/ (e1 = e2 /\ Zpos m1 <= Zpos m2) ->
  Zpos m1 * 2 ^ (e1 - Z.min e1 e2) <= Zpos m2 * 2 ^ (e2 - Z.min e1 e2).
Proof.
  intros B1 B2 [H|[-> H]].
  - apply Z.lt_le_incl. now apply aligned_lt.
  - rewrite Z.min_id, Z.sub_diag. simpl (2 ^ 0). lia.
Qed.

Lemma finite_leb_inv (s1 s2 : bool) (m1 m2 : positive) (e1 e2 : Z) :
  SFleb (S754_finite s1 m1 e1) (S754_finite s2 m2 e2) = true ->
  match s1, s2 with
  | true, false => True
  | false, true => False
  | false, false => e1 < e2 \/ (e1 = e2 /\ Zpos m1 <= Zpos m2)
  | true, true => e2 < e1 \/ (e2 = e1 /\ Zpos m2 <= Zpos m1)
  end.
Proof.
  rewrite SFleb_iff. intros (_ & _ & H).
  destruct s1, s2; simpl in H; auto;
    destruct H as [H|H]; try (inversion H; subst); lia.
Qed.

(** The difference of two ordered numbers, one of them finite, has the sign
    of the order. *)
Lemma SFsub_ordered (x y : spec_float) :
  valid_binary x = true -> valid_binary y = true ->
  (exists s m e, x = S754_finite s m e)
  \/ (exists s m e, y = S754_finite s m e) ->
  SFleb x y = true ->
  signed false (SF64sub y x) /\ signed true (SF64sub x y).
Proof.
  intros Vx Vy F L.
  destruct x as [sx|sx| |sx mx ex], y as [sy|sy| |sy my ey];
    try discriminate L;
    try (destruct F as [(? & ? & ? & F)|(? & ? & ? & F)]; discriminate F);
    clear F.
  - (* zero, finite *)
    destruct sy; [discriminate L|]. simpl. destruct sx; auto.
  - (* infinity, finite *)
    destruct sx; [|discriminate L]. simpl. auto.
  - (* finite, zero *)
    destruct sx; [|discriminate L]. simpl. destruct sy; auto.
  - (* finite, infinity *)
    destruct sy; [discriminate L|]. simpl. auto.
  - (* finite, finite *)
    simpl in Vx, Vy. apply finite_leb_inv in L.
    unfold SF64sub, SFsub.
    destruct (bounded_inv _ _ Vx) as (Hx & _), (bounded_inv _ _ Vy) as (Hy & _).
    rewrite !shl_align_le by lia.
    assert (A := aligned_le mx my ex ey Vx Vy).
    assert (A' := aligned_le my mx ey ex Vy Vx).
    rewrite (Z.min_comm ey ex) in *.
    assert (Px : 0 < Zpos mx * 2 ^ (ex - Z.min ex ey))
      by (apply Z.mul_pos_pos; [lia|apply Z.pow_pos_nonneg; lia]).
    assert (Py : 0 < Zpos my * 2 ^ (ey - Z.min ex ey))
      by (apply Z.mul_pos_pos; [lia|apply Z.pow_pos_nonneg; lia]).
    split.
    + apply binary_normalize_signed.
      destruct sx, sy; cbv [cond_Zopp]; try contradiction;
        try (specialize (A L)); try (specialize (A' L)); lia.
    + apply binary_normalize_signed.
      destruct sx, sy; cbv [cond_Zopp]; try contradiction;
        try (specialize (A L)); try (specialize (A' L)); lia.
Qed.

Lemma SFadd_number (x y : spec_float) :
  (exists s m e, x = S754_finite s m e) \/ (exists s, x = S754_zero s) ->
  (exists s m e, y = S754_finite s m e) \/ (exists s, y = S754_zero s) ->
  is_number (SF64add x y).
Proof.
  unfold is_number.
  intros [(sx & mx & ex & ->)|(sx & ->)] [(sy & my & ey & ->)|(sy & ->)];
    simpl; try discriminate; try (destruct sx, sy; discriminate).
  set (D := (_ + _)%Z).
  destruct (binary_normalize_signed D (Z.min ex ey)) as [P N].
  destruct (Z.le_ge_cases 0 D) as [H|H].
  - specialize (P H). destruct (binary_normalize _ _ _ _ _); simpl in P;
      try contradiction; discriminate.
  - specialize (N H). destruct (binary_normalize _ _ _ _ _); simpl in N;
      try contradiction; discriminate.
Qed.

Local Close Scope Z_scope.

(** *** The same facts on floats *)

Lemma is_nan_true (x : float) : is_nan x = true <-> Prim2SF x = S754_nan.
Proof.
  split; intros H.
  - destruct (number_dec (Prim2SF x)) as [N|E]; [|exact E].
    apply is_nan_false in N. congruence.
  - apply not_false_iff_true. rewrite is_nan_false, H. unfold is_number.
    congruence.
Qed.

Lemma signed_number (s : bool) (x : float) :
  signed s (Prim2SF x) -> is_nan x = false.
Proof.
  intros H. apply is_nan_false. unfold is_number. intros E.
  rewrite E in H. exact H.
Qed.

Lemma finite_sign_inv (l : float) :
  is_finite l = true ->
  ((0 <? l)%float = true -> exists m e, Prim2SF l = S754_finite false m e)
  /\ ((l <? 0)%float = true -> exists m e, Prim2SF l = S754_finite true m e).
Proof.
  intros F. rewrite !ltb_spec. change (Prim2SF 0) with (S754_zero false).
  destruct (is_finite_inv l F) as [[s ->]|(s & m & e & ->)].
  - split; discriminate.
  - destruct s; split; try discriminate; eauto.
Qed.

Lemma finite_nonzero_inv (l : float) :
  is_finite l = true -> (l =? 0)%float = false ->
  exists s m e, Prim2SF l = S754_finite s m e.
Proof.
  intros F Z. destruct (is_finite_inv l F) as [E|E]; [|exact E].
  apply eqb_zero_iff in E. congruence.
Qed.

Lemma mul_signed (x l : float) (sx sl : bool) (m : positive) (e : Z) :
  Prim2SF l = S754_finite sl m e -> signed sx (Prim2SF x) ->
  signed (xorb sx sl) (Prim2SF (x * l)).
Proof. intros Hl Hx. rewrite mul_spec. eapply SFmul_signed; eauto. Qed.

Lemma div_signed (x l : float) (sx sl : bool) (m : positive) (e : Z) :
  Prim2SF l = S754_finite sl m e -> signed sx (Prim2SF x) ->
  signed (xorb sx sl) (Prim2SF (x / l)).
Proof. intros Hl Hx. rewrite div_spec. eapply SFdiv_signed; eauto. Qed.

Lemma sub_signed (v b : float) :
  is_finite b = true -> (b =? 0)%float = false ->
  ((b <=? v)%float = true -> signed false (Prim2SF (v - b)))
  /\ ((v <=? b)%float = true -> signed true (Prim2SF (v - b))).
Proof.
  intros F Z. destruct (finite_nonzero_inv b F Z) as (s & m & e & E).
  rewrite !leb_spec, sub_spec. split; intros L.
  - apply SFsub_ordered; auto using Prim2SF_valid. left. eauto.
  - apply SFsub_ordered; auto using Prim2SF_valid. right. eauto.
Qed.

Lemma signed_false_not_below (x c : float) :
  (c <? 0)%float = true -> signed false (Prim2SF x) -> (x <? c)%float = false.
Proof.
  intros Hc Hx. apply not_true_iff_false. intros H.
  assert (F := ltb_trans _ _ _ H Hc). rewrite ltb_spec in F.
  change (Prim2SF 0) with (S754_zero false) in F.
  destruct (Prim2SF x) as [s|s| |s m e]; simpl in Hx; subst; try discriminate;
    contradiction.
Qed.

Lemma signed_true_not_above (x c : float) :
  (0 <? c)%float = true -> signed true (Prim2SF x) -> (c <? x)%float = false.
Proof.
  intros Hc Hx. apply not_true_iff_false. intros H.
  assert (F := ltb_trans _ _ _ Hc H). rewrite ltb_spec in F.
  change (Prim2SF 0) with (S754_zero false) in F.
  destruct (Prim2SF x) as [s|s| |s m e]; simpl in Hx; subst; try discriminate;
    contradiction.
Qed.

Lemma nan_mul_l (x y : float) : is_nan x = true -> is_nan (x * y) = true.
Proof. rewrite !is_nan_true, mul_spec. now intros ->. Qed.

Lemma nan_sub_l (x y : float) : is_nan x = true -> is_nan (x - y) = true.
Proof. rewrite !is_nan_true, sub_spec. now intros ->. Qed.

Lemma nan_div_l (x y : float) : is_nan x = true -> is_nan (x / y) = true.
Proof. rewrite !is_nan_true, div_spec. now intros ->. Qed.

Lemma nan_add (x y : float) :
  is_nan x = true \/ is_nan y = true -> is_nan (x + y) = true.
Proof.
  rewrite !is_nan_true, add_spec. intros [-> | ->]; [reflexivity|].
  destruct (Prim2SF x); reflexivity.
Qed.

Lemma nan_ltb (x y : float) :
  is_nan x = true \/ is_nan y = true -> (x <? y)%float = false.
Proof.
  rewrite !is_nan_true, ltb_spec. unfold SFltb. intros [-> | ->].
  - reflexivity.
  - now rewrite compare_nan_r.
Qed.

(** * The keys of the impacts *)

Lemma keys_set {A} (k : string) (v : A) (o : JS.obj A) :
  JS.keys (JS.set k v o) =
  if existsb (String.eqb k) (JS.keys o) then JS.keys o
  else (JS.keys o ++ [k])%list.
Proof.
  induction o as [|[k' v'] o IH]; simpl; [reflexivity|].
  destruct (String.eqb k k') eqn:E; simpl; [reflexivity|].
  rewrite IH. now destruct (existsb _ _).
Qed.

Lemma existsb_eqb_In (k : string) (l : list string) :
  existsb (String.eqb k) l = true <-> In k l.
Proof.
  rewrite existsb_exists. split.
  - intros (x & Hx & E). apply String.eqb_eq in E. now subst.
  - intros H. exists k. split; [exact H|apply String.eqb_refl].
Qed.

Lemma In_NoDup_get {A} (o : JS.obj A) (k : string) (v : A) :
  NoDup (JS.keys o) -> In (k, v) o -> JS.get k o = Some v.
Proof.
  intros ND H.
  assert (Hk : In k (JS.keys o))
    by (change k with (fst (k, v)); now apply in_map).
  apply In_keys_get in Hk. destruct Hk as [v' Hv'].
  rewrite Hv'. f_equal.
  eapply NoDup_keys_unique; eauto using get_Some_In.
Qed.

Section ImpactOrder.

Variable Math_log : float -> float.
Variable normalizedStats : JS.obj float.


Lemma written_present (k : string) :
  In k (JS.keys ODDS_RATIOS) ->
  match writtenEntry Math_log normalizedStats k with
  | Some _ => true
  | None => false
  end = present k normalizedStats.
Proof.
  unfold writtenEntry, present. simpl. intros H.
  repeat (destruct H as [<-|H];
          [destruct (JS.get _ normalizedStats); reflexivity|]).
  contradiction.
Qed.

Lemma fold_impactStep_keys (ks : list string) (acc : JS.obj Impact.t) :
  NoDup ks -> (forall k, In k ks -> ~ In k (JS.keys acc)) ->
  JS.keys (fold_left (impactStep Math_log normalizedStats) ks acc) =
  (JS.keys acc
   ++ filter (fun k => match writtenEntry Math_log normalizedStats k with
                       | Some _ => true
                       | None => false
                       end) ks)%list.
Proof.
  revert acc. induction ks as [|m ks IH]; intros acc ND Hd; simpl.
  - now rewrite app_nil_r.
  - inversion ND as [|? ? Hm ND']; subst.
    assert (Hacc : existsb (String.eqb m) (JS.keys acc) = false).
    { apply not_true_iff_false. rewrite existsb_eqb_In. apply Hd. now left. }
    assert (Hstep : JS.keys (impactStep Math_log normalizedStats acc m) =
                    match writtenEntry Math_log normalizedStats m with
                    | Some _ => (JS.keys acc ++ [m])%list
                    | None => JS.keys acc
                    end).
    { unfold impactStep, writtenEntry.
      destruct (JS.get m normalizedStats);
        destruct (JS.get m (win RESEARCH_BENCHMARKS)); try reflexivity.
      now rewrite keys_set, Hacc. }
    rewrite IH; [|assumption|].
    + rewrite Hstep.
      destruct (writtenEntry Math_log normalizedStats m);
        [now rewrite <- app_assoc|reflexivity].
    + intros k Hk. rewrite Hstep.
      destruct (writtenEntry Math_log normalizedStats m).
      * rewrite in_app_iff. intros [H|[H|[]]].
        -- eapply Hd; [right; exact Hk|exact H].
        -- subst. contradiction.
      * apply Hd. now right.
Qed.

Lemma odds_keys_NoDup : NoDup (JS.keys ODDS_RATIOS).
Proof.
  simpl. repeat (constructor; [simpl; intuition discriminate|]). constructor.
Qed.

Lemma calculateImpacts_keys_eq :
  JS.keys (calculateImpacts Math_log normalizedStats)
  = filter (fun k => present k normalizedStats) (JS.keys ODDS_RATIOS).
Proof.
  unfold calculateImpacts.
  rewrite fold_impactStep_keys by (auto using odds_keys_NoDup).
  match goal with |- (_ ++ ?l)%list = ?r => change (l = r) end.
  apply filter_ext_in. intros k Hk. now apply written_present.
Qed.

Lemma calculateImpacts_NoDup :
  NoDup (JS.keys (calculateImpacts Math_log normalizedStats)).
Proof.
  rewrite calculateImpacts_keys_eq. apply NoDup_filter, odds_keys_NoDup.
Qed.

Lemma calculateImpacts_In (metric : string) (d : Impact.t) :
  In (metric, d) (calculateImpacts Math_log normalizedStats) ->
  writtenEntry Math_log normalizedStats metric = Some d.
Proof.
  intros H. apply In_NoDup_get in H; [|apply calculateImpacts_NoDup].
  rewrite calculateImpacts_get in H.
  destruct (existsb _ _); [exact H|discriminate].
Qed.

End ImpactOrder.

(** X1: the impacts come in the order of [ODDS_RATIOS], one entry for each of
    its keys that the normalized statistics have and none for any other, in
    whatever order the statistics list their keys. *)
Theorem calculateImpacts_order (Math_log : float -> float)
    (normalizedStats : JS.obj float) :
  JS.keys (calculateImpacts Math_log normalizedStats)
  = filter (fun k => present k normalizedStats) (JS.keys ODDS_RATIOS)
  /\ NoDup (JS.keys (calculateImpacts Math_log normalizedStats))
  /\ (forall k, In k (JS.keys (calculateImpacts Math_log normalizedStats))
                <-> In k (JS.keys normalizedStats)
                    /\ In k (JS.keys ODDS_RATIOS))
  /\ (forall k, JS.get k normalizedStats = None ->
                JS.get k (calculateImpacts Math_log normalizedStats) = None).
Proof.
  split; [apply calculateImpacts_keys_eq|].
  split; [apply calculateImpacts_NoDup|].
  split.
  - intros k. rewrite calculateImpacts_keys_eq, filter_In.
    unfold present. rewrite (In_keys_get k normalizedStats).
    split.
    + intros [Hk Hp]. split; [|exact Hk].
      destruct (JS.get k normalizedStats); [eauto|discriminate].
    + intros [[v Hv] Hk]. split; [exact Hk|now rewrite Hv].
  - intros k Hk. rewrite calculateImpacts_get. unfold writtenEntry.
    rewrite Hk. now destruct (existsb _ _).
Qed.

(** * Sides of the benchmark *)

Lemma Math_log_ref_sound : soundLog Math_log_ref.
Proof.
  split; [|split; reflexivity].
  intros r Hr. simpl in Hr.
  repeat (destruct Hr as [<-|Hr];
          [split; [reflexivity|split; intros H; try reflexivity;
                               discriminate H]|]).
  contradiction.
Qed.

Lemma signed_100 : Prim2SF 100 = S754_finite false 7036874417766400 (-46).
Proof. reflexivity. Qed.

(** The impact takes the side of the deviation when the logarithm is
    positive, the other side when it is negative. *)
Lemma impact_side (v b lr l2 : float) :
  is_finite b = true -> (b =? 0)%float = false ->
  is_finite lr = true -> is_finite l2 = true -> (0 <? l2)%float = true ->
  let imp := ((v - b) * lr * 100 / l2)%float in
  ((0 <? lr)%float = true ->
     ((imp <? -1)%float = true -> (v <? b)%float = true)
     /\ ((1 <? imp)%float = true -> (b <? v)%float = true))
  /\ ((lr <? 0)%float = true ->
     ((imp <? -1)%float = true -> (b <? v)%float = true)
     /\ ((1 <? imp)%float = true -> (v <? b)%float = true)).
Proof.
  intros Fb Zb Flr Fl2 Pl2 imp.
  destruct (proj1 (finite_sign_inv l2 Fl2) Pl2) as (m2 & e2 & E2).
  assert (Nb : is_nan b = false).
  { destruct (is_finite_inv b Fb) as [[s E]|(s & m & e & E)];
      apply is_nan_false; rewrite E; discriminate. }
  assert (Nv : forall c, (imp <? c)%float = true \/ (c <? imp)%float = true ->
                         is_nan v = false).
  { intros c H. destruct (is_nan v) eqn:E; [|reflexivity].
    assert (Ni : is_nan imp = true)
      by (unfold imp; now apply nan_div_l, nan_mul_l, nan_mul_l, nan_sub_l).
    destruct H as [H|H]; rewrite nan_ltb in H by auto; discriminate. }
  assert (S : forall (sd sl : bool) ml el,
             Prim2SF lr = S754_finite sl ml el ->
             signed sd (Prim2SF (v - b)) ->
             signed (xorb sd sl) (Prim2SF imp)).
  { intros sd sl ml el El Hd. unfold imp.
    replace (xorb sd sl) with (xorb (xorb (xorb sd sl) false) false)
      by (now destruct sd, sl).
    eapply div_signed; [exact E2|].
    eapply mul_signed; [exact signed_100|].
    eapply mul_signed; [exact El|exact Hd]. }
  destruct (sub_signed v b Fb Zb) as [Up Down].
  split; intros Hlr.
  - destruct (proj1 (finite_sign_inv lr Flr) Hlr) as (ml & el & El).
    split; intros Hi.
    + destruct (v <? b)%float eqn:E; [reflexivity|exfalso].
      apply ltb_false_leb in E; [|eauto|exact Nb].
      assert (F := signed_false_not_below imp (-1) eq_refl
                     (S false false ml el El (Up E))).
      congruence.
    + destruct (b <? v)%float eqn:E; [reflexivity|exfalso].
      apply ltb_false_leb in E; [|exact Nb|eauto].
      assert (F := signed_true_not_above imp 1 eq_refl
                     (S true false ml el El (Down E))).
      congruence.
  - destruct (proj2 (finite_sign_inv lr Flr) Hlr) as (ml & el & El).
    split; intros Hi.
    + destruct (b <? v)%float eqn:E; [reflexivity|exfalso].
      apply ltb_false_leb in E; [|exact Nb|eauto].
      assert (F := signed_false_not_below imp (-1) eq_refl
                     (S true true ml el El (Down E))).
      congruence.
    + destruct (v <? b)%float eqn:E; [reflexivity|exfalso].
      apply ltb_false_leb in E; [|eauto|exact Nb].
      assert (F := signed_true_not_above imp 1 eq_refl
                     (S false true ml el El (Up E))).
      congruence.
Qed.

Lemma weakness_entry (impacts : JS.obj Impact.t) (w : Weakness.t) :
  In w (weaknesses (generateRecommendations impacts)) ->
  exists m d, In (m, d) impacts /\ isWeakness (m, d) = true
              /\ w = toWeakness (m, d).
Proof.
  unfold generateRecommendations, JS.slice0; cbn [weaknesses].
  intros H. apply in_map_iff in H. destruct H as ([m d] & <- & H).
  apply In_firstn, filter_In in H. destruct H as [H W].
  exists m, d. repeat split; auto.
  eapply Permutation_in; [symmetry; apply sort_perm|exact H].
Qed.

Lemma strength_entry (impacts : JS.obj Impact.t) (s : Strength.t) :
  In s (strengths (generateRecommendations impacts)) ->
  exists m d, In (m, d) impacts /\ isStrength (m, d) = true
              /\ s = toStrength (m, d).
Proof.
  unfold generateRecommendations, JS.slice0; cbn [strengths].
  intros H. apply in_map_iff in H. destruct H as ([m d] & <- & H).
  apply In_firstn, filter_In in H. destruct H as [H W].
  exists m, d. repeat split; auto.
  eapply Permutation_in; [symmetry; apply sort_perm|exact H].
Qed.

Lemma win_odds_inv (m : string) (b : float) :
  JS.get m (win RESEARCH_BENCHMARKS) = Some b ->
  is_finite b = true /\ (b =? 0)%float = false
  /\ In (JS.num (JS.get m ODDS_RATIOS)) (JS.values ODDS_RATIOS).
Proof.
  intros Hb. apply get_Some_In in Hb. simpl in Hb.
  repeat (destruct Hb as [Hb|Hb];
          [inversion Hb; subst; clear Hb;
           split; [reflexivity|split; [reflexivity|simpl; tauto]]|]).
  contradiction.
Qed.

Lemma written_side (Math_log : float -> float) (n : JS.obj float)
    (m : string) (d : Impact.t) :
  soundLog Math_log ->
  writtenEntry Math_log n m = Some d ->
  Impact.oddsRatio d = JS.num (JS.get m ODDS_RATIOS)
  /\ ((1 <? Impact.oddsRatio d)%float = true ->
      ((Impact.impact d <? -1)%float = true ->
       (Impact.value d <? Impact.benchmark d)%float = true)
      /\ ((1 <? Impact.impact d)%float = true ->
          (Impact.benchmark d <? Impact.value d)%float = true))
  /\ ((Impact.oddsRatio d <? 1)%float = true ->
      ((Impact.impact d <? -1)%float = true ->
       (Impact.benchmark d <? Impact.value d)%float = true)
      /\ ((1 <? Impact.impact d)%float = true ->
          (Impact.value d <? Impact.benchmark d)%float = true)).
Proof.
  intros (Hlog & F2 & P2). unfold writtenEntry.
  destruct (JS.get m n) as [v|]; [|discriminate].
  destruct (JS.get m (win RESEARCH_BENCHMARKS)) as [b|] eqn:Hb; [|discriminate].
  intros [= <-].
  destruct (win_odds_inv m b Hb) as (Fb & Zb & Hin).
  destruct (Hlog _ Hin) as (Fr & Pos & Neg).
  destruct (impact_side v b _ _ Fb Zb Fr F2 P2) as [Sp Sn].
  split; [reflexivity|].
  split; intros Hr; [exact (Sp (Pos Hr))|exact (Sn (Neg Hr))].
Qed.

(** X2: what the ranking lists as a weakness lies on the losing side of its
    benchmark, what it lists as a strength on the winning side. *)
Theorem listed_sides (Math_log : float -> float)
    (normalizedStats : JS.obj float) :
  soundLog Math_log ->
  let r := generateRecommendations
             (calculateImpacts Math_log normalizedStats) in
  (forall w, In w (weaknesses r) ->
     let oddsRatio := JS.num (JS.get (Weakness.metric w) ODDS_RATIOS) in
     ((1 <? oddsRatio)%float = true ->
      (Weakness.value w <? Weakness.benchmark w)%float = true)
     /\ ((oddsRatio <? 1)%float = true ->
         (Weakness.benchmark w <? Weakness.value w)%float = true))
  /\ (forall s, In s (strengths r) ->
     let oddsRatio := JS.num (JS.get (Strength.metric s) ODDS_RATIOS) in
     ((1 <? oddsRatio)%float = true ->
      (Strength.benchmark s <? Strength.value s)%float = true)
     /\ ((oddsRatio <? 1)%float = true ->
         (Strength.value s <? Strength.benchmark s)%float = true)).
Proof.
  intros Hlog r. split.
  - intros w Hw. apply weakness_entry in Hw.
    destruct Hw as (m & d & Hin & W & ->).
    apply calculateImpacts_In in Hin.
    destruct (written_side _ _ _ _ Hlog Hin) as (Er & Up & Down).
    unfold isWeakness in W. cbn [snd] in W.
    cbn [toWeakness Weakness.metric Weakness.value Weakness.benchmark].
    rewrite <- Er. split; intros H.
    + now apply (proj1 (Up H)).
    + now apply (proj1 (Down H)).
  - intros s Hs. apply strength_entry in Hs.
    destruct Hs as (m & d & Hin & S & ->).
    apply calculateImpacts_In in Hin.
    destruct (written_side _ _ _ _ Hlog Hin) as (Er & Up & Down).
    unfold isStrength, JS.gtb in S. cbn [snd] in S.
    cbn [toStrength Strength.metric Strength.value Strength.benchmark].
    rewrite <- Er. split; intros H.
    + now apply (proj2 (Up H)).
    + now apply (proj2 (Down H)).
Qed.

Lemma listed_sides_witness :
  Forall (fun w => (Weakness.benchmark w <? Weakness.value w)%float = true)
         (weaknesses (recommendations
            (analyzeGame Math_log_ref Number_toFixed exampleStats))).
Proof.
  apply Forall_forall. intros w Hw.
  destruct (listed_sides Math_log_ref
              (normalizeStats exampleStats (Some 3%float))
              Math_log_ref_sound) as [Hweak _].
  destruct (Hweak w Hw) as [_ Hlow].
  apply Hlow.
  simpl in Hw. destruct Hw as [<-|[]]. reflexivity.
Defined.

(** * Missing and finite counts *)

(** *** A count that is not a number *)

Lemma impactFormula_nan (Math_log : float -> float) (metric : string)
    (raw sets : float) :
  is_nan raw = true -> is_nan (impactFormula Math_log metric raw sets) = true.
Proof.
  intros H. unfold impactFormula.
  now apply nan_div_l, nan_mul_l, nan_mul_l, nan_sub_l, nan_mul_l.
Qed.

Lemma fold_add_nan (l : list Impact.t) (acc : float) :
  is_nan acc = true \/ (exists i, In i l /\ is_nan (Impact.impact i) = true) ->
  is_nan (fold_left (fun sum i => (sum + Impact.impact i)%float) l acc) = true.
Proof.
  revert acc. induction l as [|x l IH]; intros acc H; simpl.
  - destruct H as [H|(i & [] & _)]. exact H.
  - apply IH. destruct H as [H|(i & [<-|Hi] & Hn)].
    + left. apply nan_add. now left.
    + left. apply nan_add. now right.
    + right. eauto.
Qed.

Lemma summaryLine_nan (impacts : JS.obj Impact.t) (m : string) (d : Impact.t) :
  In (m, d) impacts -> is_nan (Impact.impact d) = true ->
  summaryLine impacts = mixedSummary.
Proof.
  intros Hin Hn. unfold summaryLine, JS.gtb.
  assert (N : is_nan (fold_left (fun sum i => (sum + Impact.impact i)%float)
                        (JS.values impacts) 0%float) = true).
  { apply fold_add_nan. right. exists d. split; [|exact Hn].
    change d with (snd (m, d)). now apply in_map. }
  rewrite !nan_ltb by auto. reflexivity.
Qed.

Lemma analyzeGame_entry (Math_log : float -> float)
    (toFixed : float -> nat -> string) (stats : RawStats) (metric : string) :
  In metric normalizedKeys ->
  exists d, In (metric, d) (impacts (analyzeGame Math_log toFixed stats))
            /\ Impact.impact d
               = impactFormula Math_log metric (rawOf metric stats)
                   (setsUsed stats).
Proof.
  unfold normalizedKeys. simpl. intros H.
  repeat (destruct H as [<-|H];
          [eexists; split; [simpl; repeat (try (left; reflexivity); right)
                           |reflexivity]|]).
  contradiction.
Qed.

Lemma analyzeGame_NoDup (Math_log : float -> float)
    (toFixed : float -> nat -> string) (stats : RawStats) :
  NoDup (JS.keys (impacts (analyzeGame Math_log toFixed stats))).
Proof. exact normalizedKeys_NoDup. Qed.

(** X3: a raw count that is not a number (a field the caller left out) gets
    a NaN impact; its metric stays in the full list but is neither a
    weakness nor a strength, and the summary is the mixed-profile
    sentence. *)
Theorem missing_count (Math_log : float -> float)
    (toFixed : float -> nat -> string) (stats : RawStats) (metric : string) :
  In metric normalizedKeys ->
  is_nan (rawOf metric stats) = true ->
  let r := analyzeGame Math_log toFixed stats in
  is_nan (impactAt metric (impacts r)) = true
  /\ In metric (map fst (allImpacts (recommendations r)))
  /\ ~ In metric (map Weakness.metric (weaknesses (recommendations r)))
  /\ ~ In metric (map Strength.metric (strengths (recommendations r)))
  /\ summaryLine (impacts r) = mixedSummary
  /\ nth_error (insightsLines toFixed stats (impacts r) (recommendations r)) 1
     = Some mixedSummary.
Proof.
  intros Hk Hn r.
  destruct (analyzeGame_entry Math_log toFixed stats metric Hk)
    as (d & Hin & Hd).
  fold r in Hin.
  assert (Nd : is_nan (Impact.impact d) = true)
    by (rewrite Hd; now apply impactFormula_nan).
  assert (ND := analyzeGame_NoDup Math_log toFixed stats). fold r in ND.
  assert (Hs : summaryLine (impacts r) = mixedSummary)
    by (eapply summaryLine_nan; eauto).
  split.
  { unfold impactAt. rewrite (In_NoDup_get _ _ _ ND Hin). exact Nd. }
  split.
  { change metric with (fst (metric, d)). apply in_map.
    eapply Permutation_in; [apply sort_perm|exact Hin]. }
  split.
  { intros H. apply weakness_source in H. destruct H as (d' & Hd' & W).
    assert (d' = d) by (eapply NoDup_keys_unique; eauto). subst d'.
    unfold isWeakness in W. cbn [snd] in W.
    rewrite nan_ltb in W by auto. discriminate. }
  split.
  { intros H. apply strength_source in H. destruct H as (d' & Hd' & S).
    assert (d' = d) by (eapply NoDup_keys_unique; eauto). subst d'.
    unfold isStrength, JS.gtb in S. cbn [snd] in S.
    rewrite nan_ltb in S by auto. discriminate. }
  split; [exact Hs|].
  unfold insightsLines. cbn [app nth_error]. now rewrite Hs.
Qed.

Lemma missing_count_witness :
  let r := analyzeGame Math_log_ref Number_toFixed httpStats in
  ~ In "soloBlocks" (map Weakness.metric (weaknesses (recommendations r)))
  /\ summaryLine (impacts r) = mixedSummary.
Proof.
  intros r.
  destruct (missing_count Math_log_ref Number_toFixed httpStats "soloBlocks")
    as (_ & _ & Hw & _ & Hs & _).
  - simpl. tauto.
  - reflexivity.
  - split; assumption.
Defined.

(** *** Finite counts *)

Lemma number_signed (x : spec_float) :
  is_number x -> exists s, signed s x.
Proof.
  unfold is_number.
  destruct x as [s|s| |s m e]; try congruence; intros _;
    [exists false|exists s|exists s]; simpl; auto.
Qed.

Lemma mul_finite_number (x y : float) :
  is_finite x = true -> is_finite y = true -> is_nan (x * y) = false.
Proof.
  intros Fx Fy. apply is_nan_false. rewrite mul_spec.
  destruct (is_finite_inv y Fy) as [[sy Ey]|(sy & my & ey & Ey)].
  - rewrite Ey. destruct (is_finite_inv x Fx) as [[sx ->]|(sx & mx & ex & ->)];
      discriminate.
  - destruct (is_finite_inv x Fx) as [[sx Ex]|(sx & mx & ex & Ex)].
    + rewrite Ex, Ey. discriminate.
    + assert (S : signed sx (Prim2SF x)) by (rewrite Ex; reflexivity).
      assert (H := SFmul_signed _ _ sx sy my ey Ey S).
      intros E. rewrite E in H. exact H.
Qed.

Lemma sub_finite_number (x b : float) :
  is_nan x = false -> is_finite b = true -> is_nan (x - b) = false.
Proof.
  intros Nx Fb. destruct (x <? b)%float eqn:E.
  - apply ltb_leb in E.
    destruct (is_finite_inv b Fb) as [[s Eb]|(s & m & e & Eb)].
    + apply is_nan_false. rewrite sub_spec, Eb.
      apply is_nan_false in Nx. unfold is_number in *.
      destruct (Prim2SF x) as [sx|sx| |sx mx ex]; try congruence;
        try discriminate. destruct sx, s; discriminate.
    + rewrite leb_spec in E.
      eapply signed_number. rewrite sub_spec.
      apply (SFsub_ordered _ _ (Prim2SF_valid x) (Prim2SF_valid b)); eauto.
  - assert (Nb : is_nan b = false).
    { destruct (is_finite_inv b Fb) as [[s Eb]|(s & m & e & Eb)];
        apply is_nan_false; rewrite Eb; discriminate. }
    apply ltb_false_leb in E; auto.
    destruct (is_finite_inv b Fb) as [[s Eb]|(s & m & e & Eb)].
    + apply is_nan_false. rewrite sub_spec, Eb.
      apply is_nan_false in Nx. unfold is_number in *.
      destruct (Prim2SF x) as [sx|sx| |sx mx ex]; try congruence;
        try discriminate. destruct sx, s; discriminate.
    + rewrite leb_spec in E.
      eapply signed_number. rewrite sub_spec.
      apply (SFsub_ordered _ _ (Prim2SF_valid b) (Prim2SF_valid x)); eauto.
Qed.

Lemma mul_nonzero_number (x l : float) :
  is_nan x = false -> is_finite l = true -> (l =? 0)%float = false ->
  is_nan (x * l) = false.
Proof.
  intros Nx Fl Zl. destruct (finite_nonzero_inv l Fl Zl) as (s & m & e & El).
  apply is_nan_false in Nx. destruct (number_signed _ Nx) as [sx Sx].
  eapply signed_number. eapply mul_signed; eauto.
Qed.

Lemma div_nonzero_number (x l : float) :
  is_nan x = false -> is_finite l = true -> (l =? 0)%float = false ->
  is_nan (x / l) = false.
Proof.
  intros Nx Fl Zl. destruct (finite_nonzero_inv l Fl Zl) as (s & m & e & El).
  apply is_nan_false in Nx. destruct (number_signed _ Nx) as [sx Sx].
  eapply signed_number. eapply div_signed; eauto.
Qed.

Lemma soundLog_nonzero (Math_log : float -> float) (m : string) (b : float) :
  soundLog Math_log ->
  JS.get m (win RESEARCH_BENCHMARKS) = Some b ->
  is_finite b = true
  /\ is_finite (Math_log (JS.num (JS.get m ODDS_RATIOS))) = true
  /\ (Math_log (JS.num (JS.get m ODDS_RATIOS)) =? 0)%float = false
  /\ is_finite (Math_log 2%float) = true
  /\ (Math_log 2 =? 0)%float = false.
Proof.
  intros (Hlog & F2 & P2) Hb.
  assert (Z2 : (Math_log 2 =? 0)%float = false).
  { destruct (proj1 (finite_sign_inv _ F2) P2) as (m2 & e2 & E2).
    apply not_true_iff_false. rewrite eqb_zero_iff, E2.
    intros [s Hs]. discriminate. }
  assert (Hr : (1 <? JS.num (JS.get m ODDS_RATIOS))%float = true
               \/ (JS.num (JS.get m ODDS_RATIOS) <? 1)%float = true).
  { apply get_Some_In in Hb. simpl in Hb.
    repeat (destruct Hb as [Hb|Hb];
            [inversion Hb; subst; clear Hb;
             first [left; reflexivity|right; reflexivity]|]).
    contradiction. }
  destruct (win_odds_inv m b Hb) as (Fb & _ & Hin).
  destruct (Hlog _ Hin) as (Fr & Pos & Neg).
  repeat split; auto.
  apply not_true_iff_false. rewrite eqb_zero_iff. intros [s Hs].
  destruct Hr as [Hr|Hr].
  - destruct (proj1 (finite_sign_inv _ Fr) (Pos Hr)) as (? & ? & E).
    congruence.
  - destruct (proj2 (finite_sign_inv _ Fr) (Neg Hr)) as (? & ? & E).
    congruence.
Qed.

Lemma impactFormula_number (Math_log : float -> float) (metric : string)
    (raw sets : float) :
  soundLog Math_log -> In metric normalizedKeys ->
  is_finite raw = true -> is_finite (3.5 / sets)%float = true ->
  is_nan (impactFormula Math_log metric raw sets) = false.
Proof.
  intros Hlog Hk Fr Ff.
  assert (Hb : exists b, JS.get metric (win RESEARCH_BENCHMARKS) = Some b).
  { unfold normalizedKeys in Hk. simpl in Hk.
    repeat (destruct Hk as [<-|Hk]; [eexists; reflexivity|]). contradiction. }
  destruct Hb as [b Hb].
  destruct (soundLog_nonzero Math_log metric b Hlog Hb)
    as (Fb & Fl & Zl & F2 & Z2).
  unfold impactFormula. rewrite Hb. cbn [JS.num].
  apply div_nonzero_number; auto.
  apply mul_nonzero_number; [|reflexivity|reflexivity].
  apply mul_nonzero_number; auto.
  apply sub_finite_number; auto.
  now apply mul_finite_number.
Qed.

(** X4: on finite counts, with a finite normalization factor, every impact
    is a number, so the full list of [analyzeGame] descends in absolute
    impact from the first entry to the last. *)
Theorem finite_counts_ranked (Math_log : float -> float)
    (toFixed : float -> nat -> string) (stats : RawStats) :
  soundLog Math_log ->
  finiteCounts stats ->
  is_finite (3.5 / setsUsed stats)%float = true ->
  let r := analyzeGame Math_log toFixed stats in
  Forall numericImpact (impacts r)
  /\ StronglySorted descAbs (allImpacts (recommendations r))
  /\ List.length (allImpacts (recommendations r)) = 9%nat.
Proof.
  intros Hlog Hfin Hf r.
  assert (N : Forall numericImpact (impacts r)).
  { apply Forall_forall. intros [m d] Hin. unfold numericImpact. cbn [snd].
    assert (Hk : In m normalizedKeys).
    { change normalizedKeys with (JS.keys (impacts r)).
      change m with (fst (m, d)). now apply in_map. }
    destruct (analyzeGame_entry Math_log toFixed stats m Hk)
      as (d' & Hin' & Hd').
    assert (d = d')
      by (eapply NoDup_keys_unique; eauto using analyzeGame_NoDup).
    subst d'. rewrite Hd'. now apply impactFormula_number; auto. }
  split; [exact N|]. split; [now apply sort_sorted|].
  unfold r. cbn [recommendations analyzeGame allImpacts generateRecommendations].
  rewrite <- (Permutation_length (sort_perm _ _)). reflexivity.
Qed.

Lemma finite_counts_ranked_witness :
  StronglySorted descAbs
    (allImpacts (recommendations
       (analyzeGame Math_log_ref Number_toFixed exampleStats))).
Proof.
  apply (finite_counts_ranked Math_log_ref Number_toFixed exampleStats
           Math_log_ref_sound).
  - intros metric H. simpl in H.
    repeat (destruct H as [<-|H]; [reflexivity|]). contradiction.
  - reflexivity.
Defined.

(** * The worst and the best entries *)

(** *** Sorted lists *)

Lemma StronglySorted_filter {A} (R : A -> A -> Prop) (P : A -> bool)
    (l : list A) :
  StronglySorted R l -> StronglySorted R (filter P l).
Proof.
  induction 1 as [|x l Hs IH Hx]; simpl; [constructor|].
  destruct (P x); [|exact IH].
  constructor; [exact IH|].
  rewrite Forall_forall in *. intros y Hy. apply Hx.
  now apply filter_In in Hy.
Qed.

Lemma StronglySorted_app_inv {A} (R : A -> A -> Prop) (l1 l2 : list A) :
  StronglySorted R (l1 ++ l2) ->
  StronglySorted R l1
  /\ forall x y, In x l1 -> In y l2 -> R x y.
Proof.
  induction l1 as [|a l1 IH]; simpl; intros H.
  - split; [constructor|contradiction].
  - inversion H as [|? ? Hs Ha]; subst.
    destruct (IH Hs) as [S1 Hxy]. rewrite Forall_forall in Ha.
    split.
    + constructor; [exact S1|]. apply Forall_forall. intros y Hy.
      apply Ha, in_or_app. now left.
    + intros x y [<-|Hx] Hy; [|now apply Hxy].
      apply Ha, in_or_app. now right.
Qed.

Lemma StronglySorted_map {A B} (R : B -> B -> Prop) (f : A -> B)
    (l : list A) :
  StronglySorted (fun a b => R (f a) (f b)) l -> StronglySorted R (map f l).
Proof.
  induction 1 as [|x l Hs IH Hx]; simpl; constructor; auto.
  rewrite Forall_forall in *. intros y Hy.
  apply in_map_iff in Hy. destruct Hy as (a & <- & Ha). now apply Hx.
Qed.

(** The first [n] elements of a sorted list come before every other. *)
Lemma firstn_top {A} (R : A -> A -> Prop) (n : nat) (l : list A) (x : A) :
  StronglySorted R l -> In x l ->
  In x (firstn n l)
  \/ (List.length (firstn n l) = n /\ forall y, In y (firstn n l) -> R y x).
Proof.
  intros Hs Hx. rewrite <- (firstn_skipn n l) in Hs, Hx.
  apply in_app_or in Hx. destruct Hx as [Hx|Hx]; [now left|right].
  split.
  - apply firstn_length_le.
    destruct (Nat.le_gt_cases n (List.length l)) as [H|H]; [exact H|].
    rewrite skipn_all2 in Hx by lia. contradiction.
  - intros y Hy. now apply (proj2 (StronglySorted_app_inv _ _ _ Hs)).
Qed.

(** *** Thresholds and magnitudes *)

Lemma below_minus_one (x : float) :
  (x <? -1)%float = true -> (1 <? abs x)%float = true.
Proof.
  rewrite !ltb_spec, abs_spec, !SFltb_iff.
  change (Prim2SF (-1)) with (S754_finite true 4503599627370496 (-52)).
  change (Prim2SF 1) with (S754_finite false 4503599627370496 (-52)).
  unfold is_number.
  destruct (Prim2SF x) as [s|s| |s m e]; simpl;
    intros (Hx & _ & H); repeat split; try discriminate; try congruence;
    try destruct s; simpl in *; lia.
Qed.

Lemma above_one_abs (x : float) :
  (1 <? x)%float = true -> abs x = x.
Proof.
  rewrite ltb_spec. intros H. apply Prim2SF_inj. rewrite abs_spec.
  change (Prim2SF 1) with (S754_finite false 4503599627370496 (-52)) in H.
  destruct (Prim2SF x) as [s|s| |s m e]; try discriminate H;
    destruct s; try discriminate H; reflexivity.
Qed.

Lemma sorted_of (impacts : JS.obj Impact.t) :
  Forall numericImpact impacts ->
  StronglySorted descAbs (JS.sort byAbsImpact (JS.entries impacts)).
Proof. apply sort_sorted. Qed.

(** X5: on numeric impacts the weaknesses are the worst entries: they come
    in descending priority, each with impact below -1 and priority
    [|impact|] above 1, and an entry below -1 that is not listed is
    outranked by three listed ones. *)
Theorem weaknesses_are_worst (impacts : JS.obj Impact.t) :
  Forall numericImpact impacts ->
  let r := generateRecommendations impacts in
  StronglySorted descPriority (weaknesses r)
  /\ (forall w, In w (weaknesses r) ->
        (Weakness.impact w <? -1)%float = true
        /\ Weakness.priority w = abs (Weakness.impact w)
        /\ (1 <? Weakness.priority w)%float = true)
  /\ (forall e, In e impacts -> isWeakness e = true ->
        In (toWeakness e) (weaknesses r)
        \/ (List.length (weaknesses r) = 3%nat
            /\ forall w, In w (weaknesses r) ->
                 (abs (Impact.impact (snd e)) <=? Weakness.priority w)%float
                 = true)).
Proof.
  intros N r.
  assert (S := StronglySorted_filter descAbs isWeakness _ (sorted_of _ N)).
  unfold r, generateRecommendations, JS.slice0; cbn [weaknesses].
  split.
  { apply StronglySorted_map.
    rewrite <- (firstn_skipn 3) in S.
    apply StronglySorted_app_inv in S. destruct S as [S _].
    eapply StronglySorted_ind with (P := fun l => StronglySorted _ l);
      [constructor| |exact S].
    intros [m d] l Hl IH Hd. constructor; [exact IH|].
    eapply Forall_impl; [|exact Hd]. intros [m' d'] H. exact H. }
  split.
  { intros w Hw. apply in_map_iff in Hw. destruct Hw as ([m d] & <- & Hw).
    apply In_firstn, filter_In in Hw. destruct Hw as [_ W].
    unfold isWeakness in W. cbn [snd] in W.
    cbn [toWeakness Weakness.impact Weakness.priority].
    repeat split; auto. now apply below_minus_one. }
  intros e He W.
  assert (Hin : In e (filter isWeakness
                        (JS.sort byAbsImpact (JS.entries impacts)))).
  { apply filter_In. split; [|exact W].
    eapply Permutation_in; [apply sort_perm|exact He]. }
  destruct (firstn_top descAbs 3 _ e S Hin) as [H|[Hl Hy]].
  - left. now apply in_map.
  - right. rewrite length_map. split; [exact Hl|].
    intros w Hw. apply in_map_iff in Hw. destruct Hw as ([m d] & <- & Hw).
    exact (Hy _ Hw).
Qed.

Lemma weaknesses_are_worst_witness :
  StronglySorted descPriority
    (weaknesses (recommendations
       (analyzeGame Math_log_ref Number_toFixed (withKills 20 exampleStats)))).
Proof.
  apply (weaknesses_are_worst
           (impacts (analyzeGame Math_log_ref Number_toFixed
                       (withKills 20 exampleStats)))).
  repeat constructor.
Defined.

(** X6: on numeric impacts the strengths are the best entries: they come in
    descending impact, each above 1, and an entry above 1 that is not
    listed is outranked by two listed ones. *)
Theorem strengths_are_best (impacts : JS.obj Impact.t) :
  Forall numericImpact impacts ->
  let r := generateRecommendations impacts in
  StronglySorted descImpact (strengths r)
  /\ (forall s, In s (strengths r) -> (1 <? Strength.impact s)%float = true)
  /\ (forall e, In e impacts -> isStrength e = true ->
        In (toStrength e) (strengths r)
        \/ (List.length (strengths r) = 2%nat
            /\ forall s, In s (strengths r) ->
                 (Impact.impact (snd e) <=? Strength.impact s)%float = true)).
Proof.
  intros N r.
  assert (S := StronglySorted_filter descAbs isStrength _ (sorted_of _ N)).
  assert (A : forall e, In e (filter isStrength
                                (JS.sort byAbsImpact (JS.entries impacts))) ->
                        abs (Impact.impact (snd e)) = Impact.impact (snd e)).
  { intros e He. apply filter_In in He. destruct He as [_ He].
    now apply above_one_abs. }
  unfold r, generateRecommendations, JS.slice0; cbn [strengths].
  split.
  { apply StronglySorted_map.
    assert (A3 : forall e, In e (firstn 2 (filter isStrength
                   (JS.sort byAbsImpact (JS.entries impacts)))) ->
                 abs (Impact.impact (snd e)) = Impact.impact (snd e))
      by (intros e He; apply A; eapply In_firstn; eauto).
    rewrite <- (firstn_skipn 2) in S.
    apply StronglySorted_app_inv in S. destruct S as [S _].
    revert A3. induction S as [|[m d] l Hl IH Hd]; intros A3;
      constructor.
    - apply IH. intros e He. apply A3. now right.
    - rewrite Forall_forall in *. intros [m' d'] H.
      specialize (Hd _ H). unfold descAbs in Hd. unfold descImpact.
      rewrite (A3 (m, d)), (A3 (m', d')) in Hd by (simpl; auto).
      exact Hd. }
  split.
  { intros s Hs. apply in_map_iff in Hs. destruct Hs as ([m d] & <- & Hs).
    apply In_firstn, filter_In in Hs. destruct Hs as [_ W]. exact W. }
  intros e He W.
  assert (Hin : In e (filter isStrength
                        (JS.sort byAbsImpact (JS.entries impacts)))).
  { apply filter_In. split; [|exact W].
    eapply Permutation_in; [apply sort_perm|exact He]. }
  destruct (firstn_top descAbs 2 _ e S Hin) as [H|[Hl Hy]].
  - left. now apply in_map.
  - right. rewrite length_map. split; [exact Hl|].
    intros s Hs. apply in_map_iff in Hs. destruct Hs as ([m d] & <- & Hs).
    assert (H := Hy _ Hs). unfold descAbs in H.
    rewrite (A e Hin), (A (m, d)) in H by (eapply In_firstn; eauto).
    exact H.
Qed.

Lemma strengths_are_best_witness :
  StronglySorted descImpact
    (strengths (recommendations
       (analyzeGame Math_log_ref Number_toFixed exampleStats))).
Proof.
  apply (strengths_are_best
           (impacts (analyzeGame Math_log_ref Number_toFixed exampleStats))).
  repeat constructor.
Defined.

(** *** Ties *)

Lemma insert_ties (c : float) (x : string * Impact.t)
    (l : list (string * Impact.t)) :
  numericImpact x -> Forall numericImpact l ->
  filter (sameMagnitude c) (JS.insert byAbsImpact x l)
  = filter (sameMagnitude c) (x :: l).
Proof.
  intros Nx Nl. induction Nl as [|y l Ny Nl IH]; [reflexivity|].
  cbn [JS.insert]. rewrite byAbsImpact_pos by assumption.
  destruct (abs (Impact.impact (snd x)) <? abs (Impact.impact (snd y)))%float
    eqn:E; [|reflexivity].
  cbn [filter]. rewrite IH. cbn [filter].
  destruct (sameMagnitude c x) eqn:Ex, (sameMagnitude c y) eqn:Ey;
    try reflexivity.
  exfalso. unfold sameMagnitude in Ex, Ey.
  assert (F := ltb_antisym _ _ E).
  destruct (eqb_leb _ _ Ey) as [Hy _]. destruct (eqb_leb _ _ Ex) as [_ Hx].
  rewrite (leb_trans _ _ _ Hy Hx) in F. discriminate.
Qed.

(** X7: the sort is stable: entries of equal absolute impact keep the order
    they have in the impacts object. *)
Theorem ties_keep_order (impacts : JS.obj Impact.t) (c : float) :
  Forall numericImpact impacts ->
  filter (sameMagnitude c) (allImpacts (generateRecommendations impacts))
  = filter (sameMagnitude c) (JS.entries impacts).
Proof.
  unfold generateRecommendations, JS.entries; cbn [allImpacts].
  induction 1 as [|x l Nx Nl IH]; [reflexivity|].
  cbn [JS.sort fold_right]. fold (JS.sort byAbsImpact l).
  rewrite insert_ties; auto.
  - cbn [filter]. now rewrite IH.
  - eapply Permutation_Forall; [apply sort_perm|exact Nl].
Qed.

Lemma ties_keep_order_witness :
  let entry i := {| Impact.value := 0; Impact.benchmark := 0;
                    Impact.deviation := 0; Impact.impact := i;
                    Impact.oddsRatio := 1 |} in
  let impacts :=
    [("kills", entry 2%float); ("errors", entry (-2)%float);
     ("digs", entry 5%float); ("attempts", entry 2%float)] in
  map fst (allImpacts (generateRecommendations impacts))
  = ["digs"; "kills"; "errors"; "attempts"]
  /\ map fst (filter (sameMagnitude 2)
                (allImpacts (generateRecommendations impacts)))
     = ["kills"; "errors"; "attempts"].
Proof.
  intros entry impacts. split; [reflexivity|].
  rewrite (ties_keep_order impacts 2).
  - reflexivity.
  - repeat constructor.
Defined.

(** * Labels, display metrics and drills *)

(** *** Labels *)

Lemma nan_leb (x y : float) :
  is_nan x = true \/ is_nan y = true -> (x <=? y)%float = false.
Proof.
  rewrite !is_nan_true, leb_spec. unfold SFleb. intros [-> | ->].
  - reflexivity.
  - now rewrite compare_nan_r.
Qed.

Lemma includes_str_In (l : list string) (s : string) :
  includes_str l s = true <-> In s l.
Proof. apply existsb_eqb_In. Qed.

(** X8: a better value never gets a worse label: for a lower-is-better
    metric the label does not improve as the value grows, for any other
    metric it does not get worse. *)
Theorem getPerformanceLevel_monotone (value value' : float)
    (metric : string) :
  (value <=? value')%float = true ->
  (In metric lowerIsBetter ->
   levelRank (getPerformanceLevel value' metric)
   <= levelRank (getPerformanceLevel value metric))
  /\ (~ In metric lowerIsBetter ->
      levelRank (getPerformanceLevel value metric)
      <= levelRank (getPerformanceLevel value' metric)).
Proof.
  intros Hle. unfold getPerformanceLevel, JS.geb.
  set (w := JS.num (JS.get metric (win RESEARCH_BENCHMARKS))).
  set (l := JS.num (JS.get metric (loss RESEARCH_BENCHMARKS))).
  split; intros Hm.
  - apply includes_str_In in Hm. rewrite Hm.
    destruct (value' <=? w)%float eqn:W'.
    + rewrite (leb_trans _ _ _ Hle W'). apply Nat.le_refl.
    + destruct (value' <=? l)%float eqn:L'.
      * destruct (value <=? w)%float; [|rewrite (leb_trans _ _ _ Hle L')];
          unfold levelRank; simpl; lia.
      * destruct (value <=? w)%float; [|destruct (value <=? l)%float];
          unfold levelRank; simpl; lia.
  - assert (E : includes_str lowerIsBetter metric = false).
    { apply not_true_iff_false. now rewrite includes_str_In. }
    rewrite E.
    destruct (w <=? value)%float eqn:W.
    + rewrite (leb_trans _ _ _ W Hle). apply Nat.le_refl.
    + destruct (l <=? value)%float eqn:L.
      * destruct (w <=? value')%float; [|rewrite (leb_trans _ _ _ L Hle)];
          unfold levelRank; simpl; lia.
      * destruct (w <=? value')%float; [|destruct (l <=? value')%float];
          unfold levelRank; simpl; lia.
Qed.

Lemma getPerformanceLevel_monotone_witness :
  levelRank (getPerformanceLevel 40 "kills")
  <= levelRank (getPerformanceLevel 45 "kills")
  /\ levelRank (getPerformanceLevel 45 "kills")
     <= levelRank (getPerformanceLevel 50 "kills")
  /\ levelRank (getPerformanceLevel 7 "receptionErrors")
     <= levelRank (getPerformanceLevel 5 "receptionErrors").
Proof.
  split; [|split].
  - apply (getPerformanceLevel_monotone 40 45 "kills"); [reflexivity|].
    simpl. intuition discriminate.
  - apply (getPerformanceLevel_monotone 45 50 "kills"); [reflexivity|].
    simpl. intuition discriminate.
  - apply (getPerformanceLevel_monotone 5 7 "receptionErrors");
      [reflexivity|]. simpl. tauto.
Defined.

Lemma benchmarks_same_keys (metric : string) :
  JS.get metric (win RESEARCH_BENCHMARKS) = None ->
  JS.get metric (loss RESEARCH_BENCHMARKS) = None.
Proof.
  simpl.
  repeat (destruct (String.eqb metric _); [discriminate|]). reflexivity.
Qed.

(** X9: a metric the benchmark tables do not have, or a value that is not a
    number, is labelled [needs_improvement]: every comparison with
    [undefined] or NaN is false. *)
Theorem getPerformanceLevel_undefined (value : float) (metric : string) :
  JS.get metric (win RESEARCH_BENCHMARKS) = None \/ is_nan value = true ->
  getPerformanceLevel value metric = "needs_improvement".
Proof.
  intros H. unfold getPerformanceLevel, JS.geb.
  destruct H as [H|H].
  - rewrite (benchmarks_same_keys _ H), H. cbn [JS.num].
    rewrite !nan_leb by (auto using eq_refl).
    now destruct (includes_str _ _).
  - rewrite !nan_leb by auto. now destruct (includes_str _ _).
Qed.

Lemma getPerformanceLevel_undefined_witness :
  getPerformanceLevel 12 "totalBlocks" = "needs_improvement"
  /\ getPerformanceLevel nan "kills" = "needs_improvement".
Proof.
  split.
  - apply getPerformanceLevel_undefined. left. reflexivity.
  - apply getPerformanceLevel_undefined. right. reflexivity.
Defined.

(** *** Display metrics *)

Local Open Scope Z_scope.

Lemma SFadd_nonneg (x y : spec_float) :
  (exists s m e, x = S754_finite s m e) \/ (exists s, x = S754_zero s) ->
  (exists s m e, y = S754_finite s m e) \/ (exists s, y = S754_zero s) ->
  signed false x -> signed false y -> signed false (SF64add x y).
Proof.
  intros [(sx & mx & ex & ->)|(sx & ->)] [(sy & my & ey & ->)|(sy & ->)];
    simpl; intros Hx Hy; subst; auto; try (destruct sx, sy; exact I).
  apply binary_normalize_signed. cbv [cond_Zopp]. lia.
Qed.

Local Close Scope Z_scope.

Lemma nonneg_signed (x : float) :
  (0 <=? x)%float = true -> signed false (Prim2SF x).
Proof.
  rewrite leb_spec. change (Prim2SF 0) with (S754_zero false).
  destruct (Prim2SF x) as [s|s| |s m e]; simpl; auto;
    try destruct s; try discriminate; reflexivity.
Qed.

Lemma signed_nonneg (x : float) :
  signed false (Prim2SF x) -> (0 <=? x)%float = true.
Proof.
  rewrite leb_spec. change (Prim2SF 0) with (S754_zero false).
  destruct (Prim2SF x) as [s|s| |s m e]; simpl; auto;
    intros H; subst; try contradiction; reflexivity.
Qed.

Lemma finite_number (x : float) : is_finite x = true -> is_nan x = false.
Proof.
  intros F. apply is_nan_false.
  destruct (is_finite_inv x F) as [[s E]|(s & m & e & E)];
    rewrite E; discriminate.
Qed.

Lemma add_finite_number (x y : float) :
  is_finite x = true -> is_finite y = true -> is_nan (x + y) = false.
Proof.
  intros Fx Fy. apply is_nan_false. rewrite add_spec.
  apply SFadd_number.
  - destruct (is_finite_inv x Fx); auto.
  - destruct (is_finite_inv y Fy); auto.
Qed.

Lemma add_nonneg (x y : float) :
  is_finite x = true -> is_finite y = true ->
  (0 <=? x)%float = true -> (0 <=? y)%float = true ->
  (0 <=? x + y)%float = true.
Proof.
  intros Fx Fy Px Py. apply signed_nonneg. rewrite add_spec.
  apply SFadd_nonneg; auto using nonneg_signed.
  - destruct (is_finite_inv x Fx); auto.
  - destruct (is_finite_inv y Fy); auto.
Qed.

Lemma positive_finite (d : float) :
  is_finite d = true -> (0 <? d)%float = true ->
  (d =? 0)%float = false /\ exists m e, Prim2SF d = S754_finite false m e.
Proof.
  intros F P. destruct (proj1 (finite_sign_inv d F) P) as (m & e & E).
  split; [|eauto].
  apply not_true_iff_false. rewrite eqb_zero_iff, E. intros [s Hs].
  discriminate.
Qed.

Lemma div_nonneg (x d : float) :
  is_finite d = true -> (0 <? d)%float = true ->
  (0 <=? x)%float = true -> (0 <=? x / d)%float = true.
Proof.
  intros F P Hx. destruct (positive_finite d F P) as (_ & m & e & E).
  apply signed_nonneg.
  apply (div_signed x d false false m e E). now apply nonneg_signed.
Qed.

Lemma rate_number (x d : float) :
  is_nan x = false -> (forall y, d = y -> is_finite y = true) ->
  is_nan (if JS.gtb d 0 then x / d else 0)%float = false.
Proof.
  intros Nx F. unfold JS.gtb. destruct (0 <? d)%float eqn:P; [|reflexivity].
  destruct (positive_finite d (F d eq_refl) P) as (Z & _).
  apply div_nonzero_number; auto.
Qed.

Lemma rate_nonneg (x d : float) :
  (0 <=? x)%float = true -> (forall y, d = y -> is_finite y = true) ->
  (0 <=? (if JS.gtb d 0 then x / d else 0))%float = true.
Proof.
  intros Px F. unfold JS.gtb. destruct (0 <? d)%float eqn:P; [|reflexivity].
  apply div_nonneg; auto.
Qed.

(** X10: the guards of the display metrics hold.  For every input, the
    five per-set rates are 0 when [totalSets] is not greater than 0
    (missing, zero, negative or NaN), whatever the normalization used as
    divisor, and the kill efficiency is 0 when [killAttempts] is not
    greater than 0.  On finite counts and a finite (or missing) set count
    no display metric is NaN, and if no count is negative none of them
    is. *)
Theorem displayMetrics_guarded (stats : RawStats) :
  let m := displayMetrics stats in
  let all (P : float -> Prop) :=
    P (killEfficiency m) /\ P (acesPerSet m) /\ P (blocksPerSet m)
    /\ P (digsPerSet m) /\ P (receptionErrorRate m)
    /\ P (attackErrorRate m) in
  let rates (P : float -> Prop) :=
    P (acesPerSet m) /\ P (blocksPerSet m) /\ P (digsPerSet m)
    /\ P (receptionErrorRate m) /\ P (attackErrorRate m) in
  ((0 <? JS.num (totalSets stats))%float = false ->
   rates (fun x => x = 0%float))
  /\ (totalSets stats = None -> rates (fun x => x = 0%float))
  /\ (forall x, totalSets stats = Some x ->
        (x <=? 0)%float = true \/ is_nan x = true ->
        rates (fun x => x = 0%float))
  /\ ((0 <? killAttempts stats)%float = false -> killEfficiency m = 0%float)
  /\ (finiteCounts stats ->
      (forall x, totalSets stats = Some x -> is_finite x = true) ->
      all (fun x => is_nan x = false)
      /\ (nonNegativeCounts stats -> all (fun x => (0 <=? x)%float = true))).
Proof.
  intros m all rates.
  assert (G : (0 <? JS.num (totalSets stats))%float = false ->
              rates (fun x => x = 0%float)).
  { unfold rates, m, displayMetrics, JS.gtb.
    cbn [acesPerSet blocksPerSet digsPerSet receptionErrorRate
         attackErrorRate].
    intros ->. repeat split. }
  split; [exact G|].
  split; [intros E; apply G; rewrite E; reflexivity|].
  split.
  { intros x E H. apply G. rewrite E. cbn [JS.num].
    destruct H as [H|H]; [|apply nan_ltb; now right].
    destruct (0 <? x)%float eqn:P; [|reflexivity].
    apply ltb_antisym in P. congruence. }
  split.
  { unfold m, displayMetrics, JS.gtb. cbn [killEfficiency].
    intros ->. reflexivity. }
  intros Hfin Hsets.
  assert (F : forall k, In k normalizedKeys ->
                        is_finite (rawOf k stats) = true) by exact Hfin.
  assert (Fk := F "kills" ltac:(simpl; tauto)).
  assert (Fa := F "attempts" ltac:(simpl; tauto)).
  assert (Fe := F "errors" ltac:(simpl; tauto)).
  assert (Fs := F "serviceAces" ltac:(simpl; tauto)).
  assert (Fr := F "receptionErrors" ltac:(simpl; tauto)).
  assert (Fd := F "digs" ltac:(simpl; tauto)).
  assert (Fb := F "soloBlocks" ltac:(simpl; tauto)).
  assert (Fc := F "blockAssists" ltac:(simpl; tauto)).
  cbn [rawOf String.eqb Ascii.eqb Bool.eqb] in Fk, Fa, Fe, Fs, Fr, Fd, Fb, Fc.
  assert (S : forall y, JS.num (totalSets stats) = y ->
                        (0 <? y)%float = true -> is_finite y = true).
  { intros y <- P. destruct (totalSets stats) as [x|]; [now apply Hsets|].
    discriminate P. }
  clear G. unfold all, m, displayMetrics, JS.gtb.
  cbn [killEfficiency acesPerSet blocksPerSet digsPerSet receptionErrorRate
       attackErrorRate].
  set (sets := JS.num (totalSets stats)) in *.
  split.
  - destruct (0 <? sets)%float eqn:P.
    + destruct (positive_finite sets (S _ eq_refl P) P) as (Z & _).
      assert (Fsets := S _ eq_refl P).
      repeat split;
        try (apply div_nonzero_number; auto using finite_number,
               add_finite_number).
      destruct (0 <? killAttempts stats)%float eqn:Pa; [|reflexivity].
      destruct (positive_finite _ Fa Pa) as (Za & _).
      apply mul_nonzero_number; [|reflexivity|reflexivity].
      apply div_nonzero_number; auto using finite_number.
    + repeat split.
      destruct (0 <? killAttempts stats)%float eqn:Pa; [|reflexivity].
      destruct (positive_finite _ Fa Pa) as (Za & _).
      apply mul_nonzero_number; [|reflexivity|reflexivity].
      apply div_nonzero_number; auto using finite_number.
  - intros Hpos.
    assert (G : forall k, In k normalizedKeys ->
                          (0 <=? rawOf k stats)%float = true) by exact Hpos.
    assert (Gk := G "kills" ltac:(simpl; tauto)).
    assert (Ge := G "errors" ltac:(simpl; tauto)).
    assert (Gs := G "serviceAces" ltac:(simpl; tauto)).
    assert (Gr := G "receptionErrors" ltac:(simpl; tauto)).
    assert (Gd := G "digs" ltac:(simpl; tauto)).
    assert (Gb := G "soloBlocks" ltac:(simpl; tauto)).
    assert (Gc := G "blockAssists" ltac:(simpl; tauto)).
    cbn [rawOf String.eqb Ascii.eqb Bool.eqb] in Gk, Ge, Gs, Gr, Gd, Gb, Gc.
    assert (K : (0 <=? (if (0 <? killAttempts stats)%float
                        then totalKills stats / killAttempts stats * 100
                        else 0))%float = true).
    { destruct (0 <? killAttempts stats)%float eqn:Pa; [|reflexivity].
      destruct (positive_finite _ Fa Pa) as (_ & ma & ea & Ea).
      apply signed_nonneg.
      apply (mul_signed _ 100 false false _ _ signed_100).
      apply (div_signed _ _ false false ma ea Ea). now apply nonneg_signed. }
    destruct (0 <? sets)%float eqn:P.
    + assert (Fsets := S _ eq_refl P).
      repeat split; auto; apply div_nonneg; auto using add_nonneg.
    + repeat split; auto.
Qed.

Lemma displayMetrics_guarded_witness :
  is_nan (killEfficiency (displayMetrics exampleStats)) = false
  /\ acesPerSet (displayMetrics (withSets (Some nan) exampleStats)) = 0%float
  /\ digsPerSet (displayMetrics (withSets (Some (-1)%float) exampleStats))
     = 0%float.
Proof.
  assert (C : forall sets, finiteCounts (withSets sets exampleStats)).
  { intros sets metric H. simpl in H.
    repeat (destruct H as [<-|H]; [reflexivity|]). contradiction. }
  split; [|split].
  - destruct (displayMetrics_guarded (withSets (Some 3%float) exampleStats))
      as (_ & _ & _ & _ & H).
    apply H; [apply C|]. intros x [= <-]. reflexivity.
  - destruct (displayMetrics_guarded (withSets (Some nan) exampleStats))
      as (_ & _ & H & _).
    apply (H nan); [reflexivity|right; reflexivity].
  - destruct (displayMetrics_guarded
                (withSets (Some (-1)%float) exampleStats))
      as (_ & _ & H & _).
    apply (H (-1)%float); [reflexivity|left; reflexivity].
Defined.

(** *** The practice-focus bullets *)

Lemma weakness_key (Math_log : float -> float)
    (toFixed : float -> nat -> string) (stats : RawStats) (w : Weakness.t) :
  In w (weaknesses (recommendations (analyzeGame Math_log toFixed stats))) ->
  In (Weakness.metric w) normalizedKeys.
Proof.
  intros H. apply weakness_entry in H.
  destruct H as (m & d & Hin & _ & ->). cbn [toWeakness Weakness.metric].
  change normalizedKeys
    with (JS.keys (impacts (analyzeGame Math_log toFixed stats))).
  change m with (fst (m, d)). now apply in_map.
Qed.

(** X11: the drills follow the top weakness: three bullets right after the
    practice-focus header for reception errors, service aces, attempts,
    attack errors, digs and solo blocks, and none for kills, service
    errors and block assists; the test for [Block] is case-sensitive, so of
    the two block metrics only [soloBlocks] gets the blocking drills. *)
Theorem practiceFocus_drills (Math_log : float -> float)
    (toFixed : float -> nat -> string) (stats : RawStats)
    (w : Weakness.t) (ws : list Weakness.t) :
  let r := analyzeGame Math_log toFixed stats in
  let lines :=
    insightsLines toFixed stats (impacts r) (recommendations r) in
  weaknesses (recommendations r) = w :: ws ->
  (exists before,
     lines = (before ++ practiceFocusHeader
                :: drillsFor (Weakness.metric w))%list)
  /\ (drillsFor (Weakness.metric w) = []
      <-> In (Weakness.metric w) ["kills"; "serviceErrors"; "blockAssists"])
  /\ (drillsFor (Weakness.metric w) = blockDrills
      <-> Weakness.metric w = "soloBlocks")
  /\ (drillsFor (Weakness.metric w) <> [] ->
      List.length (drillsFor (Weakness.metric w)) = 3%nat
      /\ Forall (fun d => isBulletLine d = true)
                (drillsFor (Weakness.metric w))).
Proof.
  intros r lines Hw.
  assert (Hk : In (Weakness.metric w) normalizedKeys).
  { apply (weakness_key Math_log toFixed stats). fold r. rewrite Hw.
    now left. }
  split.
  { unfold lines, insightsLines. rewrite Hw. cbn [practiceFocusBullets].
    eexists. rewrite !app_assoc. rewrite <- app_assoc. reflexivity. }
  unfold normalizedKeys in Hk. simpl in Hk.
  repeat (destruct Hk as [<-|Hk];
    [ repeat match goal with
             | |- context [drillsFor ?m] =>
                 let v := eval cbv in (drillsFor m) in
                 change (drillsFor m) with v
             end;
      let b := eval cbv in blockDrills in change blockDrills with b;
      split;
      [ split; intros H;
        first [ discriminate H | reflexivity | simpl; tauto
              | exfalso; simpl in H; intuition discriminate ] |];
      split;
      [ split; intros H; first [ discriminate H | reflexivity ] |];
      intros H; first [ now elim H
                      | split; [reflexivity|repeat constructor] ] |]).
  contradiction.
Qed.

Lemma practiceFocus_drills_witness :
  map Weakness.metric
      (weaknesses (recommendations
         (analyzeGame Math_log_ref Number_toFixed blockAssistStats)))
  = ["blockAssists"]
  /\ exists before,
       insightsLines Number_toFixed blockAssistStats
         (impacts (analyzeGame Math_log_ref Number_toFixed blockAssistStats))
         (recommendations
            (analyzeGame Math_log_ref Number_toFixed blockAssistStats))
       = (before ++ [practiceFocusHeader])%list.
Proof.
  split; [reflexivity|].
  edestruct (practiceFocus_drills Math_log_ref Number_toFixed
               blockAssistStats) as (H & _); [reflexivity|exact H].
Defined.

(** *** What the narrative reports *)

Lemma analyzeGame_record (Math_log : float -> float)
    (toFixed : float -> nat -> string) (stats : RawStats) (metric : string) :
  In metric normalizedKeys ->
  exists d, In (metric, d) (impacts (analyzeGame Math_log toFixed stats))
            /\ Impact.value d
               = (rawOf metric stats * (3.5 / setsUsed stats))%float
            /\ JS.get metric (win RESEARCH_BENCHMARKS)
               = Some (Impact.benchmark d)
            /\ Impact.impact d
               = impactFormula Math_log metric (rawOf metric stats)
                   (setsUsed stats).
Proof.
  unfold normalizedKeys. simpl. intros H.
  repeat (destruct H as [<-|H];
          [eexists; split; [simpl; repeat (try (left; reflexivity); right)
                           |repeat split]|]).
  contradiction.
Qed.

Section ReportFacts.

Variable toFixed : float -> nat -> string.

Lemma prioritiesFrom_nth (ws : list Weakness.t) (k index : nat)
    (w : Weakness.t) (line : string) :
  nth_error ws k = Some w ->
  In line (priorityLines toFixed (index + k) w) ->
  In line (prioritiesFrom toFixed index ws).
Proof.
  revert k index. induction ws as [|w' ws IH]; intros k index Hk Hl.
  - destruct k; discriminate.
  - cbn [prioritiesFrom]. apply in_or_app. destruct k as [|k].
    + injection Hk as ->. rewrite Nat.add_0_r in Hl. now left.
    + right. apply (IH k (S index)); [exact Hk|].
      now rewrite Nat.add_succ_comm.
Qed.

Lemma priorityLines_pushed (stats : RawStats) (impacts : JS.obj Impact.t)
    (r : Recommendations) (k : nat) (w : Weakness.t) (line : string) :
  nth_error (weaknesses r) k = Some w ->
  In line (priorityLines toFixed k w) ->
  In line (insightsLines toFixed stats impacts r).
Proof.
  intros Hk Hl. unfold insightsLines.
  do 2 (apply in_or_app; right). apply in_or_app. left.
  unfold prioritiesBlock.
  destruct (weaknesses r) as [|w0 ws] eqn:E; [destruct k; discriminate|].
  right. now apply (prioritiesFrom_nth _ k 0 w).
Qed.

End ReportFacts.

(** X12: the weakness at position [k] of an analysis carries the normalized
    count [raw * (3.5 / sets)], not the raw one, beside the winning average
    and the impact of its metric; the narrative numbers it [k + 1] and
    prints that normalized count against the winning average. *)
Theorem narrative_reports (Math_log : float -> float)
    (toFixed : float -> nat -> string) (stats : RawStats)
    (k : nat) (w : Weakness.t) :
  let r := analyzeGame Math_log toFixed stats in
  let lines :=
    insightsLines toFixed stats (impacts r) (recommendations r) in
  nth_error (weaknesses (recommendations r)) k = Some w ->
  let metric := Weakness.metric w in
  let raw := rawOf metric stats in
  In metric normalizedKeys
  /\ Weakness.value w = (raw * (3.5 / setsUsed stats))%float
  /\ JS.get metric (win RESEARCH_BENCHMARKS) = Some (Weakness.benchmark w)
  /\ Weakness.impact w = impactFormula Math_log metric raw (setsUsed stats)
  /\ In ("**Priority " ++ string_of_nat (k + 1) ++ ": "
           ++ formatMetricName metric ++ "**") lines
  /\ In ("Your " ++ toFixed (raw * (3.5 / setsUsed stats))%float 1
           ++ " vs winning average of "
           ++ toFixed (Weakness.benchmark w) 1) lines.
Proof.
  intros r lines Hk metric raw.
  assert (Hw : In w (weaknesses (recommendations r)))
    by (eapply nth_error_In; eauto).
  assert (Hm : In metric normalizedKeys)
    by (apply (weakness_key Math_log toFixed stats), Hw).
  destruct (weakness_entry _ _ Hw) as (m & d & Hin & _ & E).
  destruct (analyzeGame_record Math_log toFixed stats metric Hm)
    as (d' & Hin' & Hv & Hb & Hi).
  assert (Em : m = metric) by (unfold metric; now rewrite E).
  subst m.
  assert (d = d')
    by (eapply NoDup_keys_unique;
        [apply (analyzeGame_NoDup Math_log toFixed stats)|exact Hin
        |exact Hin']).
  subst d'.
  assert (Ev : Weakness.value w = Impact.value d) by now rewrite E.
  assert (Eb : Weakness.benchmark w = Impact.benchmark d) by now rewrite E.
  assert (Ei : Weakness.impact w = Impact.impact d) by now rewrite E.
  split; [exact Hm|].
  split; [now rewrite Ev|].
  split; [now rewrite Eb|].
  split; [now rewrite Ei|].
  split.
  - apply (priorityLines_pushed toFixed stats (impacts r) (recommendations r)
             k w); [exact Hk|].
    unfold priorityLines. now left.
  - apply (priorityLines_pushed toFixed stats (impacts r) (recommendations r)
             k w); [exact Hk|].
    unfold priorityLines. right. left. fold metric raw.
    now rewrite Ev, Hv.
Qed.

Lemma narrative_reports_witness :
  In "Your 4.4 vs winning average of 13.9"
     (insightsLines Number_toFixed blockAssistStats
        (impacts (analyzeGame Math_log_ref Number_toFixed blockAssistStats))
        (recommendations
           (analyzeGame Math_log_ref Number_toFixed blockAssistStats))).
Proof.
  edestruct (narrative_reports Math_log_ref Number_toFixed blockAssistStats 0)
    as (_ & _ & _ & _ & _ & H); [reflexivity|exact H].
Defined.

(** * Rounding to nearest, over the rationals

    [binary_round_aux] places a positive rational between two neighbours
    of the format and picks the nearer, the even one on a tie. *)

Local Open Scope Q_scope.

Lemma bpow_pos (e : Z) : 0 < bpow e.
Proof. apply Qpower_0_lt. reflexivity. Qed.

Lemma bpow_add (a b : Z) : bpow (a + b) == bpow a * bpow b.
Proof. apply Qpower_plus. discriminate. Qed.

Lemma bpow_0 : bpow 0 == 1.
Proof. reflexivity. Qed.

Lemma bpow_1 : bpow 1 == 2.
Proof. reflexivity. Qed.

Lemma bpow_succ (a : Z) : bpow (a + 1) == 2 * bpow a.
Proof. rewrite bpow_add, bpow_1. ring. Qed.

Lemma bpow_pred (a : Z) : bpow (a - 1) == bpow a / 2.
Proof.
  assert (H := bpow_succ (a - 1)).
  replace (a - 1 + 1)%Z with a in H by lia. rewrite H. field.
Qed.

Lemma bpow_le (a b : Z) : (a <= b)%Z -> bpow a <= bpow b.
Proof. intros H. apply Qpower_le_compat_l; [exact H|]. discriminate. Qed.

Lemma bpow_lt (a b : Z) : (a < b)%Z -> bpow a < bpow b.
Proof. intros H. apply Qpower_lt_compat_l; [exact H|]. reflexivity. Qed.

Lemma bpow_lt_inv (a b : Z) : bpow a < bpow b -> (a < b)%Z.
Proof. intros H. eapply Qpower_lt_compat_l_inv; [exact H|reflexivity]. Qed.

Lemma bpow_Z (n : Z) : (0 <= n)%Z -> bpow n == inject_Z (2 ^ n).
Proof. intros H. unfold bpow. now rewrite Zpower_Qpower. Qed.

Lemma inject_Z_xO (p : positive) :
  inject_Z (Zpos p~0) == 2 * inject_Z (Zpos p).
Proof. rewrite <- (inject_Z_mult 2). reflexivity. Qed.

Lemma inject_Z_xI (p : positive) :
  inject_Z (Zpos p~1) == 2 * inject_Z (Zpos p) + 1.
Proof. rewrite <- (inject_Z_mult 2), <- (inject_Z_plus _ 1). reflexivity. Qed.

Lemma bpow_m1 : bpow (-1) == 1 # 2.
Proof. reflexivity. Qed.

Lemma bpow_half (a : Z) : bpow (a - 1) == bpow a * (1 # 2).
Proof.
  replace (a - 1)%Z with (a + -1)%Z by lia. now rewrite bpow_add, bpow_m1.
Qed.

(** One shift to the right keeps the location, at half the value. *)
Lemma shr_1_located (r : shr_record) (x : Q) :
  located r x -> located (shr_1 r) (x * (1 # 2)).
Proof.
  unfold located. destruct r as [m rb sb]. cbn [shr_m]. intros [Hm H].
  destruct m as [|[p|p|]|p]; try lia;
    destruct rb, sb; cbn [shr_1 shr_m loc_of_shr_record inbetween orb] in *;
    (split; [lia|]);
    rewrite ?inject_Z_xO, ?inject_Z_xI in H;
    change (inject_Z 0) with 0 in *; change (inject_Z 1) with 1 in *;
    lra.
Qed.

Lemma iter_shr_1_located (p : positive) (r : shr_record) (x : Q) :
  located r x -> located (iter_pos shr_1 p r) (x * bpow (- Zpos p)).
Proof.
  revert r x. induction p as [p IH|p IH|]; intros r x H; simpl iter_pos.
  - apply shr_1_located, IH, IH in H.
    unfold located in *. destruct H as [H0 H]. split; [exact H0|].
    assert (E : x * (1 # 2) * bpow (- Zpos p) * bpow (- Zpos p)
                == x * bpow (- Zpos p~1)).
    { replace (- Zpos p~1)%Z with (-1 + (- Zpos p + - Zpos p))%Z by lia.
      rewrite !bpow_add, bpow_m1. ring. }
    destruct (loc_of_shr_record _) as [|[]]; cbn [inbetween] in *;
      rewrite <- E; exact H.
  - apply IH, IH in H.
    unfold located in *. destruct H as [H0 H]. split; [exact H0|].
    assert (E : x * bpow (- Zpos p) * bpow (- Zpos p)
                == x * bpow (- Zpos p~0)).
    { replace (- Zpos p~0)%Z with (- Zpos p + - Zpos p)%Z by lia.
      rewrite !bpow_add. ring. }
    destruct (loc_of_shr_record _) as [|[]]; cbn [inbetween] in *;
      rewrite <- E; exact H.
  - apply shr_1_located in H. exact H.
Qed.

Lemma located_of_loc (m : Z) (l : location) (x : Q) :
  (0 <= m)%Z -> inbetween m x l -> located (shr_record_of_loc m l) x.
Proof.
  intros Hm H. unfold located. rewrite shr_record_of_loc_m.
  split; [exact Hm|]. destruct l as [|[]]; exact H.
Qed.

(** The bounds a location gives. *)
Lemma inbetween_bounds (m : Z) (x : Q) (l : location) :
  inbetween m x l -> inject_Z m <= x /\ x < inject_Z m + 1.
Proof. destruct l as [|[]]; cbn [inbetween]; lra. Qed.

(** Shifting by [n] places, as [shr] does. *)
Lemma shr_located (m : Z) (l : location) (e n : Z) (x : Q) :
  (0 <= m)%Z -> (0 <= n)%Z -> inbetween m x l ->
  located (fst (shr (shr_record_of_loc m l) e n)) (x * bpow (- n))
  /\ snd (shr (shr_record_of_loc m l) e n) = (e + n)%Z.
Proof.
  intros Hm Hn H. apply located_of_loc in H; [|exact Hm].
  destruct n as [|p|p]; try lia; cbn [shr fst snd].
  - split; [|lia]. unfold located in *. destruct H as [H0 H].
    split; [exact H0|].
    assert (E : x * bpow (- 0) == x) by (change (bpow (-0)) with 1; ring).
    destruct (loc_of_shr_record _) as [|[]]; cbn [inbetween] in *;
      rewrite E; exact H.
  - split; [|reflexivity]. now apply iter_shr_1_located.
Qed.

(** *** Rounding to the nearest integer, ties to even *)

Lemma rne_bounds (m : Z) (l : location) (y : Q) :
  inbetween m y l ->
  (m <= round_nearest_even m l <= m + 1)%Z
  /\ inject_Z (round_nearest_even m l) - (1 # 2) <= y
  /\ y <= inject_Z (round_nearest_even m l) + (1 # 2).
Proof.
  destruct l as [|[]]; cbn [inbetween round_nearest_even]; intros H;
    try destruct (Z.even m); rewrite ?inject_Z_plus;
    change (inject_Z 1) with 1; (split; [lia|lra]).
Qed.

Lemma inject_Z_lt_inv (a b : Z) : inject_Z a < inject_Z b -> (a < b)%Z.
Proof. now rewrite <- Zlt_Qlt. Qed.

Lemma rne_mono (m1 m2 : Z) (l1 l2 : location) (y1 y2 : Q) :
  inbetween m1 y1 l1 -> inbetween m2 y2 l2 -> y1 <= y2 ->
  (round_nearest_even m1 l1 <= round_nearest_even m2 l2)%Z.
Proof.
  intros H1 H2 Hy.
  assert (B1 := inbetween_bounds _ _ _ H1).
  assert (B2 := inbetween_bounds _ _ _ H2).
  assert (Hm : (m1 < m2 + 1)%Z).
  { apply inject_Z_lt_inv. rewrite inject_Z_plus.
    change (inject_Z 1) with 1. lra. }
  destruct (Z.eq_dec m1 m2) as [->|Hne].
  - destruct l1 as [|[]], l2 as [|[]];
      cbn [inbetween round_nearest_even] in *;
      try destruct (Z.even m2); try lia; exfalso; lra.
  - destruct (rne_bounds _ _ _ H1) as [[_ U] _].
    destruct (rne_bounds _ _ _ H2) as [[L _] _]. lia.
Qed.

Local Close Scope Q_scope.
Local Open Scope Z_scope.

Lemma fexp_ge_emin (g : Z) : emin <= fexp prec emax g.
Proof. unfold fexp. lia. Qed.

Lemma Zdigits2_le (n : positive) (k : Z) :
  Zpos n < 2 ^ k -> 0 <= k -> Zpos (digits2_pos n) <= k.
Proof.
  intros H Hk. assert (B := digits2_bounds n).
  destruct (Z_le_gt_dec (Zpos (digits2_pos n)) k) as [L|G]; [exact L|].
  assert (2 ^ k <= 2 ^ (Zpos (digits2_pos n) - 1))
    by (apply Z.pow_le_mono_r; lia).
  lia.
Qed.

Lemma shr_fexp_exact (N E : Z) :
  0 <= N <= 2 ^ prec -> emin <= E ->
  shr_fexp prec emax N E loc_Exact
  = if N =? 2 ^ prec
    then (Build_shr_record (2 ^ (prec - 1)) false false, E + 1)
    else (Build_shr_record N false false, E).
Proof.
  intros HN HE. destruct (N =? 2 ^ prec) eqn:T.
  - apply Z.eqb_eq in T. subst N. unfold shr_fexp.
    change (Zdigits2 (2 ^ prec)) with (prec + 1).
    replace (fexp prec emax (prec + 1 + E) - E) with 1
      by (unfold fexp, emin, prec, emax in *; lia).
    reflexivity.
  - apply Z.eqb_neq in T. unfold shr_fexp.
    assert (K : fexp prec emax (Zdigits2 N + E) - E <= 0).
    { destruct N as [|n|n]; try lia.
      - unfold fexp, emin, prec, emax in *. simpl Zdigits2. lia.
      - assert (D := Zdigits2_le n prec ltac:(lia) ltac:(unfold prec; lia)).
        unfold fexp, emin, prec, emax in *. simpl Zdigits2. lia. }
    destruct (fexp prec emax (Zdigits2 N + E) - E) as [|p|p]; try lia;
      reflexivity.
Qed.

Local Open Scope Q_scope.

(** [binary_round_aux] on a located positive rational: the rational is
    shifted to the exponent [fexp g] of its magnitude [g], rounded to the
    nearest integer and packed. *)
Lemma binary_round_aux_located (s : bool) (m e g : Z) (l : location) (rho : Q) :
  (0 <= m)%Z ->
  inbetween m (rho * bpow (- e)) l ->
  (e <= fexp prec emax g)%Z ->
  fexp prec emax (Zdigits2 m + e) = fexp prec emax g ->
  rho < bpow g ->
  exists m' l',
    (0 <= m')%Z
    /\ inbetween m' (rho * bpow (- fexp prec emax g)) l'
    /\ (round_nearest_even m' l' <= 2 ^ prec)%Z
    /\ binary_round_aux prec emax s m e l
       = pack s (round_nearest_even m' l') (fexp prec emax g).
Proof.
  intros Hm Hin He Hf Hg.
  set (E := fexp prec emax g) in *.
  destruct (shr_located m l e (E - e) _ Hm ltac:(lia) Hin) as [Hloc He'].
  unfold binary_round_aux, shr_fexp at 1. rewrite Hf. fold E.
  destruct (shr (shr_record_of_loc m l) e (E - e)) as [mrs' e'] eqn:S1.
  cbn [fst snd] in Hloc, He'. replace e' with E in * by lia. clear He'.
  destruct Hloc as [Hm' Hloc].
  assert (Ey : rho * bpow (- e) * bpow (- (E - e)) == rho * bpow (- E)).
  { replace (- E)%Z with (- e + - (E - e))%Z by lia. rewrite bpow_add. ring. }
  assert (Hloc' : inbetween (shr_m mrs') (rho * bpow (- E))
                    (loc_of_shr_record mrs')).
  { destruct (loc_of_shr_record mrs') as [|[]]; cbn [inbetween] in *;
      rewrite <- Ey; exact Hloc. }
  clear Hloc Ey.
  exists (shr_m mrs'), (loc_of_shr_record mrs').
  destruct (rne_bounds _ _ _ Hloc') as ([L U] & B1 & B2).
  set (N := round_nearest_even (shr_m mrs') (loc_of_shr_record mrs')) in *.
  assert (HN : (N <= 2 ^ prec)%Z).
  { assert (Y : rho * bpow (- E) < bpow prec).
    { assert (bpow g * bpow (- E) <= bpow prec).
      { rewrite <- bpow_add. apply bpow_le.
        unfold E, fexp. lia. }
      assert (0 < bpow (- E)) by apply bpow_pos.
      nra. }
    assert (B := inbetween_bounds _ _ _ Hloc').
    assert (inject_Z (shr_m mrs') < inject_Z (2 ^ prec)).
    { rewrite <- bpow_Z by (unfold prec; lia). lra. }
    apply inject_Z_lt_inv in H. lia. }
  split; [exact Hm'|]. split; [exact Hloc'|]. split; [exact HN|].
  rewrite (shr_fexp_exact N E) by (unfold E; auto using fexp_ge_emin; lia).
  unfold pack.
  destruct (N =? 2 ^ prec)%Z eqn:T.
  - apply Z.eqb_eq in T. rewrite T. cbn [shr_m]. reflexivity.
  - cbn [shr_m]. destruct N as [|n|n]; try lia; reflexivity.
Qed.

(** ** Rounding is monotone *)

Local Open Scope Z_scope.

Lemma triple_le (a1 b1 c1 a2 b2 c2 : Z) :
  a1 < a2 \/ (a1 = a2 /\ (b1 < b2 \/ (b1 = b2 /\ c1 <= c2))) ->
  (a1 < a2 \/ a1 = a2 /\ (b1 < b2 \/ b1 = b2 /\ c1 < c2))
  \/ (a1, b1, c1) = (a2, b2, c2).
Proof.
  intros H. destruct (Z.eq_dec c1 c2) as [->|Hc].
  - destruct H as [H|[-> [H|[-> _]]]]; [left; lia|left; lia|now right].
  - left. lia.
Qed.

Lemma pack_le (N1 E1 N2 E2 : Z) :
  0 <= N1 <= 2 ^ prec -> 0 <= N2 <= 2 ^ prec ->
  (E1 = E2 /\ N1 <= N2) \/ (E1 < E2 /\ 2 ^ (prec - 1) <= N2) ->
  SFleb (pack false N1 E1) (pack false N2 E2) = true
  /\ SFleb (pack true N2 E2) (pack true N1 E1) = true.
Proof.
  intros H1 H2 H. rewrite !SFleb_iff. unfold pack, is_number.
  change (2 ^ prec) with 9007199254740992 in *.
  change (2 ^ (prec - 1)) with 4503599627370496 in *.
  change (Z.to_pos 4503599627370496) with 4503599627370496%positive.
  change (emax - prec) with 971.
  destruct N1 as [|n1|n1], N2 as [|n2|n2]; try lia;
    repeat match goal with
    | |- context [(?a =? ?b)] => destruct (Z.eqb_spec a b)
    | |- context [(?a <=? ?b)] => destruct (Z.leb_spec a b)
    end;
    cbn [rank]; unfold rank_lt;
    repeat split; try discriminate; try lia; apply triple_le; lia.
Qed.

Local Open Scope Q_scope.

Lemma fexp_mono (g1 g2 : Z) :
  (g1 <= g2)%Z -> (fexp prec emax g1 <= fexp prec emax g2)%Z.
Proof. unfold fexp. lia. Qed.

Lemma rounds_fexp_le (m1 e1 m2 e2 g1 g2 : Z) (l1 l2 : location) (r1 r2 : Q) :
  rounds m1 e1 l1 r1 g1 -> rounds m2 e2 l2 r2 g2 -> r1 <= r2 ->
  (fexp prec emax g1 <= fexp prec emax g2)%Z.
Proof.
  intros (_ & _ & _ & _ & _ & L1) (_ & _ & _ & _ & U2 & _) Hr.
  destruct (Z_lt_le_dec emin (fexp prec emax g1)) as [H|H].
  - apply fexp_mono. specialize (L1 H).
    assert (bpow (g1 - 1) < bpow g2) by lra.
    apply bpow_lt_inv in H0. lia.
  - assert (K := fexp_ge_emin g2). lia.
Qed.

(** Rounding is monotone: a larger rational rounds to a larger number of
    the positive sign, a smaller one of the negative sign. *)
Lemma binary_round_aux_mono (m1 e1 m2 e2 g1 g2 : Z) (l1 l2 : location)
    (r1 r2 : Q) :
  rounds m1 e1 l1 r1 g1 -> rounds m2 e2 l2 r2 g2 -> r1 <= r2 ->
  SFleb (binary_round_aux prec emax false m1 e1 l1)
        (binary_round_aux prec emax false m2 e2 l2) = true
  /\ SFleb (binary_round_aux prec emax true m2 e2 l2)
           (binary_round_aux prec emax true m1 e1 l1) = true.
Proof.
  intros R1 R2 Hr.
  assert (HE := rounds_fexp_le _ _ _ _ _ _ _ _ _ _ R1 R2 Hr).
  destruct R1 as (Hm1 & I1 & He1 & Hf1 & U1 & L1).
  destruct R2 as (Hm2 & I2 & He2 & Hf2 & U2 & L2).
  destruct (binary_round_aux_located false m1 e1 g1 l1 r1 Hm1 I1 He1 Hf1 U1)
    as (a1 & k1 & Ha1 & J1 & B1 & P1).
  destruct (binary_round_aux_located true m1 e1 g1 l1 r1 Hm1 I1 He1 Hf1 U1)
    as (a1' & k1' & Ha1' & J1' & B1' & P1').
  destruct (binary_round_aux_located false m2 e2 g2 l2 r2 Hm2 I2 He2 Hf2 U2)
    as (a2 & k2 & Ha2 & J2 & B2 & P2).
  destruct (binary_round_aux_located true m2 e2 g2 l2 r2 Hm2 I2 He2 Hf2 U2)
    as (a2' & k2' & Ha2' & J2' & B2' & P2').
  rewrite P1, P2, P1', P2'.
  set (E1 := fexp prec emax g1) in *. set (E2 := fexp prec emax g2) in *.
  assert (N0 : forall a k y, (0 <= a)%Z -> inbetween a y k ->
                             (0 <= round_nearest_even a k)%Z).
  { intros a k y Ha Hk. destruct (rne_bounds _ _ _ Hk) as [[L _] _]. lia. }
  assert (Big : (E1 < E2)%Z ->
                forall a k, inbetween a (r2 * bpow (- E2)) k ->
                            (2 ^ (prec - 1) <= round_nearest_even a k)%Z).
  { intros Hlt a k Hk.
    assert (Hn : (emin < E2)%Z) by (assert (K := fexp_ge_emin g1); fold E1 in K; lia).
    specialize (L2 Hn).
    assert (Eg : (g2 - 1 = (prec - 1) + E2)%Z) by (unfold E2, fexp in *; lia).
    rewrite Eg, bpow_add in L2.
    assert (P := bpow_pos E2). assert (Q := bpow_pos (- E2)).
    assert (I : bpow E2 * bpow (- E2) == 1).
    { rewrite <- bpow_add. replace (E2 + - E2)%Z with 0%Z by lia. reflexivity. }
    assert (Y : bpow (prec - 1) <= r2 * bpow (- E2)).
    { setoid_replace (bpow (prec - 1))
        with (bpow (prec - 1) * (bpow E2 * bpow (- E2))) by (rewrite I; ring).
      nra. }
    destruct (rne_bounds _ _ _ Hk) as [[L _] _].
    assert (B := inbetween_bounds _ _ _ Hk).
    assert (inject_Z (2 ^ (prec - 1)) < inject_Z (a + 1)).
    { rewrite <- bpow_Z by (unfold prec; lia). rewrite inject_Z_plus.
      change (inject_Z 1) with 1. lra. }
    apply inject_Z_lt_inv in H. lia. }
  destruct (Z.eq_dec E1 E2) as [Heq|Hne].
  - rewrite <- Heq in *.
    assert (Hy : r1 * bpow (- E1) <= r2 * bpow (- E1))
      by (assert (Q := bpow_pos (- E1)); nra).
    split.
    + apply pack_le; eauto. left. split; [reflexivity|].
      eapply rne_mono; eauto.
    + apply pack_le; eauto. left. split; [reflexivity|].
      eapply rne_mono; eauto.
  - split.
    + apply pack_le; eauto. right. split; [lia|]. apply Big; [lia|exact J2].
    + apply pack_le; eauto. right. split; [lia|]. apply Big; [lia|exact J2'].
Qed.

(** ** The operations round their exact results *)

Local Open Scope Q_scope.

Lemma bpow_inv (e : Z) : bpow e * bpow (- e) == 1.
Proof.
  rewrite <- bpow_add. replace (e + - e)%Z with 0%Z by lia. reflexivity.
Qed.

Lemma digits_bpow (n : positive) :
  bpow (Zpos (digits2_pos n) - 1) <= inject_Z (Zpos n)
  /\ inject_Z (Zpos n) < bpow (Zpos (digits2_pos n)).
Proof.
  assert (B := digits2_bounds n).
  rewrite !bpow_Z by lia. rewrite <- Zle_Qle, <- Zlt_Qlt. exact B.
Qed.

Lemma inject_pos (n : positive) : 0 < inject_Z (Zpos n).
Proof. change 0 with (inject_Z 0). rewrite <- Zlt_Qlt. lia. Qed.

(** An exact mantissa stands for its value. *)
Lemma rounds_exact (M : positive) (e : Z) :
  (e <= fexp prec emax (Zpos (digits2_pos M) + e))%Z ->
  rounds (Zpos M) e loc_Exact (inject_Z (Zpos M) * bpow e)
         (Zpos (digits2_pos M) + e).
Proof.
  intros He. destruct (digits_bpow M) as [L U].
  assert (P := bpow_pos e).
  unfold rounds. split; [lia|].
  split; [cbn [inbetween]; rewrite <- Qmult_assoc, bpow_inv; ring|].
  split; [exact He|]. split; [reflexivity|].
  split; [rewrite bpow_add; nra|].
  intros _. replace (Zpos (digits2_pos M) + e - 1)%Z
    with ((Zpos (digits2_pos M) - 1) + e)%Z by lia.
  rewrite bpow_add. nra.
Qed.

Lemma inject_Z_half (a b : Z) :
  inject_Z a - (1 # 2) <= inject_Z b -> inject_Z b <= inject_Z a + (1 # 2) ->
  a = b.
Proof.
  intros H1 H2.
  assert (inject_Z a < inject_Z (b + 1))
    by (rewrite inject_Z_plus; change (inject_Z 1) with 1; lra).
  assert (inject_Z b < inject_Z (a + 1))
    by (rewrite inject_Z_plus; change (inject_Z 1) with 1; lra).
  apply inject_Z_lt_inv in H, H0. lia.
Qed.

(** A number of the format rounds to itself. *)
Lemma binary_round_aux_id (s : bool) (m : positive) (e : Z) :
  bounded prec emax m e = true ->
  binary_round_aux prec emax s (Zpos m) e loc_Exact = S754_finite s m e.
Proof.
  intros B. destruct (bounded_inv _ _ B) as (He & Hd & Hn).
  assert (Hc : fexp prec emax (Zpos (digits2_pos m) + e) = e).
  { unfold bounded, canonical_mantissa in B.
    apply andb_true_iff in B. destruct B as [B _]. now apply Z.eqb_eq in B. }
  assert (Hx : (e <= emax - prec)%Z).
  { unfold bounded in B. apply andb_true_iff in B. destruct B as [_ B].
    now apply Z.leb_le in B. }
  assert (R := rounds_exact m e ltac:(lia)).
  destruct R as (Hm & I & He' & Hf & U & L).
  destruct (binary_round_aux_located s _ _ _ _ _ Hm I He' Hf U)
    as (a & k & Ha & J & Bd & P).
  rewrite P, Hc. clear P.
  rewrite Hc in J.
  assert (Y : inject_Z (Zpos m) * bpow e * bpow (- e) == inject_Z (Zpos m))
    by (rewrite <- Qmult_assoc, bpow_inv; ring).
  destruct (rne_bounds _ _ _ J) as (_ & B1 & B2).
  rewrite Y in B1, B2.
  rewrite (inject_Z_half _ _ B1 B2).
  unfold pack.
  assert (Zpos m < 2 ^ prec)%Z.
  { assert (D := digits2_bounds m).
    assert (2 ^ Zpos (digits2_pos m) <= 2 ^ prec)%Z
      by (apply Z.pow_le_mono_r; lia). lia. }
  destruct (Z.eqb_spec (Zpos m) (2 ^ prec)); [lia|].
  destruct (Z.leb_spec e (emax - prec)); [reflexivity|lia].
Qed.

Lemma bounded_fexp (m : positive) (e : Z) :
  bounded prec emax m e = true ->
  fexp prec emax (Zpos (digits2_pos m) + e) = e.
Proof.
  unfold bounded, canonical_mantissa. intros B.
  apply andb_true_iff in B. destruct B as [B _]. now apply Z.eqb_eq in B.
Qed.

Lemma inbetween_ext (m : Z) (l : location) (x y : Q) :
  x == y -> inbetween m x l -> inbetween m y l.
Proof. intros E. destruct l as [|[]]; cbn [inbetween]; rewrite E; auto. Qed.

Lemma rounds_ext (m e g : Z) (l : location) (r1 r2 : Q) :
  r1 == r2 -> rounds m e l r1 g -> rounds m e l r2 g.
Proof.
  intros E (R1 & R2 & R3 & R4 & R5 & R6).
  unfold rounds. split; [exact R1|].
  split; [eapply inbetween_ext; [|exact R2]; now rewrite E|].
  split; [exact R3|]. split; [exact R4|].
  split; [now rewrite <- E|]. intros K. rewrite <- E. auto.
Qed.

(** A finite number is its own value, rounded. *)
Lemma rounds_to_id (x : spec_float) :
  valid_binary x = true -> SFfinite x -> rounds_to (SF2Q x) x.
Proof.
  intros V F. destruct x as [s|s| |s m e]; try contradiction.
  - repeat split; cbn [SF2Q]; intros H; try lra. eauto.
  - cbn [valid_binary] in V. assert (Hc := bounded_fexp _ _ V).
    assert (P := inject_pos m). assert (Q := bpow_pos e).
    assert (R := rounds_exact m e ltac:(lia)).
    cbn [SF2Q]. destruct s; repeat split; intros H; try (exfalso; nra).
    + exists (Zpos m), e, loc_Exact, (Zpos (digits2_pos m) + e)%Z.
      split; [|now rewrite binary_round_aux_id].
      eapply rounds_ext; [|exact R]. ring.
    + exists (Zpos m), e, loc_Exact, (Zpos (digits2_pos m) + e)%Z.
      split; [exact R|now rewrite binary_round_aux_id].
Qed.

Lemma rounds_to_ext (v1 v2 : Q) (z : spec_float) :
  v1 == v2 -> rounds_to v1 z -> rounds_to v2 z.
Proof.
  intros E (R0 & Rp & Rn). unfold rounds_to.
  split; [intros H; apply R0; now rewrite E|].
  split; intros H.
  - destruct Rp as (m & e & l & g & R & Z); [now rewrite E|].
    exists m, e, l, g. split; [|exact Z]. eapply rounds_ext; eauto.
  - destruct Rn as (m & e & l & g & R & Z); [now rewrite E|].
    exists m, e, l, g. split; [|exact Z]. eapply rounds_ext; [|exact R].
    now rewrite E.
Qed.

Lemma rounds_to_zero (s : bool) : rounds_to 0 (S754_zero s).
Proof. repeat split; intros H; try lra. eauto. Qed.

(** What is rounded from an exact positive mantissa, with either sign. *)
Lemma rounds_to_exact (s : bool) (M : positive) (e : Z) :
  (e <= fexp prec emax (Zpos (digits2_pos M) + e))%Z ->
  rounds_to ((if s then - inject_Z (Zpos M) else inject_Z (Zpos M)) * bpow e)
            (binary_round_aux prec emax s (Zpos M) e loc_Exact).
Proof.
  intros He. assert (R := rounds_exact M e He).
  assert (P := inject_pos M). assert (Q := bpow_pos e).
  destruct s; repeat split; intros H; try (exfalso; nra).
  - exists (Zpos M), e, loc_Exact, (Zpos (digits2_pos M) + e)%Z.
    split; [|reflexivity]. eapply rounds_ext; [|exact R]. ring.
  - exists (Zpos M), e, loc_Exact, (Zpos (digits2_pos M) + e)%Z.
    split; [exact R|reflexivity].
Qed.

Local Close Scope Q_scope.
Local Open Scope Z_scope.

Lemma Zdigits2_lower (n : positive) (k : Z) :
  2 ^ k <= Zpos n -> 0 <= k -> k + 1 <= Zpos (digits2_pos n).
Proof.
  intros H Hk. assert (B := digits2_bounds n).
  destruct (Z_le_gt_dec (k + 1) (Zpos (digits2_pos n))) as [L|G]; [exact L|].
  assert (2 ^ Zpos (digits2_pos n) <= 2 ^ k)
    by (apply Z.pow_le_mono_r; lia).
  lia.
Qed.

Lemma digits_mul (mx my : positive) :
  Zpos (digits2_pos mx) + Zpos (digits2_pos my) - 1
  <= Zpos (digits2_pos (mx * my)).
Proof.
  assert (Bx := digits2_bounds mx). assert (By := digits2_bounds my).
  assert (H : 2 ^ (Zpos (digits2_pos mx) - 1 + (Zpos (digits2_pos my) - 1))
              <= Zpos (mx * my)).
  { rewrite Z.pow_add_r by lia. rewrite Pos2Z.inj_mul.
    apply Z.mul_le_mono_nonneg; try lia;
      apply Z.pow_nonneg; lia. }
  apply Zdigits2_lower in H; lia.
Qed.

Lemma mul_exponent (mx my : positive) (ex ey : Z) :
  bounded prec emax mx ex = true -> bounded prec emax my ey = true ->
  ex + ey <= fexp prec emax (Zpos (digits2_pos (mx * my)) + (ex + ey)).
Proof.
  intros Bx By.
  destruct (bounded_inv _ _ Bx) as (Hx1 & Hx2 & Hx3).
  destruct (bounded_inv _ _ By) as (Hy1 & Hy2 & Hy3).
  assert (D := digits_mul mx my).
  assert (0 < Zpos (digits2_pos mx)) by lia.
  assert (0 < Zpos (digits2_pos my)) by lia.
  unfold fexp, emin, prec, emax in *.
  destruct (Z.eq_dec ex (-1074)), (Z.eq_dec ey (-1074)); lia.
Qed.

Lemma digits_shift (p d : positive) :
  Zpos (digits2_pos (Pos.iter xO p d)) = Zpos (digits2_pos p) + Zpos d.
Proof.
  induction d as [|d IH] using Pos.peano_ind.
  - simpl. lia.
  - rewrite Pos.iter_succ. cbn [digits2_pos]. lia.
Qed.

Local Open Scope Q_scope.

(** Multiplication rounds the product of the values. *)
Lemma SFmul_rounds_to (x y : spec_float) :
  valid_binary x = true -> valid_binary y = true ->
  SFfinite x -> SFfinite y ->
  rounds_to (SF2Q x * SF2Q y) (SF64mul x y).
Proof.
  intros Vx Vy Fx Fy.
  destruct x as [sx|sx| |sx mx ex], y as [sy|sy| |sy my ey];
    try contradiction; cbn [SF2Q];
    try (eapply rounds_to_ext; [|apply rounds_to_zero]; ring).
  cbn [valid_binary] in Vx, Vy.
  eapply rounds_to_ext;
    [|apply (rounds_to_exact (xorb sx sy) (mx * my) (ex + ey)),
        mul_exponent; assumption].
  rewrite bpow_add, Pos2Z.inj_mul, inject_Z_mult.
  destruct sx, sy; cbn [xorb]; ring.
Qed.

(** [binary_normalize] rounds the integer it is given. *)
Lemma binary_normalize_rounds_to (D e : Z) :
  rounds_to (inject_Z D * bpow e) (binary_normalize prec emax D e false).
Proof.
  destruct D as [|p|p]; cbn [binary_normalize].
  - eapply rounds_to_ext; [|apply rounds_to_zero]. ring.
  - unfold binary_round, shl_align.
    destruct (fexp prec emax (Zpos (digits2_pos p) + e) - e)%Z
      as [|d|d] eqn:K.
    + apply (rounds_to_exact false p e). lia.
    + apply (rounds_to_exact false p e). lia.
    + eapply rounds_to_ext;
        [|apply (rounds_to_exact false (Pos.iter xO p d)
                   (fexp prec emax (Zpos (digits2_pos p) + e)));
          rewrite digits_shift;
          replace (Zpos (digits2_pos p) + Zpos d
                   + fexp prec emax (Zpos (digits2_pos p) + e))%Z
            with (Zpos (digits2_pos p) + e)%Z by lia; lia].
      rewrite iter_xO, inject_Z_mult, <- bpow_Z by lia.
      rewrite <- Qmult_assoc, <- bpow_add.
      replace (Zpos d + fexp prec emax (Zpos (digits2_pos p) + e))%Z
        with e by lia. reflexivity.
  - unfold binary_round, shl_align.
    change (inject_Z (Zneg p)) with (- inject_Z (Zpos p)).
    destruct (fexp prec emax (Zpos (digits2_pos p) + e) - e)%Z
      as [|d|d] eqn:K.
    + apply (rounds_to_exact true p e). lia.
    + apply (rounds_to_exact true p e). lia.
    + eapply rounds_to_ext;
        [|apply (rounds_to_exact true (Pos.iter xO p d)
                   (fexp prec emax (Zpos (digits2_pos p) + e)));
          rewrite digits_shift;
          replace (Zpos (digits2_pos p) + Zpos d
                   + fexp prec emax (Zpos (digits2_pos p) + e))%Z
            with (Zpos (digits2_pos p) + e)%Z by lia; lia].
      rewrite iter_xO, inject_Z_mult, <- bpow_Z by lia.
      setoid_replace (- (inject_Z (Z.pos p) * bpow (Z.pos d))
                      * bpow (fexp prec emax (Z.pos (digits2_pos p) + e)))
        with (- inject_Z (Z.pos p)
              * (bpow (Z.pos d)
                 * bpow (fexp prec emax (Z.pos (digits2_pos p) + e))))
        by ring.
      rewrite <- bpow_add.
      replace (Zpos d + fexp prec emax (Zpos (digits2_pos p) + e))%Z
        with e by lia. reflexivity.
Qed.

Lemma aligned_value (s : bool) (m : positive) (e e' : Z) :
  (e' <= e)%Z ->
  inject_Z (cond_Zopp s (Zpos (fst (shl_align m e e')))) * bpow e'
  == SF2Q (S754_finite s m e).
Proof.
  intros H. rewrite shl_align_le by exact H. cbn [SF2Q].
  assert (E : inject_Z (Zpos m * 2 ^ (e - e')) * bpow e'
              == inject_Z (Zpos m) * bpow e).
  { rewrite inject_Z_mult, <- bpow_Z by lia.
    rewrite <- Qmult_assoc, <- bpow_add.
    replace (e - e' + e')%Z with e by lia. reflexivity. }
  destruct s; cbn [cond_Zopp].
  - rewrite inject_Z_opp.
    setoid_replace (- inject_Z (Zpos m * 2 ^ (e - e')) * bpow e')
      with (- (inject_Z (Zpos m * 2 ^ (e - e')) * bpow e')) by ring.
    rewrite E. ring.
  - exact E.
Qed.

(** Subtraction and addition round the difference and the sum of the
    values. *)
Lemma SFsub_rounds_to (x y : spec_float) :
  valid_binary x = true -> valid_binary y = true ->
  SFfinite x -> SFfinite y ->
  rounds_to (SF2Q x - SF2Q y) (SF64sub x y).
Proof.
  intros Vx Vy Fx Fy.
  destruct x as [sx|sx| |sx mx ex], y as [sy|sy| |sy my ey];
    try contradiction.
  - destruct sx, sy; unfold SF64sub, SFsub;
      (eapply rounds_to_ext; [|apply rounds_to_zero]); cbn [SF2Q]; ring.
  - eapply rounds_to_ext;
      [|apply (rounds_to_id (S754_finite (negb sy) my ey)); [exact Vy|exact I]].
    cbn [SF2Q]. destruct sy; cbn [negb]; ring.
  - eapply rounds_to_ext;
      [|apply (rounds_to_id (S754_finite sx mx ex)); [exact Vx|exact I]].
    cbn [SF2Q]. ring.
  - unfold SF64sub, SFsub.
    eapply rounds_to_ext; [|apply binary_normalize_rounds_to].
    rewrite <- Z.add_opp_r, inject_Z_plus, inject_Z_opp.
    rewrite <- (aligned_value sx mx ex (Z.min ex ey)) by lia.
    rewrite <- (aligned_value sy my ey (Z.min ex ey)) by lia.
    ring.
Qed.

Lemma SFadd_rounds_to (x y : spec_float) :
  valid_binary x = true -> valid_binary y = true ->
  SFfinite x -> SFfinite y ->
  rounds_to (SF2Q x + SF2Q y) (SF64add x y).
Proof.
  intros Vx Vy Fx Fy.
  destruct x as [sx|sx| |sx mx ex], y as [sy|sy| |sy my ey];
    try contradiction.
  - destruct sx, sy; unfold SF64add, SFadd;
      (eapply rounds_to_ext; [|apply rounds_to_zero]); cbn [SF2Q]; ring.
  - eapply rounds_to_ext;
      [|apply (rounds_to_id (S754_finite sy my ey)); [exact Vy|exact I]].
    cbn [SF2Q]. ring.
  - eapply rounds_to_ext;
      [|apply (rounds_to_id (S754_finite sx mx ex)); [exact Vx|exact I]].
    cbn [SF2Q]. ring.
  - unfold SF64add, SFadd.
    eapply rounds_to_ext; [|apply binary_normalize_rounds_to].
    rewrite inject_Z_plus.
    rewrite <- (aligned_value sx mx ex (Z.min ex ey)) by lia.
    rewrite <- (aligned_value sy my ey (Z.min ex ey)) by lia.
    ring.
Qed.

(** *** Division *)

Lemma new_location_correct (n r q : Z) :
  (0 < n)%Z -> (0 <= r < n)%Z ->
  inbetween q (inject_Z q + inject_Z r * / inject_Z n) (new_location n r).
Proof.
  intros Hn Hr.
  assert (Pn : 0 < inject_Z n)
    by (change 0 with (inject_Z 0); rewrite <- Zlt_Qlt; lia).
  assert (Pi : 0 < / inject_Z n) by now apply Qinv_lt_0_compat.
  assert (I : inject_Z n * / inject_Z n == 1)
    by (apply Qmult_inv_r; lra).
  set (t := inject_Z r * / inject_Z n).
  assert (T : t * inject_Z n == inject_Z r)
    by (unfold t; rewrite <- Qmult_assoc, (Qmult_comm (/ _)), I; ring).
  assert (Cmp : forall a b : Z, (a < b)%Z -> inject_Z a < inject_Z b)
    by (intros; now rewrite <- Zlt_Qlt).
  assert (Z0 : r = 0%Z -> t == 0)
    by (intros ->; unfold t; change (inject_Z 0) with 0; ring).
  assert (T01 : r <> 0%Z -> 0 < t /\ t < 1).
  { intros Hr0.
    assert (R0 : 0 < inject_Z r)
      by (change 0 with (inject_Z 0); apply Cmp; lia).
    assert (Rn : inject_Z r < inject_Z n) by (apply Cmp; lia).
    assert (T0 : 0 < t) by (unfold t; nra). split; [exact T0|nra]. }
  unfold new_location. destruct (Z.even n) eqn:Ev.
  - unfold new_location_even.
    destruct (Z.eqb_spec r 0) as [E0|Hr0]; cbn [inbetween];
      [specialize (Z0 E0); lra|].
    destruct (T01 Hr0) as [T0 T1].
    destruct (Z.compare_spec (2 * r) n) as [E|L|G]; cbn [inbetween].
    + assert (2 * inject_Z r == inject_Z n)
        by (rewrite <- E, inject_Z_mult; reflexivity).
      nra.
    + apply Cmp in L. rewrite inject_Z_mult in L.
      change (inject_Z 2) with 2 in L. split; nra.
    + apply Cmp in G. rewrite inject_Z_mult in G.
      change (inject_Z 2) with 2 in G. split; nra.
  - unfold new_location_odd.
    destruct (Z.eqb_spec r 0) as [E0|Hr0]; cbn [inbetween];
      [specialize (Z0 E0); lra|].
    destruct (T01 Hr0) as [T0 T1].
    assert (Odd : (2 * r <> n)%Z).
    { intros E. rewrite <- E, Z.even_mul in Ev. discriminate. }
    destruct (Z.compare_spec (2 * r + 1) n) as [E|L|G]; cbn [inbetween].
    + assert (L : (2 * r < n)%Z) by lia.
      apply Cmp in L. rewrite inject_Z_mult in L.
      change (inject_Z 2) with 2 in L. split; nra.
    + assert (L' : (2 * r < n)%Z) by lia.
      apply Cmp in L'. rewrite inject_Z_mult in L'.
      change (inject_Z 2) with 2 in L'. split; nra.
    + assert (G' : (n < 2 * r)%Z) by lia.
      apply Cmp in G'. rewrite inject_Z_mult in G'.
      change (inject_Z 2) with 2 in G'. split; nra.
Qed.

Lemma rounds_to_signed (s : bool) (m e g : Z) (l : location) (rho : Q) :
  rounds m e l rho g -> 0 < rho ->
  rounds_to (if s then - rho else rho) (binary_round_aux prec emax s m e l).
Proof.
  intros R P. destruct s; repeat split; intros H; try (exfalso; lra).
  - exists m, e, l, g. split; [|reflexivity].
    eapply rounds_ext; [|exact R]. ring.
  - exists m, e, l, g. split; [exact R|reflexivity].
Qed.

Lemma inject_nonneg (z : Z) : (0 <= z)%Z -> 0 <= inject_Z z.
Proof. intros H. change 0 with (inject_Z 0). now rewrite <- Zle_Qle. Qed.

(** The quotient and location computed for a division stand for the
    quotient of the values. *)
Lemma div_core_rounds (mx my : positive) (ex ey : Z) :
  exists g,
    rounds (fst (fst (SFdiv_core_binary prec emax (Zpos mx) ex (Zpos my) ey)))
           (snd (fst (SFdiv_core_binary prec emax (Zpos mx) ex (Zpos my) ey)))
           (snd (SFdiv_core_binary prec emax (Zpos mx) ex (Zpos my) ey))
           (inject_Z (Zpos mx) * / inject_Z (Zpos my) * bpow (ex - ey)) g.
Proof.
  unfold SFdiv_core_binary. cbn [Zdigits2].
  set (d1 := Zpos (digits2_pos mx)). set (d2 := Zpos (digits2_pos my)).
  set (X := (d1 + ex - (d2 + ey))%Z).
  set (e' := Z.min (fexp prec emax X) (ex - ey)).
  set (s := (ex - ey - e')%Z).
  assert (Hs : (0 <= s)%Z) by (unfold s, e'; lia).
  set (m' := match s with
             | Zpos _ => Z.shiftl (Zpos mx) s
             | Z0 => Zpos mx
             | Zneg _ => 0%Z
             end).
  assert (Hm' : m' = (Zpos mx * 2 ^ s)%Z).
  { unfold m'. destruct s as [|p|p] eqn:Es; try lia.
    rewrite Z.shiftl_mul_pow2 by lia. reflexivity. }
  assert (Hdiv := Z_div_mod m' (Zpos my) ltac:(lia)).
  destruct (Z.div_eucl m' (Zpos my)) as [q r]. destruct Hdiv as [Hq Hr].
  cbn [fst snd].
  assert (B1 := digits2_bounds mx). assert (B2 := digits2_bounds my).
  fold d1 in B1. fold d2 in B2.
  assert (P2s : (0 < 2 ^ s)%Z) by (apply Z.pow_pos_nonneg; lia).
  assert (Hq0 : (0 <= q)%Z) by nia.
  assert (Pmy := inject_pos my). assert (Pmx := inject_pos mx).
  assert (Imy : inject_Z (Zpos my) * / inject_Z (Zpos my) == 1)
    by (apply Qmult_inv_r; lra).
  set (rho := inject_Z (Zpos mx) * / inject_Z (Zpos my) * bpow (ex - ey)).
  assert (Y : rho * bpow (- e')
              == inject_Z q + inject_Z r * / inject_Z (Zpos my)).
  { unfold rho.
    setoid_replace (inject_Z (Zpos mx) * / inject_Z (Zpos my)
                    * bpow (ex - ey) * bpow (- e'))
      with (inject_Z (Zpos mx) * (bpow (ex - ey) * bpow (- e'))
            * / inject_Z (Zpos my)) by ring.
    rewrite <- bpow_add. replace (ex - ey + - e')%Z with s by (unfold s; lia).
    rewrite bpow_Z by lia. rewrite <- inject_Z_mult, <- Hm', Hq.
    rewrite inject_Z_plus, inject_Z_mult. field. lra. }
  assert (In : inbetween q (rho * bpow (- e')) (new_location (Zpos my) r)).
  { eapply inbetween_ext; [symmetry; exact Y|].
    apply new_location_correct; lia. }
  assert (Bd := inbetween_bounds _ _ _ In).
  assert (Pe := bpow_pos e'). assert (Ie := bpow_inv e').
  assert (Rho : rho == rho * bpow (- e') * bpow e')
    by (rewrite <- Qmult_assoc, (Qmult_comm (bpow (- e'))), Ie; ring).
  destruct q as [|qp|qp]; try lia.
  - (* the quotient is below one unit *)
    assert (Hlt : (m' < Zpos my)%Z) by lia.
    assert (Hd : (d1 - 1 + s < d2)%Z).
    { apply (Z.pow_lt_mono_r_iff 2); try lia.
      rewrite Z.pow_add_r by lia.
      assert (H0 : (2 ^ (d1 - 1) * 2 ^ s <= Zpos mx * 2 ^ s)%Z)
        by (apply Z.mul_le_mono_nonneg_r; lia).
      lia. }
    assert (He' : (e' <= emin)%Z).
    { unfold e', s, X, fexp, emin, prec, emax in *. lia. }
    assert (Hf : fexp prec emax e' = emin)
      by (unfold fexp, emin, prec, emax in *; lia).
    exists e'. unfold rounds. split; [lia|]. split; [exact In|].
    split; [lia|]. split; [reflexivity|].
    split.
    + change (inject_Z 0) with 0 in Bd. rewrite Rho. nra.
    + intros K. lia.
  - (* at least one unit *)
    set (dq := Zpos (digits2_pos qp)).
    assert (Bq := digits2_bounds qp). fold dq in Bq.
    assert (Hg : (X <= dq + e')%Z).
    { assert (Hd : (d1 + s - d2 <= dq)%Z).
      { destruct (Z_le_gt_dec (d1 + s - d2) 1) as [L|G]; [lia|].
        assert (H0 : (2 ^ (d1 - 1) * 2 ^ s <= Zpos mx * 2 ^ s)%Z)
          by (apply Z.mul_le_mono_nonneg_r; lia).
        assert (H1 : (2 ^ (d1 - 1 + s) < Zpos my * (Zpos qp + 1))%Z)
          by (rewrite Z.pow_add_r by lia; lia).
        assert (H2 : (2 ^ (d1 - 1 + s) < 2 ^ d2 * 2 ^ dq)%Z).
        { eapply Z.lt_le_trans; [exact H1|].
          apply Z.mul_le_mono_nonneg; lia. }
        rewrite <- Z.pow_add_r in H2 by lia.
        apply Z.pow_lt_mono_r_iff in H2; lia. }
      unfold X, s in *. lia. }
    destruct (digits_bpow qp) as [Lq Uq]. fold dq in Lq, Uq.
    exists (dq + e')%Z. unfold rounds. split; [lia|]. split; [exact In|].
    split; [|split; [reflexivity|split]].
    + assert (K := fexp_mono _ _ Hg).
      assert (e' <= fexp prec emax X)%Z by (unfold e'; lia). lia.
    + rewrite bpow_add, Rho.
      assert (inject_Z (Zpos qp) + 1 <= bpow dq).
      { rewrite bpow_Z by lia. change 1 with (inject_Z 1).
        rewrite <- inject_Z_plus, <- Zle_Qle. lia. }
      nra.
    + intros _. replace (dq + e' - 1)%Z with ((dq - 1) + e')%Z by lia.
      rewrite bpow_add, Rho. nra.
Qed.

(** Division rounds the quotient of the values. *)
Lemma SFdiv_rounds_to (x y : spec_float) (sy : bool) (my : positive)
    (ey : Z) :
  y = S754_finite sy my ey -> SFfinite x ->
  rounds_to (SF2Q x * / SF2Q y) (SF64div x y).
Proof.
  intros -> Fx. destruct x as [sx|sx| |sx mx ex]; try contradiction.
  - eapply rounds_to_ext; [|apply rounds_to_zero]. cbn [SF2Q]. ring.
  - unfold SF64div, SFdiv.
    destruct (div_core_rounds mx my ex ey) as [g R].
    destruct (SFdiv_core_binary prec emax (Zpos mx) ex (Zpos my) ey)
      as [[q e'] l]. cbn [fst snd] in R.
    assert (Pmy := inject_pos my). assert (Pmx := inject_pos mx).
    assert (Pe := bpow_pos (ex - ey)).
    assert (Pi : 0 < / inject_Z (Zpos my)) by now apply Qinv_lt_0_compat.
    assert (Pr : 0 < inject_Z (Zpos mx) * / inject_Z (Zpos my)
                     * bpow (ex - ey)).
    { apply Qmult_lt_0_compat; [|exact Pe].
      apply Qmult_lt_0_compat; assumption. }
    eapply rounds_to_ext;
      [|apply (rounds_to_signed (xorb sx sy) _ _ _ _ _ R Pr)].
    cbn [SF2Q].
    assert (Ey : bpow ey * bpow (- ey) == 1) by apply bpow_inv.
    assert (Py := bpow_pos ey).
    assert (Es : bpow (ex - ey) == bpow ex * bpow (- ey)).
    { replace (ex - ey)%Z with (ex + - ey)%Z by lia. apply bpow_add. }
    destruct sx, sy; cbn [xorb]; rewrite Es; field_simplify_eq;
      try (split; lra); try lra.
    all: rewrite <- Qmult_assoc, (Qmult_comm (bpow (- ey)) (bpow ey)), Ey;
      ring.
Qed.

(** ** Order and value *)

Local Open Scope Q_scope.

Lemma signed_leb (a b : spec_float) :
  signed true a -> signed false b -> SFleb a b = true.
Proof.
  destruct a as [sa|sa| |sa ma ea], b as [sb|sb| |sb mb eb];
    cbn [signed]; intros Ha Hb; subst; try contradiction; reflexivity.
Qed.

Lemma rounds_pos (m e g : Z) (l : location) (rho : Q) :
  rounds m e l rho g -> (0 <= m)%Z.
Proof. now intros (H & _). Qed.

(** Rounding is monotone. *)
Lemma rounds_to_mono (v1 v2 : Q) (z1 z2 : spec_float) :
  rounds_to v1 z1 -> rounds_to v2 z2 -> v1 <= v2 -> SFleb z1 z2 = true.
Proof.
  intros (Z1 & P1 & N1) (Z2 & P2 & N2) H.
  destruct (Q_dec v1 0) as [[L1|G1]|E1], (Q_dec v2 0) as [[L2|G2]|E2];
    try (exfalso; lra).
  - destruct (N1 L1) as (m1 & e1 & l1 & g1 & R1 & ->).
    destruct (N2 L2) as (m2 & e2 & l2 & g2 & R2 & ->).
    apply (binary_round_aux_mono _ _ _ _ _ _ _ _ _ _ R2 R1). lra.
  - destruct (N1 L1) as (m1 & e1 & l1 & g1 & R1 & ->).
    destruct (P2 G2) as (m2 & e2 & l2 & g2 & R2 & ->).
    apply signed_leb; apply binary_round_aux_signed;
      eapply rounds_pos; eauto.
  - destruct (N1 L1) as (m1 & e1 & l1 & g1 & R1 & ->).
    destruct (Z2 E2) as [s2 ->].
    apply signed_leb; [|exact I].
    apply binary_round_aux_signed; eapply rounds_pos; eauto.
  - destruct (P1 G1) as (m1 & e1 & l1 & g1 & R1 & ->).
    destruct (P2 G2) as (m2 & e2 & l2 & g2 & R2 & ->).
    apply (binary_round_aux_mono _ _ _ _ _ _ _ _ _ _ R1 R2). exact H.
  - destruct (Z1 E1) as [s1 ->].
    destruct (P2 G2) as (m2 & e2 & l2 & g2 & R2 & ->).
    apply signed_leb; [exact I|].
    apply binary_round_aux_signed; eapply rounds_pos; eauto.
  - destruct (Z1 E1) as [s1 ->]. destruct (Z2 E2) as [s2 ->]. reflexivity.
Qed.

(** *** The order of the format is the order of the values *)

Lemma SFleb_of_value (x y : spec_float) :
  valid_binary x = true -> valid_binary y = true ->
  SFfinite x -> SFfinite y ->
  SF2Q x <= SF2Q y -> SFleb x y = true.
Proof.
  intros Vx Vy Fx Fy H.
  eapply rounds_to_mono; [apply rounds_to_id| apply rounds_to_id|exact H];
    assumption.
Qed.

Lemma rank_value (x y : spec_float) :
  SFfinite x -> SFfinite y -> rank x = rank y -> SF2Q x == SF2Q y.
Proof.
  destruct x as [sx|sx| |sx mx ex], y as [sy|sy| |sy my ey];
    try contradiction; intros _ _; try destruct sx; try destruct sy;
    cbn [rank SF2Q]; intros E; inversion E; subst; try reflexivity.
  replace ex with ey by lia. reflexivity.
Qed.

Lemma SFleb_value (x y : spec_float) :
  valid_binary x = true -> valid_binary y = true ->
  SFfinite x -> SFfinite y ->
  (SFleb x y = true <-> SF2Q x <= SF2Q y).
Proof.
  intros Vx Vy Fx Fy. split; [|now apply SFleb_of_value].
  intros L. destruct (Qlt_le_dec (SF2Q y) (SF2Q x)) as [G|G]; [|exact G].
  exfalso.
  assert (L' : SFleb y x = true) by (apply SFleb_of_value; auto; lra).
  rewrite SFleb_iff in L, L'.
  destruct L as (_ & _ & [L|L]), L' as (_ & _ & [L'|L']).
  - unfold rank_lt in *.
    destruct (rank x) as [[? ?] ?], (rank y) as [[? ?] ?]. lia.
  - assert (E := rank_value _ _ Fy Fx L'). lra.
  - assert (E := rank_value _ _ Fx Fy L). lra.
  - assert (E := rank_value _ _ Fx Fy L). lra.
Qed.

Lemma SFltb_value (x y : spec_float) :
  valid_binary x = true -> valid_binary y = true ->
  SFfinite x -> SFfinite y ->
  (SFltb x y = true <-> SF2Q x < SF2Q y).
Proof.
  intros Vx Vy Fx Fy.
  assert (A := SFleb_value x y Vx Vy Fx Fy).
  assert (B := SFleb_value y x Vy Vx Fy Fx).
  rewrite SFleb_iff in A, B. rewrite SFltb_iff.
  assert (Nx : is_number x) by (destruct x; try contradiction; discriminate).
  assert (Ny : is_number y) by (destruct y; try contradiction; discriminate).
  split.
  - intros (_ & _ & L).
    destruct (Qlt_le_dec (SF2Q x) (SF2Q y)) as [G|G]; [exact G|exfalso].
    apply B in G. destruct G as (_ & _ & [G|G]).
    + unfold rank_lt in *.
      destruct (rank x) as [[? ?] ?], (rank y) as [[? ?] ?]. lia.
    + rewrite G in L. unfold rank_lt in L.
      destruct (rank x) as [[? ?] ?]. lia.
  - intros L. split; [exact Nx|]. split; [exact Ny|].
    assert (L' : SF2Q x <= SF2Q y) by lra.
    apply A in L'. destruct L' as (_ & _ & [K|K]); [exact K|exfalso].
    assert (E := rank_value _ _ Fx Fy K). lra.
Qed.

(** ** Monotone operations *)

Local Open Scope Q_scope.

Lemma rounds_to_number (v : Q) (z : spec_float) :
  rounds_to v z -> is_number z.
Proof.
  intros (Z0 & P & N). unfold is_number.
  destruct (Q_dec v 0) as [[L|G]|E].
  - destruct (N L) as (m & e & l & g & R & ->).
    assert (S := binary_round_aux_signed true m e l (rounds_pos _ _ _ _ _ R)).
    intros E. rewrite E in S. exact S.
  - destruct (P G) as (m & e & l & g & R & ->).
    assert (S := binary_round_aux_signed false m e l (rounds_pos _ _ _ _ _ R)).
    intros E. rewrite E in S. exact S.
  - destruct (Z0 E) as [s ->]. discriminate.
Qed.

Lemma SFleb_inf_l (z : spec_float) :
  is_number z -> SFleb (S754_infinity true) z = true.
Proof.
  unfold is_number. destruct z as [s|s| |s m e]; try congruence;
    intros _; try destruct s; reflexivity.
Qed.

Lemma SFleb_inf_r (z : spec_float) :
  is_number z -> SFleb z (S754_infinity false) = true.
Proof.
  unfold is_number. destruct z as [s|s| |s m e]; try congruence;
    intros _; try destruct s; reflexivity.
Qed.

(** An operation that rounds an increasing function of the value, and
    keeps the infinities, is increasing; one that rounds a decreasing
    function, and swaps them, is decreasing. *)
Lemma SF_increasing (f : spec_float -> spec_float) (phi : Q -> Q) :
  (forall x, valid_binary x = true -> SFfinite x ->
             rounds_to (phi (SF2Q x)) (f x)) ->
  (forall a b, a <= b -> phi a <= phi b) ->
  f (S754_infinity true) = S754_infinity true ->
  f (S754_infinity false) = S754_infinity false ->
  forall x y, valid_binary x = true -> valid_binary y = true ->
              SFleb x y = true -> SFleb (f x) (f y) = true.
Proof.
  intros Hr Hphi Hn Hp x y Vx Vy L.
  assert (Num : forall z, valid_binary z = true -> is_number z ->
                          is_number (f z)).
  { intros z Vz Nz. destruct z as [s|s| |s m e].
    - eapply rounds_to_number, Hr; [exact Vz|exact I].
    - destruct s; [rewrite Hn|rewrite Hp]; discriminate.
    - now elim Nz.
    - eapply rounds_to_number, Hr; [exact Vz|exact I]. }
  assert (Nx : is_number x) by (rewrite SFleb_iff in L; tauto).
  assert (Ny : is_number y) by (rewrite SFleb_iff in L; tauto).
  destruct x as [sx|sx| |sx mx ex]; try (now elim Nx).
  - destruct y as [sy|sy| |sy my ey]; try (now elim Ny).
    + eapply rounds_to_mono; [apply Hr|apply Hr|apply Hphi]; auto;
        try exact I. apply SFleb_value; auto; exact I.
    + destruct sy; [discriminate L|]. rewrite Hp. apply SFleb_inf_r.
      apply Num; auto.
    + eapply rounds_to_mono; [apply Hr|apply Hr|apply Hphi]; auto;
        try exact I. apply SFleb_value; auto; exact I.
  - destruct sx.
    + rewrite Hn. apply SFleb_inf_l. apply Num; auto.
    + destruct y as [sy|sy| |sy my ey]; try (now elim Ny);
        try destruct sy; try discriminate L.
      rewrite Hp. reflexivity.
  - destruct y as [sy|sy| |sy my ey]; try (now elim Ny).
    + eapply rounds_to_mono; [apply Hr|apply Hr|apply Hphi]; auto;
        try exact I. apply SFleb_value; auto; exact I.
    + destruct sy; [destruct sx; discriminate L|].
      rewrite Hp. apply SFleb_inf_r. apply Num; auto.
    + eapply rounds_to_mono; [apply Hr|apply Hr|apply Hphi]; auto;
        try exact I. apply SFleb_value; auto; exact I.
Qed.

Lemma SF_decreasing (f : spec_float -> spec_float) (phi : Q -> Q) :
  (forall x, valid_binary x = true -> SFfinite x ->
             rounds_to (phi (SF2Q x)) (f x)) ->
  (forall a b, a <= b -> phi b <= phi a) ->
  f (S754_infinity true) = S754_infinity false ->
  f (S754_infinity false) = S754_infinity true ->
  forall x y, valid_binary x = true -> valid_binary y = true ->
              SFleb x y = true -> SFleb (f y) (f x) = true.
Proof.
  intros Hr Hphi Hn Hp x y Vx Vy L.
  assert (Num : forall z, valid_binary z = true -> is_number z ->
                          is_number (f z)).
  { intros z Vz Nz. destruct z as [s|s| |s m e].
    - eapply rounds_to_number, Hr; [exact Vz|exact I].
    - destruct s; [rewrite Hn|rewrite Hp]; discriminate.
    - now elim Nz.
    - eapply rounds_to_number, Hr; [exact Vz|exact I]. }
  assert (Nx : is_number x) by (rewrite SFleb_iff in L; tauto).
  assert (Ny : is_number y) by (rewrite SFleb_iff in L; tauto).
  destruct x as [sx|sx| |sx mx ex]; try (now elim Nx).
  - destruct y as [sy|sy| |sy my ey]; try (now elim Ny).
    + eapply rounds_to_mono; [apply Hr|apply Hr|apply Hphi]; auto;
        try exact I. apply SFleb_value; auto; exact I.
    + destruct sy; [discriminate L|]. rewrite Hp. apply SFleb_inf_l.
      apply Num; auto.
    + eapply rounds_to_mono; [apply Hr|apply Hr|apply Hphi]; auto;
        try exact I. apply SFleb_value; auto; exact I.
  - destruct sx.
    + rewrite Hn. apply SFleb_inf_r. apply Num; auto.
    + destruct y as [sy|sy| |sy my ey]; try (now elim Ny);
        try destruct sy; try discriminate L.
      rewrite Hp. reflexivity.
  - destruct y as [sy|sy| |sy my ey]; try (now elim Ny).
    + eapply rounds_to_mono; [apply Hr|apply Hr|apply Hphi]; auto;
        try exact I. apply SFleb_value; auto; exact I.
    + destruct sy; [destruct sx; discriminate L|].
      rewrite Hp. apply SFleb_inf_l. apply Num; auto.
    + eapply rounds_to_mono; [apply Hr|apply Hr|apply Hphi]; auto;
        try exact I. apply SFleb_value; auto; exact I.
Qed.

(** ** Products, differences and quotients of floats *)

Local Open Scope Q_scope.

Lemma finite_value_pos (m : positive) (e : Z) :
  0 < inject_Z (Zpos m) * bpow e.
Proof. apply Qmult_lt_0_compat; [apply inject_pos|apply bpow_pos]. Qed.

Lemma is_finite_SFfinite (x : float) :
  is_finite x = true -> SFfinite (Prim2SF x).
Proof.
  intros F. destruct (is_finite_inv x F) as [[s ->]|(s & m & e & ->)];
    exact I.
Qed.

Lemma leb_value (x y : float) :
  is_finite x = true -> is_finite y = true ->
  ((x <=? y)%float = true <-> B2Q x <= B2Q y).
Proof.
  intros Fx Fy. rewrite leb_spec.
  apply SFleb_value; auto using Prim2SF_valid, is_finite_SFfinite.
Qed.

Lemma ltb_value (x y : float) :
  is_finite x = true -> is_finite y = true ->
  ((x <? y)%float = true <-> B2Q x < B2Q y).
Proof.
  intros Fx Fy. rewrite ltb_spec.
  apply SFltb_value; auto using Prim2SF_valid, is_finite_SFfinite.
Qed.

(** *** The operations are monotone *)

Lemma mul_increasing (x y c : float) :
  is_finite c = true -> (0 <? c)%float = true ->
  (x <=? y)%float = true -> (x * c <=? y * c)%float = true.
Proof.
  intros Fc Pc L. rewrite leb_spec in *. rewrite !mul_spec.
  destruct (proj1 (finite_sign_inv c Fc) Pc) as (m & e & Ec).
  assert (Vc := Prim2SF_valid c). rewrite Ec in *.
  apply (SF_increasing (fun z => SF64mul z (S754_finite false m e))
           (fun a => a * SF2Q (S754_finite false m e)));
    auto using Prim2SF_valid.
  - intros z Vz Fz. apply SFmul_rounds_to; auto. exact I.
  - intros a b H. cbn [SF2Q]. assert (P := finite_value_pos m e).
    apply Qmult_le_compat_r; lra.
Qed.

Lemma mul_decreasing (x y c : float) :
  is_finite c = true -> (c <? 0)%float = true ->
  (x <=? y)%float = true -> (y * c <=? x * c)%float = true.
Proof.
  intros Fc Pc L. rewrite leb_spec in *. rewrite !mul_spec.
  destruct (proj2 (finite_sign_inv c Fc) Pc) as (m & e & Ec).
  assert (Vc := Prim2SF_valid c). rewrite Ec in *.
  apply (SF_decreasing (fun z => SF64mul z (S754_finite true m e))
           (fun a => a * SF2Q (S754_finite true m e)));
    auto using Prim2SF_valid.
  - intros z Vz Fz. apply SFmul_rounds_to; auto. exact I.
  - intros a b H. cbn [SF2Q]. assert (P := finite_value_pos m e).
    set (k := inject_Z (Zpos m) * bpow e) in *.
    setoid_replace (b * (- inject_Z (Zpos m) * bpow e)) with (- (b * k))
      by (unfold k; ring).
    setoid_replace (a * (- inject_Z (Zpos m) * bpow e)) with (- (a * k))
      by (unfold k; ring).
    assert (a * k <= b * k) by (apply Qmult_le_compat_r; lra). lra.
Qed.

Lemma sub_increasing (x y b : float) :
  is_finite b = true ->
  (x <=? y)%float = true -> (x - b <=? y - b)%float = true.
Proof.
  intros Fb L. rewrite leb_spec in *. rewrite !sub_spec.
  assert (Vb := Prim2SF_valid b).
  assert (Sb := is_finite_SFfinite b Fb).
  apply (SF_increasing (fun z => SF64sub z (Prim2SF b))
           (fun a => a - SF2Q (Prim2SF b)));
    auto using Prim2SF_valid.
  - intros z Vz Fz. apply SFsub_rounds_to; auto.
  - intros a c H. lra.
  - destruct (Prim2SF b); try contradiction; reflexivity.
  - destruct (Prim2SF b); try contradiction; reflexivity.
Qed.

Lemma div_increasing (x y d : float) :
  is_finite d = true -> (0 <? d)%float = true ->
  (x <=? y)%float = true -> (x / d <=? y / d)%float = true.
Proof.
  intros Fd Pd L. rewrite leb_spec in *. rewrite !div_spec.
  destruct (proj1 (finite_sign_inv d Fd) Pd) as (m & e & Ed).
  rewrite Ed in *.
  apply (SF_increasing (fun z => SF64div z (S754_finite false m e))
           (fun a => a * / SF2Q (S754_finite false m e)));
    auto using Prim2SF_valid.
  - intros z Vz Fz. eapply SFdiv_rounds_to; eauto.
  - intros a b H. cbn [SF2Q]. assert (P := finite_value_pos m e).
    apply Qmult_le_compat_r; [exact H|].
    apply Qlt_le_weak, Qinv_lt_0_compat, P.
Qed.

(** *** The impact never moves against the odds ratio *)

Lemma impactFormula_increasing (Math_log : float -> float) (metric : string)
    (raw raw' sets b : float) :
  soundLog Math_log ->
  JS.get metric (win RESEARCH_BENCHMARKS) = Some b ->
  is_finite (3.5 / sets)%float = true ->
  (0 <=? 3.5 / sets)%float = true ->
  is_finite raw = true -> is_finite raw' = true ->
  (raw <=? raw')%float = true ->
  let oddsRatio := JS.num (JS.get metric ODDS_RATIOS) in
  ((1 <? oddsRatio)%float = true ->
   (impactFormula Math_log metric raw sets
    <=? impactFormula Math_log metric raw' sets)%float = true)
  /\ ((oddsRatio <? 1)%float = true ->
      (impactFormula Math_log metric raw' sets
       <=? impactFormula Math_log metric raw sets)%float = true).
Proof.
  intros Hlog Hb Ff Pf Fr Fr' L oddsRatio.
  destruct (win_odds_inv metric b Hb) as (Fb & _ & Hin).
  destruct Hlog as (Hl & F2 & P2).
  destruct (Hl _ Hin) as (Fl & Pos & Neg).
  unfold impactFormula. rewrite Hb. cbn [JS.num]. fold oddsRatio.
  set (f := (3.5 / sets)%float) in *.
  assert (V : (raw * f <=? raw' * f)%float = true).
  { rewrite leb_spec, !mul_spec.
    assert (Sf := is_finite_SFfinite f Ff).
    eapply rounds_to_mono;
      [apply SFmul_rounds_to|apply SFmul_rounds_to|];
      auto using Prim2SF_valid, is_finite_SFfinite.
    apply (leb_value raw raw' Fr Fr') in L. unfold B2Q in L.
    assert (Z : 0 <= SF2Q (Prim2SF f)).
    { apply (leb_value 0 f eq_refl Ff) in Pf. exact Pf. }
    nra. }
  assert (D := sub_increasing _ _ b Fb V).
  split; intros Hr.
  - specialize (Pos Hr).
    apply div_increasing; [exact F2|exact P2|].
    apply mul_increasing; [reflexivity|reflexivity|].
    apply mul_increasing; assumption.
  - specialize (Neg Hr).
    apply div_increasing; [exact F2|exact P2|].
    apply mul_increasing; [reflexivity|reflexivity|].
    apply mul_decreasing; assumption.
Qed.

(** ** The rounding error *)

Local Open Scope Q_scope.

Lemma pack_value (s : bool) (N E : Z) :
  (0 <= N <= 2 ^ prec)%Z -> (E + 1 <= emax - prec)%Z ->
  SFfinite (pack s N E)
  /\ SF2Q (pack s N E)
     == (if s then - inject_Z N else inject_Z N) * bpow E.
Proof.
  intros HN HE. unfold pack.
  destruct N as [|n|n]; try lia.
  - split; [exact I|]. cbn [SF2Q]. destruct s; ring.
  - destruct (Z.eqb_spec (Zpos n) (2 ^ prec)) as [T|T].
    + destruct (Z.leb_spec (E + 1) (emax - prec)); [|lia].
      split; [exact I|]. cbn [SF2Q]. rewrite T, bpow_succ.
      change (Z.to_pos (2 ^ (prec - 1))) with 4503599627370496%positive.
      change (inject_Z (2 ^ prec)) with (2 * inject_Z 4503599627370496).
      destruct s; ring.
    + destruct (Z.leb_spec E (emax - prec)); [|lia].
      split; [exact I|]. reflexivity.
Qed.

(** The result of rounding a positive rational below the overflow
    threshold is finite and near it. *)
Lemma rounds_near (s : bool) (m e g : Z) (l : location) (rho : Q) :
  rounds m e l rho g -> 0 < rho -> rho < bpow (emax - 1) ->
  near (if s then - rho else rho) (binary_round_aux prec emax s m e l).
Proof.
  intros (Hm & I & He & Hf & U & L) P Ov.
  destruct (binary_round_aux_located s m e g l rho Hm I He Hf U)
    as (a & k & Ha & J & Bd & Pk).
  rewrite Pk. clear Pk.
  set (E := fexp prec emax g) in *.
  destruct (rne_bounds _ _ _ J) as ([L0 U0] & B1 & B2).
  set (N := round_nearest_even a k) in *.
  assert (HE : (E + 1 <= emax - prec)%Z).
  { destruct (Z_lt_le_dec emin E) as [H|H].
    - specialize (L H).
      assert (bpow (g - 1) < bpow (emax - 1)) by lra.
      apply bpow_lt_inv in H0. unfold E, fexp, emin, prec, emax in *. lia.
    - unfold emin, prec, emax in *. lia. }
  destruct (pack_value s N E ltac:(lia) HE) as [Fz Vz].
  assert (Err : bpow (E - 1) <= rho * u64 + eta64).
  { assert (Pu : 0 < rho * u64)
      by (apply Qmult_lt_0_compat; [exact P|apply bpow_pos]).
    assert (Pe : 0 < eta64) by apply bpow_pos.
    destruct (Z_lt_le_dec emin E) as [H|H].
    - specialize (L H).
      assert (Eg : (E - 1 = (g - 1) + - prec)%Z)
        by (unfold E, fexp in *; lia).
      rewrite Eg, bpow_add. fold u64.
      assert (Pu' : 0 < u64) by apply bpow_pos.
      assert (Hm' : bpow (g - 1) * u64 <= rho * u64)
        by (apply Qmult_le_compat_r; lra).
      lra.
    - assert (K := fexp_ge_emin g). fold E in K.
      replace E with emin by lia. unfold eta64. lra. }
  assert (PE := bpow_pos E). assert (IE := bpow_inv E).
  assert (Hh : bpow (E - 1) == bpow E * (1 # 2)) by apply bpow_half.
  assert (Y : rho == rho * bpow (- E) * bpow E)
    by (rewrite <- Qmult_assoc, (Qmult_comm (bpow (- E))), IE; ring).
  set (y := rho * bpow (- E)) in *.
  assert (A1 : inject_Z N * bpow E - rho <= bpow (E - 1)).
  { rewrite Hh, Y. nra. }
  assert (A2 : rho - inject_Z N * bpow E <= bpow (E - 1)).
  { rewrite Hh, Y. nra. }
  unfold near. split; [exact Fz|]. rewrite Vz.
  destruct s.
  - rewrite Qabs_opp, (Qabs_pos rho) by lra. split; lra.
  - rewrite (Qabs_pos rho) by lra. split; lra.
Qed.

Lemma rounds_to_near (v : Q) (z : spec_float) :
  rounds_to v z -> Qabs v < bpow (emax - 1) -> near v z.
Proof.
  intros (Z0 & P & N) Ov.
  destruct (Q_dec v 0) as [[L|G]|E].
  - destruct (N L) as (m & e & l & g & R & ->).
    rewrite Qabs_neg in Ov by lra.
    assert (K := rounds_near true m e g l (- v) R ltac:(lra) Ov).
    unfold near in *. destruct K as (K1 & K2 & K3).
    assert (Ea : Qabs (- - v) == Qabs v) by (rewrite !Qabs_opp; reflexivity).
    rewrite Ea in K2, K3. split; [exact K1|]. split; lra.
  - destruct (P G) as (m & e & l & g & R & ->).
    rewrite Qabs_pos in Ov by lra.
    exact (rounds_near false m e g l v R G Ov).
  - destruct (Z0 E) as [s ->]. unfold near. split; [exact I|].
    cbn [SF2Q]. rewrite E. change (Qabs 0) with 0.
    assert (0 < eta64) by apply bpow_pos. split; lra.
Qed.

(** *** On floats *)

Lemma SFfinite_is_finite (x : float) :
  SFfinite (Prim2SF x) -> is_finite x = true.
Proof.
  intros F. unfold is_finite, is_infinity.
  assert (N : is_nan x = false).
  { apply is_nan_false. destruct (Prim2SF x); try contradiction;
      discriminate. }
  rewrite N, eqb_spec, abs_spec.
  destruct (Prim2SF x) as [s|s| |s m e]; try contradiction; reflexivity.
Qed.

Lemma mul_near (x y : float) :
  is_finite x = true -> is_finite y = true ->
  Qabs (B2Q x * B2Q y) < bpow (emax - 1) ->
  near (B2Q x * B2Q y) (Prim2SF (x * y)).
Proof.
  intros Fx Fy Ov. rewrite mul_spec. apply rounds_to_near; [|exact Ov].
  apply SFmul_rounds_to; auto using Prim2SF_valid, is_finite_SFfinite.
Qed.

Lemma sub_near (x y : float) :
  is_finite x = true -> is_finite y = true ->
  Qabs (B2Q x - B2Q y) < bpow (emax - 1) ->
  near (B2Q x - B2Q y) (Prim2SF (x - y)).
Proof.
  intros Fx Fy Ov. rewrite sub_spec. apply rounds_to_near; [|exact Ov].
  apply SFsub_rounds_to; auto using Prim2SF_valid, is_finite_SFfinite.
Qed.

Lemma div_near (x y : float) :
  is_finite x = true -> is_finite y = true -> (y =? 0)%float = false ->
  Qabs (B2Q x * / B2Q y) < bpow (emax - 1) ->
  near (B2Q x * / B2Q y) (Prim2SF (x / y)).
Proof.
  intros Fx Fy Zy Ov. rewrite div_spec. apply rounds_to_near; [|exact Ov].
  destruct (finite_nonzero_inv y Fy Zy) as (s & m & e & E).
  eapply SFdiv_rounds_to; eauto using is_finite_SFfinite.
Qed.

(** ** Separation survives the operations *)

Local Open Scope Q_scope.

Lemma u64_value : u64 == 1 # 9007199254740992.
Proof. reflexivity. Qed.

Lemma eta64_small : 0 < eta64 /\ eta64 <= 1 # 1152921504606846976.
Proof. split; [apply bpow_pos|]. vm_compute. discriminate. Qed.

Lemma big_no_overflow : 2 * big <= bpow (emax - 1).
Proof. vm_compute. discriminate. Qed.

Lemma near_bounds (v W : Q) (z : float) :
  near v (Prim2SF z) -> 1 <= W -> - W <= v -> v <= W ->
  is_finite z = true
  /\ B2Q z <= v + W * (3 # 18014398509481984)
  /\ v - W * (3 # 18014398509481984) <= B2Q z.
Proof.
  intros (F & N1 & N2) HW L U.
  split; [now apply SFfinite_is_finite|].
  assert (A : Qabs v <= W) by (apply Qabs_Qle_condition; lra).
  assert (Pu : 0 <= u64) by (rewrite u64_value; discriminate).
  assert (Qabs v * u64 <= W * u64) by (apply Qmult_le_compat_r; lra).
  assert (Eu : W * u64 == W * (1 # 9007199254740992))
    by (rewrite u64_value; reflexivity).
  destruct eta64_small as [E0 E1].
  unfold B2Q. split; lra.
Qed.

Lemma no_overflow (v W : Q) :
  - W <= v -> v <= W -> W <= big -> Qabs v < bpow (emax - 1).
Proof.
  intros L U B. assert (O := big_no_overflow).
  assert (0 < big) by reflexivity.
  apply Qle_lt_trans with W; [apply Qabs_Qle_condition; lra|]. lra.
Qed.

(** Multiplying both by a positive float keeps them apart. *)
Lemma apart_mul_pos (a b kappa c d : Q) (x x' f : float) :
  apart a b kappa x x' ->
  is_finite f = true -> c <= B2Q f -> B2Q f <= d -> 0 < c ->
  0 < a -> 1 <= a * c -> b * d <= big -> 0 <= kappa ->
  apart (2 * (a * c)) (2 * (b * d)) ((kappa - 3 * u64) * (1 # 2))
        (x * f) (x' * f).
Proof.
  intros (V & (Ha & Hb & L1 & U1 & L2 & U2 & G) & Fx & Fx') Ff Hc Hd Pc Pa
         Hac Hbd Hk.
  set (C := B2Q f) in *. set (W := V * C).
  assert (W1 : a * c <= W) by (unfold W; nra).
  assert (W2 : W <= b * d) by (unfold W; nra).
  assert (X1 : - W <= B2Q x * C /\ B2Q x * C <= W) by (unfold W; nra).
  assert (X2 : - W <= B2Q x' * C /\ B2Q x' * C <= W) by (unfold W; nra).
  assert (GW : kappa * W <= B2Q x' * C - B2Q x * C) by (unfold W; nra).
  destruct X1 as [X1 X1'], X2 as [X2 X2'].
  destruct (near_bounds _ W _
              (mul_near x f Fx Ff (no_overflow _ W X1 X1' ltac:(lra)))
              ltac:(lra) X1 X1') as (F1 & N1 & N1').
  destruct (near_bounds _ W _
              (mul_near x' f Fx' Ff (no_overflow _ W X2 X2' ltac:(lra)))
              ltac:(lra) X2 X2') as (F2 & N2 & N2').
  exists (2 * W). split; [|split; assumption].
  fold C in N1, N1', N2, N2'. rewrite u64_value.
  repeat split; try lra; nra.
Qed.

(** Multiplying both by a negative float swaps them. *)
Lemma apart_mul_neg (a b kappa c d : Q) (x x' f : float) :
  apart a b kappa x x' ->
  is_finite f = true -> c <= - B2Q f -> - B2Q f <= d -> 0 < c ->
  0 < a -> 1 <= a * c -> b * d <= big -> 0 <= kappa ->
  apart (2 * (a * c)) (2 * (b * d)) ((kappa - 3 * u64) * (1 # 2))
        (x' * f) (x * f).
Proof.
  intros (V & (Ha & Hb & L1 & U1 & L2 & U2 & G) & Fx & Fx') Ff Hc Hd Pc Pa
         Hac Hbd Hk.
  set (C := - B2Q f) in *. set (W := V * C).
  assert (EC : B2Q f == - C) by (unfold C; ring).
  assert (W1 : a * c <= W) by (unfold W; nra).
  assert (W2 : W <= b * d) by (unfold W; nra).
  assert (X1 : - W <= B2Q x * B2Q f /\ B2Q x * B2Q f <= W)
    by (rewrite EC; unfold W; nra).
  assert (X2 : - W <= B2Q x' * B2Q f /\ B2Q x' * B2Q f <= W)
    by (rewrite EC; unfold W; nra).
  assert (GW : kappa * W <= B2Q x * B2Q f - B2Q x' * B2Q f)
    by (rewrite EC; unfold W; nra).
  destruct X1 as [X1 X1'], X2 as [X2 X2'].
  destruct (near_bounds _ W _
              (mul_near x f Fx Ff (no_overflow _ W X1 X1' ltac:(lra)))
              ltac:(lra) X1 X1') as (F1 & N1 & N1').
  destruct (near_bounds _ W _
              (mul_near x' f Fx' Ff (no_overflow _ W X2 X2' ltac:(lra)))
              ltac:(lra) X2 X2') as (F2 & N2 & N2').
  exists (2 * W). split; [|split; assumption].
  fold C in N1, N1', N2, N2'. rewrite u64_value.
  repeat split; try lra; nra.
Qed.

(** Subtracting the same float from both keeps them apart. *)
Lemma apart_sub (a b kappa beta : Q) (x x' f : float) :
  apart a b kappa x x' ->
  is_finite f = true -> - beta <= B2Q f -> B2Q f <= beta ->
  beta <= a -> 1 <= a -> 3 * b <= big -> 0 <= kappa ->
  apart (3 * a) (3 * b) ((kappa - 6 * u64) * (1 # 3)) (x - f) (x' - f).
Proof.
  intros (V & (Ha & Hb & L1 & U1 & L2 & U2 & G) & Fx & Fx') Ff Hl Hu Hbeta
         Pa Hbig Hk.
  set (W := 2 * V).
  assert (X1 : - W <= B2Q x - B2Q f /\ B2Q x - B2Q f <= W)
    by (unfold W; lra).
  assert (X2 : - W <= B2Q x' - B2Q f /\ B2Q x' - B2Q f <= W)
    by (unfold W; lra).
  destruct X1 as [X1 X1'], X2 as [X2 X2'].
  assert (Wb : W <= big) by (unfold W; lra).
  destruct (near_bounds _ W _
              (sub_near x f Fx Ff (no_overflow _ W X1 X1' Wb))
              ltac:(unfold W; lra) X1 X1') as (F1 & N1 & N1').
  destruct (near_bounds _ W _
              (sub_near x' f Fx' Ff (no_overflow _ W X2 X2' Wb))
              ltac:(unfold W; lra) X2 X2') as (F2 & N2 & N2').
  exists (3 * V). split; [|split; assumption].
  unfold W in *. rewrite u64_value. repeat split; try lra; nra.
Qed.

(** Dividing both by a positive float keeps them apart. *)
Lemma apart_div_pos (a b kappa c d : Q) (x x' f : float) :
  apart a b kappa x x' ->
  is_finite f = true -> 0 < B2Q f -> c <= / B2Q f -> / B2Q f <= d -> 0 < c ->
  0 < a -> 1 <= a * c -> b * d <= big -> 0 <= kappa ->
  apart (2 * (a * c)) (2 * (b * d)) ((kappa - 3 * u64) * (1 # 2))
        (x / f) (x' / f).
Proof.
  intros (V & (Ha & Hb & L1 & U1 & L2 & U2 & G) & Fx & Fx') Ff Pf Hc Hd Pc Pa
         Hac Hbd Hk.
  assert (Zf : (f =? 0)%float = false).
  { apply not_true_iff_false. rewrite eqb_zero_iff. intros [s E].
    unfold B2Q in Pf. rewrite E in Pf. cbn [SF2Q] in Pf. lra. }
  set (C := / B2Q f) in *. set (W := V * C).
  assert (W1 : a * c <= W) by (unfold W; nra).
  assert (W2 : W <= b * d) by (unfold W; nra).
  assert (X1 : - W <= B2Q x * C /\ B2Q x * C <= W) by (unfold W; nra).
  assert (X2 : - W <= B2Q x' * C /\ B2Q x' * C <= W) by (unfold W; nra).
  assert (GW : kappa * W <= B2Q x' * C - B2Q x * C) by (unfold W; nra).
  destruct X1 as [X1 X1'], X2 as [X2 X2'].
  destruct (near_bounds _ W _
              (div_near x f Fx Ff Zf (no_overflow _ W X1 X1' ltac:(lra)))
              ltac:(lra) X1 X1') as (F1 & N1 & N1').
  destruct (near_bounds _ W _
              (div_near x' f Fx' Ff Zf (no_overflow _ W X2 X2' ltac:(lra)))
              ltac:(lra) X2 X2') as (F2 & N2 & N2').
  exists (2 * W). split; [|split; assumption].
  fold C in N1, N1', N2, N2'. rewrite u64_value.
  repeat split; try lra; nra.
Qed.

Lemma apart_lt (a b kappa : Q) (x x' : float) :
  apart a b kappa x x' -> 0 < a -> 0 < kappa -> (x <? x')%float = true.
Proof.
  intros (V & (Ha & Hb & L1 & U1 & L2 & U2 & G) & Fx & Fx') Pa Pk.
  apply ltb_value; auto. nra.
Qed.

(** ** The impact on whole counts *)

Local Open Scope Q_scope.

Ltac qnum := vm_compute; first [reflexivity | discriminate].

Lemma between_finite (a b x : float) :
  (a <=? x)%float = true -> (x <=? b)%float = true ->
  is_finite a = true -> is_finite b = true -> is_finite x = true.
Proof.
  rewrite !leb_spec. intros L U Fa Fb. apply SFfinite_is_finite.
  apply is_finite_SFfinite in Fa, Fb.
  destruct (Prim2SF x) as [s|s| |s m e]; try exact I.
  - destruct s; [destruct (Prim2SF a) as [?|?| |[] ? ?]|
                 destruct (Prim2SF b) as [?|?| |[] ? ?]];
      try contradiction; discriminate.
  - destruct (Prim2SF a) as [?|?| |[] ? ?]; try contradiction; discriminate.
Qed.

(** A whole count up to 2^30 is stored within a quarter of itself. *)
Lemma countOf_near (n : Z) :
  (0 <= n <= 2 ^ 30)%Z ->
  is_finite (countOf n) = true
  /\ inject_Z n - (1 # 4) <= B2Q (countOf n)
  /\ B2Q (countOf n) <= inject_Z n + (1 # 4).
Proof.
  intros Hn.
  assert (R : rounds_to (inject_Z n) (Prim2SF (countOf n))).
  { unfold countOf. rewrite of_uint63_spec, Uint63.of_Z_spec.
    rewrite Z.mod_small by (change Uint63.wB with (2 ^ 63)%Z; lia).
    eapply rounds_to_ext; [|apply binary_normalize_rounds_to].
    rewrite bpow_0. ring. }
  assert (L : 0 <= inject_Z n)
    by (change 0 with (inject_Z 0); rewrite <- Zle_Qle; lia).
  assert (U : inject_Z n <= 1073741824)
    by (change 1073741824 with (inject_Z (2 ^ 30)); rewrite <- Zle_Qle; lia).
  assert (N := rounds_to_near _ _ R
                 (no_overflow (inject_Z n) 1073741824 ltac:(lra) U ltac:(qnum))).
  destruct (near_bounds (inject_Z n) 1073741824 _ N ltac:(qnum) ltac:(lra) U)
    as (F & N1 & N2).
  split; [exact F|]. split; lra.
Qed.

Lemma counts_apart (n m : Z) :
  (0 <= n < m)%Z -> (m <= 2 ^ 30)%Z ->
  apart 2147483648 2147483648 (1 # 4294967296) (countOf n) (countOf m).
Proof.
  intros Hnm Hm.
  destruct (countOf_near n ltac:(lia)) as (Fn & Ln & Un).
  destruct (countOf_near m ltac:(lia)) as (Fm & Lm & Um).
  assert (L : 0 <= inject_Z n)
    by (change 0 with (inject_Z 0); rewrite <- Zle_Qle; lia).
  assert (U : inject_Z m <= 1073741824)
    by (change 1073741824 with (inject_Z (2 ^ 30)); rewrite <- Zle_Qle; lia).
  assert (G : inject_Z n + 1 <= inject_Z m).
  { change 1 with (inject_Z 1). rewrite <- inject_Z_plus, <- Zle_Qle. lia. }
  exists 2147483648. split; [|split; assumption].
  repeat split; lra.
Qed.

Lemma inverse_bounds (S lo hi : Q) :
  0 < lo -> lo <= S -> S <= hi -> / hi <= / S /\ / S <= / lo.
Proof.
  intros P L U.
  assert (PS : 0 < S) by lra. assert (PH : 0 < hi) by lra.
  assert (I1 := Qinv_lt_0_compat _ PS).
  assert (I2 := Qinv_lt_0_compat _ PH).
  assert (I3 := Qinv_lt_0_compat _ P).
  assert (E1 : S * / S == 1) by (apply Qmult_inv_r; lra).
  assert (E2 : hi * / hi == 1) by (apply Qmult_inv_r; lra).
  assert (E3 : lo * / lo == 1) by (apply Qmult_inv_r; lra).
  split; nra.
Qed.

Lemma positive_nonzero (d : float) :
  is_finite d = true -> 0 < B2Q d -> (d =? 0)%float = false.
Proof.
  intros F P. apply not_true_iff_false. rewrite eqb_zero_iff. intros [s E].
  unfold B2Q in P. rewrite E in P. cbn [SF2Q] in P. lra.
Qed.

(** The normalization factor for a set count between 2^-10 and 2^10. *)
Lemma factor_bounds (sets : float) :
  (0.0009765625 <=? sets)%float = true -> (sets <=? 1024)%float = true ->
  is_finite (3.5 / sets) = true
  /\ (3 # 1024) <= B2Q (3.5 / sets) /\ B2Q (3.5 / sets) <= 4096.
Proof.
  intros L U.
  assert (F := between_finite _ _ _ L U eq_refl eq_refl).
  apply (leb_value 0.0009765625 sets eq_refl F) in L.
  apply (leb_value sets 1024 F eq_refl) in U.
  assert (E1 : B2Q 0.0009765625 == 1 # 1024) by (vm_compute; reflexivity).
  assert (E2 : B2Q 1024 == 1024) by (vm_compute; reflexivity).
  assert (E3 : B2Q 3.5 == 7 # 2) by (vm_compute; reflexivity).
  rewrite E1 in L. rewrite E2 in U.
  destruct (inverse_bounds (B2Q sets) (1 # 1024) 1024 eq_refl L U)
    as [I1 I2].
  assert (J1 : / 1024 == 1 # 1024) by reflexivity.
  assert (J2 : / (1 # 1024) == 1024) by reflexivity.
  rewrite J1 in I1. rewrite J2 in I2.
  assert (Z := positive_nonzero sets F ltac:(lra)).
  assert (X1 : - 4096 <= B2Q 3.5 * / B2Q sets) by (rewrite E3; lra).
  assert (X2 : B2Q 3.5 * / B2Q sets <= 4096) by (rewrite E3; lra).
  assert (N := div_near 3.5 sets eq_refl F Z
                 (no_overflow _ 4096 X1 X2 ltac:(qnum))).
  destruct (near_bounds _ 4096 _ N ltac:(qnum) X1 X2) as (Ff & N1 & N2).
  split; [exact Ff|]. rewrite E3 in N1, N2. split; lra.
Qed.

(** The winning averages are below 97. *)
Lemma benchmark_bounds (metric : string) :
  In metric normalizedKeys ->
  exists b, JS.get metric (win RESEARCH_BENCHMARKS) = Some b
            /\ is_finite b = true /\ - (97) <= B2Q b /\ B2Q b <= 97
            /\ In (JS.num (JS.get metric ODDS_RATIOS)) (JS.values ODDS_RATIOS).
Proof.
  unfold normalizedKeys. simpl. intros H.
  repeat (destruct H as [<-|H];
          [eexists; split; [reflexivity|];
           split; [reflexivity|];
           split; [qnum|split; [qnum|simpl; tauto]]|]).
  contradiction.
Qed.

(** The two sides of the band, in rationals. *)
Lemma inBand_value (l : float) :
  is_finite l = true -> inBand l = true ->
  ((0 <? l)%float = true -> (1 # 1024) <= B2Q l /\ B2Q l <= 1024)
  /\ ((l <? 0)%float = true -> (1 # 1024) <= - B2Q l /\ - B2Q l <= 1024).
Proof.
  intros F B. unfold inBand in B.
  assert (E1 : B2Q 0.0009765625 == 1 # 1024) by (vm_compute; reflexivity).
  assert (E2 : B2Q 1024 == 1024) by (vm_compute; reflexivity).
  assert (E3 : B2Q (-1024) == - (1024)) by (vm_compute; reflexivity).
  assert (E4 : B2Q (-0.0009765625) == - (1 # 1024))
    by (vm_compute; reflexivity).
  assert (E0 : B2Q 0 == 0) by reflexivity.
  apply orb_true_iff in B.
  destruct B as [B|B]; apply andb_true_iff in B; destruct B as [B1 B2].
  - apply (leb_value 0.0009765625 l eq_refl F) in B1.
    apply (leb_value l 1024 F eq_refl) in B2.
    rewrite E1 in B1. rewrite E2 in B2.
    split; intros S; [split; assumption|].
    apply (ltb_value l 0 F eq_refl) in S. rewrite E0 in S. lra.
  - apply (leb_value (-1024) l eq_refl F) in B1.
    apply (leb_value l (-0.0009765625) F eq_refl) in B2.
    rewrite E3 in B1. rewrite E4 in B2.
    split; intros S; [|split; lra].
    apply (ltb_value 0 l eq_refl F) in S. rewrite E0 in S. lra.
Qed.

(** *** On whole counts the impact moves strictly *)

Lemma impactFormula_strict (Math_log : float -> float) (metric : string)
    (sets : float) (n m : Z) :
  soundLog Math_log -> boundedLog Math_log ->
  In metric normalizedKeys ->
  (0.0009765625 <=? sets)%float = true -> (sets <=? 1024)%float = true ->
  (0 <= n < m)%Z -> (m <= 2 ^ 30)%Z ->
  let oddsRatio := JS.num (JS.get metric ODDS_RATIOS) in
  ((1 <? oddsRatio)%float = true ->
   (impactFormula Math_log metric (countOf n) sets
    <? impactFormula Math_log metric (countOf m) sets)%float = true)
  /\ ((oddsRatio <? 1)%float = true ->
      (impactFormula Math_log metric (countOf m) sets
       <? impactFormula Math_log metric (countOf n) sets)%float = true).
Proof.
  intros Hlog Hband Hk Ls Us Hnm Hm oddsRatio.
  destruct (benchmark_bounds metric Hk) as (b & Hb & Fb & Lb & Ub & Hin).
  destruct Hlog as (Hl & F2 & P2).
  destruct (Hl _ Hin) as (Fl & Pos & Neg).
  assert (B2 := Hband _ (or_introl eq_refl)).
  assert (Br := Hband _ (or_intror Hin)).
  destruct (factor_bounds sets Ls Us) as (Ff & Lf & Uf).
  destruct (proj1 (inBand_value _ F2 B2) P2) as [L2 U2].
  assert (P2' : 0 < B2Q (Math_log 2%float)) by lra.
  destruct (inverse_bounds _ (1 # 1024) 1024 eq_refl L2 U2) as [I1 I2].
  assert (J1 : / 1024 == 1 # 1024) by reflexivity.
  assert (J2 : / (1 # 1024) == 1024) by reflexivity.
  rewrite J1 in I1. rewrite J2 in I2.
  assert (E100 : B2Q 100 == 100) by (vm_compute; reflexivity).
  assert (A0 := counts_apart n m Hnm Hm).
  assert (A1 := apart_mul_pos _ _ _ (3 # 1024) 4096 _ _ _ A0 Ff Lf Uf
                  ltac:(qnum) ltac:(qnum) ltac:(qnum) ltac:(qnum)
                  ltac:(qnum)).
  assert (A2 := apart_sub _ _ _ 97 _ _ b A1 Fb Lb Ub
                  ltac:(qnum) ltac:(qnum) ltac:(qnum) ltac:(qnum)).
  unfold impactFormula. rewrite Hb. cbn [JS.num]. fold oddsRatio.
  split; intros Hr.
  - specialize (Pos Hr).
    destruct (proj1 (inBand_value _ Fl Br) Pos) as [Ll Ul].
    assert (A3 := apart_mul_pos _ _ _ (1 # 1024) 1024 _ _ _ A2 Fl Ll Ul
                    ltac:(qnum) ltac:(qnum) ltac:(qnum) ltac:(qnum)
                    ltac:(qnum)).
    assert (A4 := apart_mul_pos _ _ _ 100 100 _ _ 100%float A3 eq_refl
                    ltac:(rewrite E100; lra) ltac:(rewrite E100; lra)
                    ltac:(qnum) ltac:(qnum) ltac:(qnum) ltac:(qnum)
                    ltac:(qnum)).
    assert (A5 := apart_div_pos _ _ _ (1 # 1024) 1024 _ _ _ A4 F2 P2' I1 I2
                    ltac:(qnum) ltac:(qnum) ltac:(qnum) ltac:(qnum)
                    ltac:(qnum)).
    apply (apart_lt _ _ _ _ _ A5); qnum.
  - specialize (Neg Hr).
    destruct (proj2 (inBand_value _ Fl Br) Neg) as [Ll Ul].
    assert (A3 := apart_mul_neg _ _ _ (1 # 1024) 1024 _ _ _ A2 Fl Ll Ul
                    ltac:(qnum) ltac:(qnum) ltac:(qnum) ltac:(qnum)
                    ltac:(qnum)).
    assert (A4 := apart_mul_pos _ _ _ 100 100 _ _ 100%float A3 eq_refl
                    ltac:(rewrite E100; lra) ltac:(rewrite E100; lra)
                    ltac:(qnum) ltac:(qnum) ltac:(qnum) ltac:(qnum)
                    ltac:(qnum)).
    assert (A5 := apart_div_pos _ _ _ (1 # 1024) 1024 _ _ _ A4 F2 P2' I1 I2
                    ltac:(qnum) ltac:(qnum) ltac:(qnum) ltac:(qnum)
                    ltac:(qnum)).
    apply (apart_lt _ _ _ _ _ A5); qnum.
Qed.

Local Close Scope Q_scope.
Local Close Scope Z_scope.

(** * Monotonicity of the impact in the raw count *)

Lemma factor_nonneg (sets : float) :
  (0 <? sets)%float = true -> (0 <=? 3.5 / sets)%float = true.
Proof.
  intros P. apply signed_nonneg. rewrite div_spec.
  rewrite ltb_spec in P. change (Prim2SF 0) with (S754_zero false) in P.
  destruct (Prim2SF sets) as [s|s| |s m e] eqn:E; try discriminate;
    destruct s; try discriminate.
  - exact I.
  - apply (SFdiv_signed _ _ false false m e eq_refl). reflexivity.
Qed.

Lemma Math_log_ref_bounded : boundedLog Math_log_ref.
Proof.
  intros r H. simpl in H.
  repeat (destruct H as [<-|H]; [reflexivity|]). contradiction.
Qed.

(** C8, as it holds of the code.  With the set count used held fixed and
    positive, whatever [Math.log] returns within its specification and
    whatever the other fields are:
    - when the normalization factor and both raw values are finite, a raw
      value that is not smaller gives an impact that is not smaller for a
      key with odds ratio above 1, and not larger for a key with odds ratio
      below 1;
    - when moreover the set count lies between 2^-10 and 2^10 and the raw
      values are whole counts up to 2^30, a larger count gives a strictly
      larger impact for a key with odds ratio above 1, and a strictly
      smaller one for a key with odds ratio below 1. *)
Theorem impact_monotone (Math_log : float -> float)
    (toFixed : float -> nat -> string) (metric : string)
    (stats stats' : RawStats) :
  soundLog Math_log ->
  In metric normalizedKeys ->
  setsUsed stats' = setsUsed stats ->
  (0 <? setsUsed stats)%float = true ->
  let oddsRatio := JS.num (JS.get metric ODDS_RATIOS) in
  let before :=
    impactAt metric (impacts (analyzeGame Math_log toFixed stats)) in
  let after :=
    impactAt metric (impacts (analyzeGame Math_log toFixed stats')) in
  (is_finite (3.5 / setsUsed stats) = true ->
   is_finite (rawOf metric stats) = true ->
   is_finite (rawOf metric stats') = true ->
   (rawOf metric stats <=? rawOf metric stats')%float = true ->
   ((1 <? oddsRatio)%float = true -> (before <=? after)%float = true)
   /\ ((oddsRatio <? 1)%float = true -> (after <=? before)%float = true))
  /\ (boundedLog Math_log ->
      (0.0009765625 <=? setsUsed stats)%float = true ->
      (setsUsed stats <=? 1024)%float = true ->
      forall n m : Z,
        rawOf metric stats = countOf n ->
        rawOf metric stats' = countOf m ->
        (0 <= n < m)%Z -> (m <= 2 ^ 30)%Z ->
        ((1 <? oddsRatio)%float = true -> (before <? after)%float = true)
        /\ ((oddsRatio <? 1)%float = true -> (after <? before)%float = true)).
Proof.
  intros Hlog Hk Hs Hp oddsRatio before after.
  unfold before, after. rewrite !impactAt_formula by assumption.
  rewrite Hs. clear before after.
  split.
  - intros Ff Fr Fr' Hle.
    destruct (benchmark_bounds metric Hk) as (b & Hb & _).
    exact (impactFormula_increasing Math_log metric _ _ _ b Hlog Hb Ff
             (factor_nonneg _ Hp) Fr Fr' Hle).
  - intros Hband Ls Us n m -> -> Hnm Hm.
    exact (impactFormula_strict Math_log metric _ n m Hlog Hband Hk Ls Us
             Hnm Hm).
Qed.

Lemma impact_monotone_witness :
  (impactAt "kills"
     (impacts (analyzeGame Math_log_ref Number_toFixed exampleStats))
   <? impactAt "kills"
        (impacts (analyzeGame Math_log_ref Number_toFixed
                    (withKills 51 exampleStats))))%float = true
  /\ (impactAt "serviceErrors"
        (impacts (analyzeGame Math_log_ref Number_toFixed serviceErrorStats))
      <=? impactAt "serviceErrors"
            (impacts (analyzeGame Math_log_ref Number_toFixed exampleStats)))%float
     = true
  /\ (impactAt "serviceErrors"
        (impacts (analyzeGame Math_log_ref Number_toFixed serviceErrorStats))
      <? impactAt "serviceErrors"
           (impacts (analyzeGame Math_log_ref Number_toFixed exampleStats)))%float
     = true.
Proof.
  split; [|split].
  - refine (proj1 (proj2 (impact_monotone Math_log_ref Number_toFixed "kills"
             exampleStats (withKills 51 exampleStats) Math_log_ref_sound
             _ eq_refl eq_refl)
             Math_log_ref_bounded eq_refl eq_refl 50%Z 51%Z eq_refl eq_refl
             _ _) eq_refl); [simpl; tauto|lia|lia].
  - refine (proj2 (proj1 (impact_monotone Math_log_ref Number_toFixed
             "serviceErrors" exampleStats serviceErrorStats
             Math_log_ref_sound _ eq_refl eq_refl)
             eq_refl eq_refl eq_refl eq_refl) eq_refl); simpl; tauto.
  - refine (proj2 (proj2 (impact_monotone Math_log_ref Number_toFixed
             "serviceErrors" exampleStats serviceErrorStats
             Math_log_ref_sound _ eq_refl eq_refl)
             Math_log_ref_bounded eq_refl eq_refl 12%Z 30%Z eq_refl eq_refl
             _ _) eq_refl); [simpl; tauto|lia|lia].
Defined.

(** Where a larger raw value does not give a larger impact, the set count
    being positive and the same:
    - with 3 sets, one kill and the next number above 1 normalize to
      amounts whose difference the subtraction of the benchmark absorbs;
    - with 2^60 sets, one kill and two do;
    - with one set, 1e308 kills and 1.5e308 both normalize to [Infinity];
    - with the smallest positive set count the factor is [Infinity], and no
      kill gives [NaN], which is below nothing. *)
Lemma impact_not_strict :
  let kills (s : RawStats) :=
    impactAt "kills" (impacts (analyzeGame Math_log_ref Number_toFixed s)) in
  let many := withSets (Some 1152921504606846976%float) exampleStats in
  let one := withSets (Some 1%float) exampleStats in
  let tiny := withSets (Some 0x1p-1074%float) exampleStats in
  (1 <? JS.num (JS.get "kills" ODDS_RATIOS))%float = true
  /\ ((0 <? setsUsed exampleStats)%float = true
      /\ (1 <? 0x1.0000000000001p+0)%float = true
      /\ kills (withKills 1 exampleStats)
         = kills (withKills 0x1.0000000000001p+0 exampleStats)
      /\ (kills (withKills 1 exampleStats)
          <? kills (withKills 0x1.0000000000001p+0 exampleStats))%float
         = false)
  /\ ((0 <? setsUsed many)%float = true
      /\ rawOf "kills" (withKills 1 many) = countOf 1
      /\ rawOf "kills" (withKills 2 many) = countOf 2
      /\ kills (withKills 1 many) = kills (withKills 2 many)
      /\ (kills (withKills 1 many) <? kills (withKills 2 many))%float = false)
  /\ ((0 <? setsUsed one)%float = true
      /\ (1e308 <? 1.5e308)%float = true
      /\ kills (withKills 1e308 one) = infinity
      /\ kills (withKills 1.5e308 one) = infinity
      /\ (kills (withKills 1e308 one) <? kills (withKills 1.5e308 one))%float
         = false)
  /\ ((0 <? setsUsed tiny)%float = true
      /\ (3.5 / setsUsed tiny)%float = infinity
      /\ is_nan (kills (withKills 0 tiny)) = true
      /\ (kills (withKills 0 tiny) <? kills (withKills 1 tiny))%float = false
      /\ (kills (withKills 0 tiny) <=? kills (withKills 1 tiny))%float
         = false).
Proof. repeat split. Qed.
